(** * The running confusion matrix of avalanche/evaluation/metrics/confusion_matrix.py

    A shallow embedding of the [ConfusionMatrix] metric: the count table it
    owns, [update], [result], [reset] and the normalisation helpers, followed
    by the properties the specification states about them.

    - Tensors of labels are lists of integers, tensors of scores are lists of
      rows; the count table is a list of rows of int64 cells.
    - [update] reads and writes the metric object, so the methods live in a
      state-and-exception monad over the record [ConfusionMatrix]; a raised
      exception carries the object as it was when the [raise] was reached.
    - The normalised result is a float64 tensor; it is modelled with the
      IEEE-754 binary64 operations of [SpecFloat].
    - The plugin [StreamConfusionMatrix] wraps a [ConfusionMatrix]; what it
      takes from the rest of the library is gathered in a class. *)

From Stdlib Require Import ZArith QArith Qabs String Lia.
From Stdlib Require Import Floats.SpecFloat.
From stdpp Require Import base list.

Local Open Scope Z_scope.

(** ** Tensors *)

Module Tensor.

(** The inputs of [update]. [len] is the size of the first dimension and
    [ndim] is [len(t.shape)]. Scalars (0-dimensional tensors) are not
    batches and are left out; a tensor with more than two dimensions is
    only ever measured, so its cells are not kept. Scores are compared and
    never computed with: a finite score is a rational. *)
Inductive t : Type :=
| Labels (ys : list Z)                         (* shape (n,)        *)
| Scores (width : nat) (rows : list (list Q))  (* shape (n, width)  *)
| Deep (n : nat) (extra : nat).                (* 3 + extra dimensions *)

Definition len (x : t) : nat :=
  match x with
  | Labels ys => length ys
  | Scores _ rows => length rows
  | Deep n _ => n
  end.

Definition ndim (x : t) : nat :=
  match x with
  | Labels _ => 1
  | Scores _ _ => 2
  | Deep _ extra => 3 + extra
  end.

(** A two-dimensional tensor is rectangular. *)
Definition wf (x : t) : Prop :=
  match x with
  | Scores w rows => Forall (fun r => length r = w) rows
  | _ => True
  end.

(** Python's [l[:stop]]: a negative [stop] counts from the end. *)
Definition slice_stop (stop : Z) (n : nat) : nat :=
  if 0 <=? stop then Z.to_nat (Z.min stop (Z.of_nat n))
  else Z.to_nat (Z.of_nat n + stop).

Definition slice_to {A} (stop : Z) (l : list A) : list A :=
  take (slice_stop stop (length l)) l.

(** [x[:, :stop]] on a two-dimensional tensor. *)
Definition slice_columns (stop : Z) (width : nat) (rows : list (list Q)) : t :=
  Scores (slice_stop stop width) (slice_to stop <$> rows).

Definition Qltb (a b : Q) : bool := negb (Qle_bool b a).

(** Position of the first maximal entry, scanning left to right. *)
Fixpoint argmax_from (best : Q) (best_i i : nat) (l : list Q) : nat :=
  match l with
  | [] => best_i
  | x :: l' =>
      if Qltb best x then argmax_from x i (S i) l'
      else argmax_from best best_i (S i) l'
  end.

Definition argmax (row : list Q) : option nat :=
  match row with
  | [] => None
  | x :: l => Some (argmax_from x 0%nat 1%nat l)
  end.

(** [torch.min(t).item()] and [torch.max(t).item()] of a non-empty
    one-dimensional tensor. *)
Definition min_item (y : Z) (ys : list Z) : Z := foldr Z.min y ys.
Definition max_item (y : Z) (ys : list Z) : Z := foldr Z.max y ys.

End Tensor.

(** ** The count table: a two-dimensional [torch.long] tensor *)

Module Table.

Abbreviation t := (list (list Z)) (only parsing).

(** [torch.long] cells are 64-bit two's complement integers. *)
Definition wrap64 (z : Z) : Z := (z + 2 ^ 63) mod 2 ^ 64 - 2 ^ 63.

(** [cell += 1] *)
Definition incr (c : Z) : Z := wrap64 (c + 1).

Definition shape0 (cm : t) : nat := length cm.
Definition shape1 (cm : t) : nat :=
  match cm with
  | [] => 0%nat
  | r :: _ => length r
  end.

(** [torch.zeros((n, m), dtype=torch.long)] *)
Definition zeros (n m : nat) : t := replicate n (replicate m 0).

(** [pad(cm, (0, d, 0, d))]: [d] zero columns on the right of every row,
    then [d] zero rows below. *)
Definition pad (cm : t) (d : nat) : t :=
  ((fun r => r ++ replicate d 0) <$> cm)
    ++ replicate d (replicate (shape1 cm + d) 0).

(** Python indexing: [-n <= i < n] addresses a cell, anything else raises
    IndexError. *)
Definition py_index (i : Z) (n : nat) : option nat :=
  if (0 <=? i) && (i <? Z.of_nat n) then Some (Z.to_nat i)
  else if (- Z.of_nat n <=? i) && (i <? 0) then Some (Z.to_nat (Z.of_nat n + i))
  else None.

(** [cm[i][j] += 1], or [None] where the indexing raises. *)
Definition incr_at (cm : t) (i j : Z) : option t :=
  r ← py_index i (length cm);
  row ← cm !! r;
  c ← py_index j (length row);
  Some (alter (alter incr c) r cm).

Definition cell (cm : t) (i j : nat) : Z :=
  default 0 (row ← cm !! i; row !! j).

Definition square (cm : t) : Prop :=
  Forall (fun r => length r = length cm) cm.

Definition row_sum (r : list Z) : Z := foldr Z.add 0 r.
Definition total (cm : t) : Z := foldr (fun r acc => row_sum r + acc) 0 cm.

(** Counts are never negative. *)
Definition nonneg (cm : t) : Prop := Forall (Forall (Z.le 0)) cm.

End Table.

(** ** The metric object and the monad its methods run in *)

(** The exceptions the methods raise, one per [raise] statement of the
    source, and those of the tensor library the methods can run into. *)
Inductive exn : Type :=
| SizeMismatch               (* ValueError: Size mismatch for true_y and predicted_y tensors *)
| LabelsTooManyDims          (* ValueError: labels with at most 2 dimensions *)
| PredictionsTooManyDims     (* ValueError: predictions with at most 2 dimensions *)
| NegativeLabel              (* ValueError: Label values must be non-negative values *)
| PredictedLabelTooLarge     (* ValueError: Encountered predicted label larger than num_classes *)
| TargetLabelTooLarge        (* ValueError: Encountered target label larger than num_classes *)
| OnlyPositiveLabels         (* ValueError: can only handle positive label values *)
| InvalidNormalization       (* ValueError: Invalid normalization parameter *)
| EmptyReduction             (* torch.min / torch.max over no element *)
| IndexOutOfRange            (* IndexError of tensor indexing *)
| NoTable.                   (* TypeError: subscripting None *)

(** The exceptions raised by the [raise ValueError] statements of the source. *)
Definition is_ValueError (e : exn) : bool :=
  match e with
  | EmptyReduction | IndexOutOfRange | NoTable => false
  | _ => true
  end.

(** The attributes of the metric object. [num_classes] is a count, hence a
    natural number; [None] stands for Python's [None] in all three. *)
Record ConfusionMatrix : Type := mkConfusionMatrix {
  _cm_tensor : option Table.t;
  _num_classes : option nat;
  normalize : option string
}.

Definition with_cm (self : ConfusionMatrix) (cm : option Table.t) : ConfusionMatrix :=
  {| _cm_tensor := cm;
     _num_classes := _num_classes self;
     normalize := normalize self |}.

Inductive outcome (A : Type) : Type :=
| Return (a : A)
| Raise (e : exn).
Arguments Return {A} a.
Arguments Raise {A} e.

Definition M (A : Type) : Type := ConfusionMatrix -> outcome A * ConfusionMatrix.

#[global] Instance M_ret : MRet M := fun A a self => (Return a, self).
#[global] Instance M_bind : MBind M := fun A B f m self =>
  match m self with
  | (Return a, self') => f a self'
  | (Raise e, self') => (Raise e, self')
  end.

Definition raise {A} (e : exn) : M A := fun self => (Raise e, self).
Definition get_self : M ConfusionMatrix := fun self => (Return self, self).
Definition set_cm_tensor (cm : option Table.t) : M unit :=
  fun self => (Return tt, with_cm self cm).

(** [__init__] *)
Definition init (num_classes : option nat) (normalize : option string) : ConfusionMatrix :=
  {| _cm_tensor := None; _num_classes := num_classes; normalize := normalize |}.

(** ** float64 tensors *)

Module Float64.

Definition prec : Z := 53.
Definition emax : Z := 1024.

Definition zero : spec_float := S754_zero false.

(** Conversion of an int64 to float64, rounding to nearest even. *)
Definition of_int (z : Z) : spec_float := binary_normalize prec emax z 0 false.

Definition add : spec_float -> spec_float -> spec_float := SFadd prec emax.
Definition div : spec_float -> spec_float -> spec_float := SFdiv prec emax.

(** A float64 reduction over the converted cells ([sum(dtype=torch.float64)]),
    accumulated from [+0.0] in index order. The library does not fix the
    order; sums below 2^53 are exact ([Float64Facts.sum_of_int]), so for
    them the order does not show. *)
Definition sum (l : list Z) : spec_float := foldl add zero (of_int <$> l).

Definition max_float : spec_float := SFmax_float prec emax.

(** [numpy.nan_to_num] with its default arguments. *)
Definition nan_to_num1 (x : spec_float) : spec_float :=
  match x with
  | S754_nan => zero
  | S754_infinity false => max_float
  | S754_infinity true => SFopp max_float
  | _ => x
  end.

(** The exact value of a finite float. *)
Definition to_Q (x : spec_float) : Q :=
  match x with
  | S754_finite s m e =>
      let v := if 0 <=? e then inject_Z (Z.pos m * 2 ^ e)
               else Z.pos m # Z.to_pos (2 ^ (- e)) in
      if s then Qopp v else v
  | _ => 0%Q
  end.

(** The number of bits of a mantissa. *)
Definition digits (p : positive) : Z := Z.pos (digits2_pos p).

(** [x] is the float64 of the integer [c], [1 <= c < 2^53]: a 53-bit mantissa
    and the exponent that makes it worth [c]. *)
Definition repr (x : spec_float) (c : Z) : Prop :=
  exists m e, x = S754_finite false m e /\ digits m = 53 /\ e <= 0 /\ Z.pos m = c * 2 ^ (- e).

(** [x] holds the integer [c], [0 <= c < 2^53], exactly. *)
Definition val (x : spec_float) (c : Z) : Prop :=
  (c = 0 /\ x = zero) \/ repr x c.

(** Where a remainder [r] out of [d] lies with respect to one half. *)
Definition located (l : location) (r d : Z) : Prop :=
  match l with
  | loc_Exact => r = 0
  | loc_Inexact Lt => 0 < 2 * r < d
  | loc_Inexact Eq => 2 * r = d
  | loc_Inexact Gt => d < 2 * r
  end.

(** The sum of exact values. *)
Definition Qsum (l : list Q) : Q := foldr Qplus 0%Q l.

(** Neither a NaN nor an infinity. *)
Definition finite (x : spec_float) : bool :=
  match x with
  | S754_zero _ | S754_finite _ _ _ => true
  | _ => false
  end.

End Float64.

(** ** The methods of [ConfusionMatrix] *)

(** What [result] hands out: the int64 table or a float64 copy. *)
Inductive result_tensor : Type :=
| LongTensor (cm : Table.t)
| DoubleTensor (m : list (list spec_float)).

(** Line 107. *)
Definition initial_max_label (self : ConfusionMatrix) : Z :=
  match _num_classes self with
  | None => -1
  | Some n => Z.of_nat n - 1
  end.

(** Lines 110-115: "select valid portion of target and predictions". *)
Definition select_valid (self : ConfusionMatrix) (max_label : Z) (x : Tensor.t) : Tensor.t :=
  match x, _num_classes self with
  | Tensor.Scores w rows, Some _ => Tensor.slice_columns max_label w rows
  | _, _ => x
  end.

(** [torch.max(x, 1)[1]] on a tensor of shape [(n, w)]: the reduction needs
    [w > 0]. *)
Definition max_dim1 (w : nat) (rows : list (list Q)) : option (list Z) :=
  if (w =? 0)%nat then None
  else mapM (fun r => Z.of_nat <$> Tensor.argmax r) rows.

(** Lines 118-132 for the predictions and lines 134-149 for the targets,
    which differ in the exception [too_large] alone. The tensor has at most
    two dimensions when this is reached: lines 100-105 have raised on any
    other, so the last case is never run. *)
Definition to_labels (too_large : exn) (x : Tensor.t) (max_label : Z) : M (Z * list Z) :=
  self ← get_self;
  match x with
  | Tensor.Scores w rows =>
      let max_label :=
        match _num_classes self with
        | None => Z.max max_label (Z.of_nat w - 1)
        | Some _ => max_label
        end in
      match max_dim1 w rows with
      | None => raise EmptyReduction
      | Some idx => mret (max_label, idx)
      end
  | Tensor.Labels [] => raise EmptyReduction
  | Tensor.Labels ((y :: ys') as ys) =>
      if Tensor.min_item y ys' <? 0 then raise NegativeLabel
      else
        match _num_classes self with
        | None => mret (Z.max max_label (Tensor.max_item y ys'), ys)
        | Some n =>
            if Tensor.max_item y ys' >=? Z.of_nat n then raise too_large
            else mret (max_label, ys)
        end
  | Tensor.Deep _ _ => raise too_large
  end.

(** Lines 97-153: every check of the batch, and its class indices. *)
Definition class_indices (true_y predicted_y : Tensor.t) : M (Z * list Z * list Z) :=
  self ← get_self;
  if negb (Tensor.len true_y =? Tensor.len predicted_y)%nat then raise SizeMismatch
  else if (2 <? Tensor.ndim true_y)%nat then raise LabelsTooManyDims
  else if (2 <? Tensor.ndim predicted_y)%nat then raise PredictionsTooManyDims
  else
    let max_label := initial_max_label self in
    let true_y := select_valid self max_label true_y in
    let predicted_y := select_valid self max_label predicted_y in
    '(max_label, predicted_y) ← to_labels PredictedLabelTooLarge predicted_y max_label;
    '(max_label, true_y) ← to_labels TargetLabelTooLarge true_y max_label;
    if max_label <? 0 then raise OnlyPositiveLabels
    else mret (max_label, true_y, predicted_y).

(** Lines 155-163: create the table, or enlarge it. *)
Definition allocate_or_enlarge (max_label : Z) : M unit :=
  self ← get_self;
  match _cm_tensor self with
  | None =>
      let n := Z.to_nat (max_label + 1) in
      set_cm_tensor (Some (Table.zeros n n))
  | Some cm =>
      if max_label >=? Z.of_nat (Table.shape0 cm) then
        let size_diff := 1 + max_label - Z.of_nat (Table.shape0 cm) in
        set_cm_tensor (Some (Table.pad cm (Z.to_nat size_diff)))
      else mret tt
  end.

(** Line 166, one iteration. *)
Definition count_pattern (t p : Z) : M unit :=
  self ← get_self;
  match _cm_tensor self with
  | None => raise NoTable
  | Some cm =>
      match Table.incr_at cm t p with
      | None => raise IndexOutOfRange
      | Some cm' => set_cm_tensor (Some cm')
      end
  end.

(** Lines 165-166: the loop over [range(len(true_y))]. *)
Fixpoint count_patterns (true_y predicted_y : list Z) : M unit :=
  match true_y, predicted_y with
  | [], _ => mret tt
  | _ :: _, [] => raise IndexOutOfRange
  | t :: ts, p :: ps => count_pattern t p;; count_patterns ts ps
  end.

Definition update (true_y predicted_y : Tensor.t) : M unit :=
  '(max_label, true_idx, predicted_idx) ← class_indices true_y predicted_y;
  allocate_or_enlarge max_label;;
  count_patterns true_idx predicted_idx.

Definition map2d {A B} (f : A -> B) (m : list (list A)) : list (list B) :=
  (fun r : list A => f <$> r) <$> m.

Definition column (j : nat) (cm : Table.t) : list Z :=
  (fun r => default 0 (r !! j)) <$> cm.

(** [cm / cm.sum(dim=1, keepdim=True, dtype=torch.float64)] *)
Definition div_by_row_sums (cm : Table.t) : list (list spec_float) :=
  (fun r => (fun c => Float64.div (Float64.of_int c) (Float64.sum r)) <$> r) <$> cm.

(** [cm / cm.sum(dim=0, keepdim=True, dtype=torch.float64)] *)
Definition div_by_column_sums (cm : Table.t) : list (list spec_float) :=
  let sums := (fun j => Float64.sum (column j cm)) <$> seq 0 (Table.shape1 cm) in
  (fun r => zip_with (fun c s => Float64.div (Float64.of_int c) s) r sums) <$> cm.

(** [cm / cm.sum(dtype=torch.float64)] *)
Definition div_by_total (cm : Table.t) : list (list spec_float) :=
  let s := Float64.sum (concat cm) in
  map2d (fun c => Float64.div (Float64.of_int c) s) cm.

(** [nan_to_num] *)
Definition nan_to_num (m : list (list spec_float)) : list (list spec_float) :=
  map2d Float64.nan_to_num1 m.

Definition valid_normalization (normalization : string) : bool :=
  existsb (String.eqb normalization) ["true"; "pred"; "all"]%string.

(** [_normalize_cm] *)
Definition _normalize_cm (cm : Table.t) (normalization : string)
  : outcome (list (list spec_float)) :=
  if negb (valid_normalization normalization) then Raise InvalidNormalization
  else
    let cm' :=
      if String.eqb normalization "true" then div_by_row_sums cm
      else if String.eqb normalization "pred" then div_by_column_sums cm
      else div_by_total cm in
    Return (nan_to_num cm').

Definition lift {A} (o : outcome A) : M A := fun self => (o, self).

(** [result] *)
Definition result : M result_tensor :=
  self ← get_self;
  match _cm_tensor self with
  | None =>
      let n := match _num_classes self with
               | None => 0%nat
               | Some n => n
               end in
      mret (LongTensor (Table.zeros n n))
  | Some cm =>
      match normalize self with
      | Some normalization =>
          m ← lift (_normalize_cm cm normalization);
          mret (DoubleTensor m)
      | None => mret (LongTensor cm)
      end
  end.

(** [reset] *)
Definition reset : M unit := set_cm_tensor None.

(** A sequence of [update] calls, stopping at the first that raises. *)
Fixpoint updates (batches : list (Tensor.t * Tensor.t)) : M unit :=
  match batches with
  | [] => mret tt
  | (true_y, predicted_y) :: rest => update true_y predicted_y;; updates rest
  end.

(** ** Notions the properties are stated with *)

(** A computation that only reads the object. *)
Definition read_only {A} (m : M A) : Prop :=
  forall self o self', m self = (o, self') -> self' = self.

(** A computation that writes nothing but the table. *)
Definition writes_table_only {A} (m : M A) : Prop :=
  forall self o self', m self = (o, self') -> self' = with_cm self (_cm_tensor self').

(** The table, when there is one, is square. *)
Definition state_wf (self : ConfusionMatrix) : Prop :=
  match _cm_tensor self with
  | None => True
  | Some cm => Table.square cm
  end.

(** The objects a program can hold: built by [__init__] and driven through
    the three methods, [update] being given rectangular tensors. *)
Inductive reachable : ConfusionMatrix -> Prop :=
| reachable_init num_classes normalization :
    reachable (init num_classes normalization)
| reachable_update self true_y predicted_y o self' :
    reachable self -> Tensor.wf true_y -> Tensor.wf predicted_y ->
    update true_y predicted_y self = (o, self') -> reachable self'
| reachable_result self o self' :
    reachable self -> result self = (o, self') -> reachable self'
| reachable_reset self o self' :
    reachable self -> reset self = (o, self') -> reachable self'.

(** How many samples of a batch have true class [i] and predicted class [j]. *)
Fixpoint hits (i j : Z) (true_idx predicted_idx : list Z) : nat :=
  match true_idx, predicted_idx with
  | t :: ts, p :: ps =>
      ((if bool_decide (t = i /\ p = j) then 1 else 0) + hits i j ts ps)%nat
  | _, _ => 0%nat
  end.

(** The cells of the object's table; no table, no cell. *)
Definition table_of (self : ConfusionMatrix) : Table.t :=
  default [] (_cm_tensor self).

(** Batches of direct labels, as [update] receives them. *)
Definition label_batches (batches : list (list Z * list Z)) : list (Tensor.t * Tensor.t) :=
  (fun b => (Tensor.Labels (fst b), Tensor.Labels (snd b))) <$> batches.

(** The number of samples a sequence of batches supplies. *)
Definition samples (batches : list (Tensor.t * Tensor.t)) : Z :=
  foldr (fun b acc => Z.of_nat (Tensor.len (fst b)) + acc) 0 batches.

(** A tensor of direct labels with a label that [update] must refuse: a
    negative one, or one that reaches a fixed [num_classes]. *)
Definition out_of_range (self : ConfusionMatrix) (x : Tensor.t) : Prop :=
  match x with
  | Tensor.Labels ys =>
      Exists (fun y => y < 0) ys \/
      exists n, _num_classes self = Some n /\ Exists (fun y => Z.of_nat n <= y) ys
  | _ => False
  end.

(** The exceptions the specification files under RangeError. *)
Definition is_range_error (e : exn) : bool :=
  match e with
  | NegativeLabel | PredictedLabelTooLarge | TargetLabelTooLarge => true
  | _ => false
  end.

(** The number of samples of a sequence of label batches with true class [i]
    and predicted class [j]. *)
Definition hits_all (i j : Z) (batches : list (list Z * list Z)) : nat :=
  foldr (fun b acc => (hits i j (fst b) (snd b) + acc)%nat) 0%nat batches.

(** The number of classes a tensor shows when [num_classes] is not fixed:
    one more than its largest direct label, or the width of its score
    vectors. *)
Definition extent (x : Tensor.t) : Z :=
  match x with
  | Tensor.Labels [] => 0
  | Tensor.Labels (y :: ys) => 1 + Tensor.max_item y ys
  | Tensor.Scores w _ => Z.of_nat w
  | Tensor.Deep _ _ => 0
  end.

(** Column [j] of a float64 matrix. *)
Definition float_column (j : nat) (m : list (list spec_float)) : list spec_float :=
  (fun r => default Float64.zero (r !! j)) <$> m.

(** ** The plugin metric [StreamConfusionMatrix] *)

Module Stream.

(** What the plugin uses and this file does not define: images, the
    strategy object handed to the callbacks with the attributes and helpers
    read from it, and the part of the object inherited from [PluginMetric]
    with the inherited methods called on it. *)
Class Framework : Type := {
  Image : Type;
  Strategy : Type;
  Experience : Type;
  TaskLabel : Type;
  PluginMetric : Type;
  default_cm_image_creator : result_tensor -> Image;
  mb_y : Strategy -> Tensor.t;
  mb_pred : Strategy -> Tensor.t;
  experience : Strategy -> Experience;
  phase_and_task : Strategy -> string * TaskLabel;
  stream_type : Experience -> string;
  super_init : PluginMetric;
  super_after_eval_iteration : Strategy -> PluginMetric -> PluginMetric;
  get_global_counter : PluginMetric -> Z
}.

Section methods.
Context `{Framework}.

Record StreamConfusionMatrix : Type := mkStreamConfusionMatrix {
  super : PluginMetric;
  _save_image : bool;
  num_classes : option nat;
  normalize : option string;
  _matrix : ConfusionMatrix;
  _image_creator : result_tensor -> Image
}.

Definition with_matrix (self : StreamConfusionMatrix) (matrix : ConfusionMatrix)
  : StreamConfusionMatrix :=
  {| super := super self; _save_image := _save_image self;
     num_classes := num_classes self; normalize := normalize self;
     _matrix := matrix; _image_creator := _image_creator self |}.

Definition with_super (self : StreamConfusionMatrix) (base : PluginMetric)
  : StreamConfusionMatrix :=
  {| super := base; _save_image := _save_image self;
     num_classes := num_classes self; normalize := normalize self;
     _matrix := _matrix self; _image_creator := _image_creator self |}.

(** The values handed to the loggers. *)
Inductive logged : Type :=
| TensorValue (exp_cm : result_tensor)
| AlternativeValues (cm_image : Image) (exp_cm : result_tensor).

Record MetricValue : Type := mkMetricValue {
  origin : StreamConfusionMatrix;
  name : string;
  value : logged;
  x_plot : Z
}.

(** The methods of the plugin run on the plugin object. *)
Definition SM (A : Type) : Type :=
  StreamConfusionMatrix -> outcome A * StreamConfusionMatrix.

#[global] Instance SM_ret : MRet SM := fun A a self => (Return a, self).
#[global] Instance SM_bind : MBind SM := fun A B f m self =>
  match m self with
  | (Return a, self') => f a self'
  | (Raise e, self') => (Raise e, self')
  end.

Definition get_self : SM StreamConfusionMatrix := fun self => (Return self, self).

(** A method call on [self._matrix]. *)
Definition on_matrix {A} (m : M A) : SM A := fun self =>
  let '(o, matrix) := m (_matrix self) in (o, with_matrix self matrix).

Definition reset : SM unit := fun self =>
  (Return tt, with_matrix self (init (num_classes self) (normalize self))).

Definition result : SM result_tensor := on_matrix result.

Definition update (true_y predicted_y : Tensor.t) : SM unit :=
  on_matrix (update true_y predicted_y).

Definition before_eval (strategy : Strategy) : SM unit := reset.

Definition after_eval_iteration (strategy : Strategy) : SM unit := fun self =>
  update (mb_y strategy) (mb_pred strategy)
    (with_super self (super_after_eval_iteration strategy (super self))).

Definition __str__ : string := "ConfusionMatrix_Stream".

Definition _package_result (strategy : Strategy) : SM (list MetricValue) :=
  exp_cm ← result;
  self ← get_self;
  let '(phase_name, _) := phase_and_task strategy in
  let stream := stream_type (experience strategy) in
  let metric_name :=
    (__str__ ++ "/" ++ phase_name ++ "_phase/" ++ stream ++ "_stream")%string in
  let plot_x_position := get_global_counter (super self) in
  let metric_representation :=
    if _save_image self then
      let cm_image := _image_creator self exp_cm in
      mkMetricValue self metric_name (AlternativeValues cm_image exp_cm) plot_x_position
    else
      mkMetricValue self metric_name (TensorValue exp_cm) plot_x_position in
  mret [metric_representation].

Definition after_eval (strategy : Strategy) : SM (list MetricValue) :=
  _package_result strategy.

(** [__init__]; [image_creator=None] selects the default creator. *)
Definition init (num_classes : option nat) (normalize : option string)
    (save_image : bool) (image_creator : option (result_tensor -> Image))
  : StreamConfusionMatrix :=
  {| super := super_init;
     _save_image := save_image;
     num_classes := num_classes;
     normalize := normalize;
     _matrix := init num_classes normalize;
     _image_creator := default default_cm_image_creator image_creator |}.

(** The callbacks of the minibatches of an evaluation, one after the
    other, stopping at the first that raises. *)
Fixpoint eval_iterations (iterations : list Strategy) : SM unit :=
  match iterations with
  | [] => mret tt
  | strategy :: rest => after_eval_iteration strategy;; eval_iterations rest
  end.

(** The batches those callbacks pass on. *)
Definition minibatches (iterations : list Strategy) : list (Tensor.t * Tensor.t) :=
  (fun strategy => (mb_y strategy, mb_pred strategy)) <$> iterations.

End methods.
End Stream.

(** A framework small enough to run the callbacks: the strategy is its
    minibatch, the image of a matrix is the matrix, and the inherited part
    of the plugin is its global counter. *)
Definition bare_framework : Stream.Framework :=
  {| Stream.Image := result_tensor;
     Stream.Strategy := Tensor.t * Tensor.t;
     Stream.Experience := unit;
     Stream.TaskLabel := unit;
     Stream.PluginMetric := Z;
     Stream.default_cm_image_creator := fun exp_cm => exp_cm;
     Stream.mb_y := fst;
     Stream.mb_pred := snd;
     Stream.experience := fun _ => tt;
     Stream.phase_and_task := fun _ => ("eval"%string, tt);
     Stream.stream_type := fun _ => "test"%string;
     Stream.super_init := 0;
     Stream.super_after_eval_iteration := fun _ counter => counter;
     Stream.get_global_counter := fun counter => counter |}.

(** * Properties *)

(** ** The scenarios of the specification *)

Example scenario_labels :
  update (Tensor.Labels [0; 1; 1]) (Tensor.Labels [0; 1; 0]) (init None None)
  = (Return tt, {| _cm_tensor := Some [[1; 0]; [1; 1]]; _num_classes := None; normalize := None |}).
Proof. reflexivity. Qed.

Example scenario_scores :
  update (Tensor.Labels [1]) (Tensor.Scores 2 [[1 # 10; 9 # 10]%Q]) (init None None)
  = (Return tt, {| _cm_tensor := Some [[0; 0]; [0; 1]]; _num_classes := None; normalize := None |}).
Proof. reflexivity. Qed.

Example scenario_size_mismatch :
  update (Tensor.Labels [0; 1]) (Tensor.Labels [0]) (init None None)
  = (Raise SizeMismatch, init None None).
Proof. reflexivity. Qed.

Example scenario_reset_and_replay :
  (update (Tensor.Labels [0; 1; 1]) (Tensor.Labels [0; 1; 0]);; reset;;
   update (Tensor.Labels [0; 1; 1]) (Tensor.Labels [0; 1; 0])) (init None None)
  = update (Tensor.Labels [0; 1; 1]) (Tensor.Labels [0; 1; 0]) (init None None).
Proof. reflexivity. Qed.

(** ** Running monadic code *)

Section monad_facts.
Context {A B : Type}.
Implicit Types (m : M A) (f : A -> M B).

Lemma bind_run m f self :
  (m ≫= f) self =
    match m self with
    | (Return a, self') => f a self'
    | (Raise e, self') => (Raise e, self')
    end.
Proof. reflexivity. Qed.

Lemma bind_Return m f self b self' :
  (m ≫= f) self = (Return b, self') ->
  exists a self1, m self = (Return a, self1) /\ f a self1 = (Return b, self').
Proof.
  rewrite bind_run. destruct (m self) as [[a|e] self1]; [eauto | discriminate].
Qed.

Lemma bind_Raise m f self e self' :
  (m ≫= f) self = (Raise e, self') ->
  m self = (Raise e, self') \/
  exists a self1, m self = (Return a, self1) /\ f a self1 = (Raise e, self').
Proof.
  rewrite bind_run. destruct (m self) as [[a|e1] self1]; intros H.
  - right. eauto.
  - left. injection H as -> ->. reflexivity.
Qed.
End monad_facts.

Lemma read_only_ret {A} (a : A) : read_only (mret a).
Proof. intros self o self' [= _ <-]. reflexivity. Qed.

Lemma read_only_raise {A} (e : exn) : read_only (@raise A e).
Proof. intros self o self' [= _ <-]. reflexivity. Qed.

Lemma read_only_lift {A} (o : outcome A) : read_only (lift o).
Proof. intros self o' self' [= _ <-]. reflexivity. Qed.

Lemma read_only_get_self : read_only get_self.
Proof. intros self o self' [= _ <-]. reflexivity. Qed.

Lemma read_only_bind {A B} (m : M A) (f : A -> M B) :
  read_only m -> (forall a, read_only (f a)) -> read_only (m ≫= f).
Proof.
  intros Hm Hf self o self'. rewrite bind_run.
  destruct (m self) as [[a|e] self1] eqn:E; apply Hm in E; subst self1.
  - apply Hf.
  - intros [= _ <-]. reflexivity.
Qed.

Create HintDb read_only.
#[global] Hint Resolve read_only_ret read_only_raise read_only_lift
  read_only_get_self : read_only.

Ltac read_only_step :=
  lazymatch goal with
  | |- read_only (_ ≫= _) => apply read_only_bind; [| intros ?]
  | |- read_only (if ?b then _ else _) => destruct b
  | |- read_only (match ?x with _ => _ end) => destruct x
  | |- read_only (let _ := _ in _) => cbv zeta
  | |- _ => solve [auto with read_only]
  end.

Lemma read_only_to_labels too_large x max_label :
  read_only (to_labels too_large x max_label).
Proof. unfold to_labels. repeat read_only_step. Qed.

Lemma read_only_class_indices true_y predicted_y :
  read_only (class_indices true_y predicted_y).
Proof.
  unfold class_indices.
  repeat first [ apply read_only_to_labels | read_only_step ].
Qed.

Lemma read_only_result : read_only result.
Proof. unfold result. repeat read_only_step. Qed.

(** ** The count table *)

Module TableFacts.
Import Table.

Lemma wrap64_small z : - 2 ^ 63 <= z < 2 ^ 63 -> wrap64 z = z.
Proof. intros H. unfold wrap64. rewrite Z.mod_small; lia. Qed.

Lemma incr_small c : 0 <= c -> c + 1 < 2 ^ 63 -> incr c = c + 1.
Proof. intros H0 H1. unfold incr. apply wrap64_small. lia. Qed.

Lemma square_shape1 cm : square cm -> shape1 cm = length cm.
Proof.
  intros Hsq. destruct cm as [|r cm']; [reflexivity |].
  exact (Forall_inv Hsq).
Qed.

Lemma square_lookup cm i row :
  square cm -> cm !! i = Some row -> length row = length cm.
Proof. intros Hsq Hi. exact (proj1 (Forall_lookup _ _) Hsq i row Hi). Qed.

Lemma square_zeros n : square (zeros n n).
Proof.
  unfold square, zeros. rewrite length_replicate.
  apply Forall_replicate, length_replicate.
Qed.

Lemma length_pad cm d : length (pad cm d) = (length cm + d)%nat.
Proof. unfold pad. rewrite length_app, length_fmap, length_replicate. lia. Qed.

Lemma square_pad cm d : square cm -> square (pad cm d).
Proof.
  intros Hsq. unfold square. rewrite length_pad.
  unfold pad. apply Forall_app. split.
  - apply Forall_fmap. eapply Forall_impl; [exact Hsq |].
    intros r Hr. unfold compose. rewrite List.length_app, length_replicate, Hr.
    reflexivity.
  - apply Forall_replicate. rewrite length_replicate, (square_shape1 _ Hsq).
    reflexivity.
Qed.

(** Zero-padding keeps every cell where it was and fills the new cells
    with zero. *)
Lemma cell_pad_old cm d i j :
  (i < length cm)%nat -> cell (pad cm d) i j = cell cm i j.
Proof.
  intros Hi. unfold cell, pad.
  rewrite lookup_app_l by (rewrite length_fmap; exact Hi).
  rewrite list_lookup_fmap.
  destruct (cm !! i) as [row|]; [simpl | reflexivity].
  destruct (decide (j < length row)%nat) as [Hj|Hj].
  - rewrite lookup_app_l by exact Hj. reflexivity.
  - rewrite lookup_app_r by lia.
    rewrite (proj2 (lookup_ge_None row j)) by lia.
    destruct (replicate d 0 !! (j - length row)%nat) as [z|] eqn:E; [| reflexivity].
    apply lookup_replicate in E as [-> _]. reflexivity.
Qed.

Lemma cell_pad_new cm d i j :
  (length cm <= i)%nat -> cell (pad cm d) i j = 0.
Proof.
  intros Hi. unfold cell, pad.
  rewrite lookup_app_r by (rewrite length_fmap; exact Hi).
  destruct (replicate d _ !! _) as [row|] eqn:E; [simpl | reflexivity].
  apply lookup_replicate in E as [-> _].
  destruct (replicate _ 0 !! j) as [z|] eqn:E; [| reflexivity].
  apply lookup_replicate in E as [-> _]. reflexivity.
Qed.

Lemma cell_outside cm i j :
  square cm -> (length cm <= i)%nat \/ (length cm <= j)%nat -> cell cm i j = 0.
Proof.
  intros Hsq Hij. unfold cell.
  destruct (cm !! i) as [row|] eqn:Ei; [simpl | reflexivity].
  destruct Hij as [Hi|Hj].
  - apply lookup_lt_Some in Ei. lia.
  - rewrite (proj2 (lookup_ge_None row j)); [reflexivity |].
    rewrite (square_lookup _ _ _ Hsq Ei). exact Hj.
Qed.

Lemma cell_zeros n i j : cell (zeros n n) i j = 0.
Proof.
  unfold cell, zeros.
  destruct (replicate n _ !! i) as [row|] eqn:E; [simpl | reflexivity].
  apply lookup_replicate in E as [-> _].
  destruct (replicate _ 0 !! j) as [z|] eqn:E; [| reflexivity].
  apply lookup_replicate in E as [-> _]. reflexivity.
Qed.

Lemma py_index_in_range i n :
  0 <= i < Z.of_nat n -> py_index i n = Some (Z.to_nat i).
Proof.
  intros H. unfold py_index.
  destruct (Z.leb_spec 0 i), (Z.ltb_spec i (Z.of_nat n)); simpl; first [reflexivity | lia].
Qed.

Lemma py_index_Some i n k : py_index i n = Some k -> (k < n)%nat.
Proof.
  unfold py_index.
  destruct (Z.leb_spec 0 i), (Z.ltb_spec i (Z.of_nat n)); simpl;
    try (intros [= <-]; lia);
    destruct (Z.leb_spec (- Z.of_nat n) i), (Z.ltb_spec i 0); simpl;
    try discriminate; intros [= <-]; lia.
Qed.

(** The shape of the table survives an increment. *)
Lemma incr_at_shape cm i j cm' :
  incr_at cm i j = Some cm' ->
  length cm' = length cm /\ (square cm -> square cm').
Proof.
  unfold incr_at. intros H.
  destruct (py_index i (length cm)) as [r|]; [simpl in H | discriminate].
  destruct (cm !! r) as [row|] eqn:Er; [simpl in H | discriminate].
  destruct (py_index j (length row)) as [c|]; [simpl in H | discriminate].
  injection H as <-. split; [apply length_alter |].
  unfold square. rewrite length_alter. intros Hsq.
  apply Forall_lookup. intros k x Hk.
  destruct (decide (r = k)) as [->|Hne].
  - rewrite list_lookup_alter_eq, Er in Hk. injection Hk as <-.
    rewrite length_alter. exact (square_lookup _ _ _ Hsq Er).
  - rewrite list_lookup_alter_ne in Hk by exact Hne.
    exact (square_lookup _ _ _ Hsq Hk).
Qed.

(** An index pair inside a square table is incremented, not refused. *)
Lemma incr_at_in_range cm i j :
  square cm -> 0 <= i < Z.of_nat (length cm) -> 0 <= j < Z.of_nat (length cm) ->
  incr_at cm i j = Some (alter (alter incr (Z.to_nat j)) (Z.to_nat i) cm).
Proof.
  intros Hsq Hi Hj. unfold incr_at.
  rewrite (py_index_in_range _ _ Hi). simpl.
  destruct (cm !! Z.to_nat i) as [row|] eqn:Er.
  - simpl. rewrite (square_lookup _ _ _ Hsq Er), (py_index_in_range _ _ Hj).
    reflexivity.
  - apply lookup_ge_None in Er. lia.
Qed.

Lemma cell_alter cm r c a b :
  square cm -> (r < length cm)%nat -> (c < length cm)%nat ->
  cell (alter (alter incr c) r cm) a b =
    if bool_decide (a = r /\ b = c) then incr (cell cm a b) else cell cm a b.
Proof.
  intros Hsq Hr Hc. unfold cell.
  destruct (lookup_lt_is_Some_2 cm r Hr) as [row Hrow].
  pose proof (square_lookup _ _ _ Hsq Hrow) as Hlen.
  destruct (lookup_lt_is_Some_2 row c ltac:(lia)) as [x Hx].
  case_bool_decide as H.
  - destruct H as [-> ->].
    rewrite list_lookup_alter_eq, Hrow. simpl.
    rewrite list_lookup_alter_eq, Hx. reflexivity.
  - destruct (decide (a = r)) as [->|Hne].
    + rewrite list_lookup_alter_eq, Hrow. simpl.
      rewrite list_lookup_alter_ne by (intros ->; apply H; auto). reflexivity.
    + rewrite list_lookup_alter_ne by auto. reflexivity.
Qed.

Lemma row_sum_alter f c (row : list Z) x :
  row !! c = Some x -> row_sum (alter f c row) = row_sum row - x + f x.
Proof.
  revert c. induction row as [|y row IH]; intros [|c] Hc; cbn in *;
    try discriminate.
  - injection Hc as ->. lia.
  - specialize (IH c Hc). unfold row_sum in IH. lia.
Qed.

Lemma total_alter g r (cm : list (list Z)) row :
  cm !! r = Some row -> total (alter g r cm) = total cm - row_sum row + row_sum (g row).
Proof.
  revert r. induction cm as [|y cm IH]; intros [|r] Hr; cbn in *;
    try discriminate.
  - injection Hr as ->. lia.
  - specialize (IH r Hr). unfold total, row_sum in *. lia.
Qed.

Lemma row_sum_cons x (row : list Z) : row_sum (x :: row) = x + row_sum row.
Proof. reflexivity. Qed.

Lemma total_cons r (cm : list (list Z)) : total (r :: cm) = row_sum r + total cm.
Proof. reflexivity. Qed.

Lemma row_sum_nonneg (row : list Z) : Forall (Z.le 0) row -> 0 <= row_sum row.
Proof. induction 1; rewrite ?row_sum_cons; [reflexivity | lia]. Qed.

Lemma row_sum_ge (row : list Z) c x :
  Forall (Z.le 0) row -> row !! c = Some x -> x <= row_sum row.
Proof.
  intros Hrow. revert c. induction Hrow as [|y row Hy Hrow IH]; intros [|c] Hc;
    try discriminate; rewrite row_sum_cons.
  - injection Hc as ->. pose proof (row_sum_nonneg _ Hrow). lia.
  - specialize (IH c Hc). lia.
Qed.

Lemma total_nonneg cm : nonneg cm -> 0 <= total cm.
Proof.
  induction 1 as [|row cm Hrow _ IH]; [reflexivity |].
  rewrite total_cons. pose proof (row_sum_nonneg _ Hrow). lia.
Qed.

Lemma total_ge cm r row :
  nonneg cm -> cm !! r = Some row -> row_sum row <= total cm.
Proof.
  intros Hcm. revert r. induction Hcm as [|y cm Hy Hcm IH]; intros [|r] Hr;
    try discriminate; rewrite total_cons.
  - injection Hr as ->. pose proof (total_nonneg _ Hcm). lia.
  - specialize (IH r Hr). pose proof (row_sum_nonneg _ Hy). lia.
Qed.

Lemma row_sum_replicate n : row_sum (replicate n 0) = 0.
Proof.
  induction n as [|n IH]; [reflexivity |].
  change (replicate (S n) 0) with (0 :: replicate n 0). rewrite row_sum_cons. lia.
Qed.

Lemma row_sum_app r1 r2 : row_sum (r1 ++ r2) = row_sum r1 + row_sum r2.
Proof.
  induction r1 as [|x r1 IH]; [reflexivity |].
  rewrite <- app_comm_cons, !row_sum_cons. lia.
Qed.

Lemma total_app cm1 cm2 : total (cm1 ++ cm2) = total cm1 + total cm2.
Proof.
  induction cm1 as [|x cm1 IH]; [reflexivity |].
  rewrite <- app_comm_cons, !total_cons. lia.
Qed.

Lemma total_replicate_zeros n m : total (replicate n (replicate m 0)) = 0.
Proof.
  induction n as [|n IH]; [reflexivity |].
  change (replicate (S n) (replicate m 0))
    with (replicate m 0 :: replicate n (replicate m 0)).
  rewrite total_cons, row_sum_replicate. lia.
Qed.



Lemma total_pad cm d : total (pad cm d) = total cm.
Proof.
  unfold pad. rewrite total_app, total_replicate_zeros.
  induction cm as [|r cm IH]; [reflexivity |].
  rewrite fmap_cons, !total_cons, row_sum_app, row_sum_replicate. lia.
Qed.

Lemma nonneg_pad cm d : nonneg cm -> nonneg (pad cm d).
Proof.
  intros H. unfold pad, nonneg. apply Forall_app. split.
  - apply Forall_fmap. eapply Forall_impl; [exact H |].
    intros r Hr. unfold compose. apply Forall_app. split; [exact Hr |].
    apply Forall_replicate. reflexivity.
  - apply Forall_replicate, Forall_replicate. reflexivity.
Qed.

(** One increment adds one to the total, as long as int64 is not exhausted. *)
Lemma incr_at_total cm i j cm' :
  nonneg cm -> total cm + 1 < 2 ^ 63 -> incr_at cm i j = Some cm' ->
  nonneg cm' /\ total cm' = total cm + 1.
Proof.
  intros Hnn Hlt H. unfold incr_at in H.
  destruct (py_index i (length cm)) as [r|]; [simpl in H | discriminate].
  destruct (cm !! r) as [row|] eqn:Er; [simpl in H | discriminate].
  destruct (py_index j (length row)) as [c|] eqn:Ec; [simpl in H | discriminate].
  injection H as <-.
  apply py_index_Some in Ec.
  destruct (lookup_lt_is_Some_2 row c Ec) as [x Hx].
  pose proof (proj1 (Forall_lookup _ _) Hnn r row Er) as Hrow.
  pose proof (proj1 (Forall_lookup _ _) Hrow c x Hx) as Hx0. simpl in Hx0.
  pose proof (row_sum_ge _ _ _ Hrow Hx) as Hx1.
  pose proof (total_ge _ _ _ Hnn Er) as Hx2.
  assert (Hincr : incr x = x + 1) by (apply incr_small; lia).
  split.
  - apply Forall_lookup. intros k y Hk.
    destruct (decide (r = k)) as [->|Hne].
    + rewrite list_lookup_alter_eq, Er in Hk. injection Hk as <-.
      apply Forall_lookup. intros k' z Hk'.
      destruct (decide (c = k')) as [->|Hne'].
      * rewrite list_lookup_alter_eq, Hx in Hk'. injection Hk' as <-.
        rewrite Hincr. simpl. lia.
      * rewrite list_lookup_alter_ne in Hk' by exact Hne'.
        exact (proj1 (Forall_lookup _ _) Hrow k' z Hk').
    + rewrite list_lookup_alter_ne in Hk by exact Hne.
      exact (proj1 (Forall_lookup _ _) Hnn k y Hk).
  - rewrite (total_alter _ _ _ _ Er), (row_sum_alter _ _ _ _ Hx), Hincr. lia.
Qed.
End TableFacts.

(** ** Tensors *)

Module TensorFacts.
Import Tensor.

Lemma argmax_from_lt best best_i i l :
  (best_i < i)%nat -> (argmax_from best best_i i l < i + length l)%nat.
Proof.
  revert best best_i i. induction l as [|x l IH]; intros best best_i i Hlt; simpl.
  - lia.
  - destruct (Qltb best x).
    + specialize (IH x i (S i) ltac:(lia)). lia.
    + specialize (IH best best_i (S i) ltac:(lia)). lia.
Qed.

Lemma argmax_lt row k : argmax row = Some k -> (k < length row)%nat.
Proof.
  destruct row as [|x l]; [discriminate |]. intros [= <-].
  pose proof (argmax_from_lt x 0%nat 1%nat l ltac:(lia)). simpl. lia.
Qed.

Lemma argmax_is_Some row : row <> [] -> is_Some (argmax row).
Proof. destruct row; [congruence | eauto]. Qed.

Lemma min_item_le y ys : Forall (Z.le (min_item y ys)) (y :: ys).
Proof.
  induction ys as [|z ys IH]; unfold min_item; simpl.
  - repeat constructor. lia.
  - apply Forall_cons in IH as [Hy Hys]. fold (min_item y ys) in *.
    repeat constructor; try lia.
    eapply Forall_impl; [exact Hys |]. simpl. intros. lia.
Qed.

Lemma max_item_ge y ys : Forall (fun z => z <= max_item y ys) (y :: ys).
Proof.
  induction ys as [|z ys IH]; unfold max_item; simpl.
  - repeat constructor. lia.
  - apply Forall_cons in IH as [Hy Hys]. fold (max_item y ys) in *.
    repeat constructor; try lia.
    eapply Forall_impl; [exact Hys |]. simpl. intros. lia.
Qed.

(** The smallest and the largest label are labels of the tensor. *)
Lemma min_item_elem y ys : min_item y ys ∈ y :: ys.
Proof.
  induction ys as [|z ys IH]; unfold min_item; simpl; [left |].
  fold (min_item y ys).
  destruct (Z.min_spec z (min_item y ys)) as [[_ ->]|[_ ->]].
  - right. left.
  - apply elem_of_cons in IH as [->|IH]; [left | right; right; exact IH].
Qed.

Lemma max_item_elem y ys : max_item y ys ∈ y :: ys.
Proof.
  induction ys as [|z ys IH]; unfold max_item; simpl; [left |].
  fold (max_item y ys).
  destruct (Z.max_spec z (max_item y ys)) as [[_ ->]|[_ ->]].
  - apply elem_of_cons in IH as [->|IH]; [left | right; right; exact IH].
  - right. left.
Qed.

Lemma slice_stop_le stop n : (slice_stop stop n <= n)%nat.
Proof. unfold slice_stop. destruct (Z.leb_spec 0 stop); lia. Qed.

Lemma slice_stop_bound stop n : 0 <= stop -> Z.of_nat (slice_stop stop n) <= stop.
Proof. intros H. unfold slice_stop. destruct (Z.leb_spec 0 stop); lia. Qed.

Lemma length_slice_to {A} stop (l : list A) :
  length (slice_to stop l) = slice_stop stop (length l).
Proof.
  unfold slice_to. rewrite length_take.
  pose proof (slice_stop_le stop (length l)). lia.
Qed.

Lemma wf_slice_columns stop w rows :
  wf (Scores w rows) -> wf (slice_columns stop w rows).
Proof.
  simpl. intros H. apply Forall_fmap. eapply Forall_impl; [exact H |].
  intros r <-. unfold compose. apply length_slice_to.
Qed.
Lemma Qltb_true a b : Qltb a b = true -> (a < b)%Q.
Proof.
  unfold Qltb. intros H. apply negb_true_iff in H. apply Qnot_le_lt.
  intros Hle. apply Qle_bool_iff in Hle. congruence.
Qed.

Lemma Qltb_false a b : Qltb a b = false -> (b <= a)%Q.
Proof.
  unfold Qltb. intros H. apply negb_false_iff in H. apply Qle_bool_iff, H.
Qed.

(** The scan keeps the position of the first largest score seen so far. *)
Lemma argmax_from_spec l : forall pre best best_i,
  pre !! best_i = Some best ->
  (forall j y, pre !! j = Some y -> (y <= best)%Q) ->
  (forall j y, (j < best_i)%nat -> pre !! j = Some y -> (y < best)%Q) ->
  exists x,
    (pre ++ l) !! argmax_from best best_i (length pre) l = Some x /\
    (forall j y, (pre ++ l) !! j = Some y -> (y <= x)%Q) /\
    (forall j y, (j < argmax_from best best_i (length pre) l)%nat ->
                 (pre ++ l) !! j = Some y -> (y < x)%Q).
Proof.
  induction l as [|x l IH]; intros pre best best_i Hbest Hle Hlt.
  - exists best. rewrite app_nil_r. simpl. auto.
  - cbn [argmax_from].
    replace (pre ++ x :: l) with ((pre ++ [x]) ++ l) by (rewrite <- app_assoc; reflexivity).
    replace (S (length pre)) with (length (pre ++ [x]))
      by (rewrite List.length_app; simpl; lia).
    destruct (Qltb best x) eqn:E.
    + apply Qltb_true in E.
      apply IH.
      * rewrite lookup_app_r, Nat.sub_diag by lia. reflexivity.
      * intros j y Hj. apply lookup_app_Some in Hj as [Hj|[_ Hj]].
        -- apply Qlt_le_weak. eapply Qle_lt_trans; [exact (Hle _ _ Hj) | exact E].
        -- apply list_lookup_singleton_Some in Hj as [_ <-]. apply Qle_refl.
      * intros j y Hlen Hj.
        rewrite lookup_app_l in Hj by exact Hlen.
        eapply Qle_lt_trans; [exact (Hle _ _ Hj) | exact E].
    + apply Qltb_false in E. apply IH.
      * apply lookup_app_l_Some, Hbest.
      * intros j y Hj. apply lookup_app_Some in Hj as [Hj|[_ Hj]].
        -- exact (Hle _ _ Hj).
        -- apply list_lookup_singleton_Some in Hj as [_ <-]. exact E.
      * intros j y Hlen Hj.
        rewrite lookup_app_l in Hj by (apply lookup_lt_Some in Hbest; lia).
        exact (Hlt _ _ Hlen Hj).
Qed.

(** [argmax] is the position of the largest score, the first one if it
    occurs several times. *)
Lemma argmax_spec row k :
  argmax row = Some k ->
  exists x, row !! k = Some x /\
            (forall j y, row !! j = Some y -> (y <= x)%Q) /\
            (forall j y, (j < k)%nat -> row !! j = Some y -> (y < x)%Q).
Proof.
  destruct row as [|x0 l]; [discriminate |]. intros [= <-].
  apply (argmax_from_spec l [x0] x0 0%nat).
  - reflexivity.
  - intros [|j] y Hj; [injection Hj as <-; apply Qle_refl | discriminate].
  - intros j y Hj. lia.
Qed.
End TensorFacts.

(** ** The checks of [update] *)

Lemma max_dim1_Some w rows idx :
  Tensor.wf (Tensor.Scores w rows) -> max_dim1 w rows = Some idx ->
  length idx = length rows /\ Forall (fun i => 0 <= i < Z.of_nat w) idx.
Proof.
  unfold max_dim1. simpl. intros Hwf H.
  destruct (Nat.eqb_spec w 0) as [|Hw]; [discriminate |].
  apply mapM_Some in H.
  split; [symmetry; exact (Forall2_length _ _ _ H) |].
  induction H as [|r i rows idx Hr _ IH]; [constructor |].
  apply Forall_cons in Hwf as [Hlen Hwf]. constructor; [| exact (IH Hwf)].
  destruct (Tensor.argmax r) as [k|] eqn:Ek; [| discriminate].
  injection Hr as <-. apply TensorFacts.argmax_lt in Ek. lia.
Qed.

Lemma max_dim1_is_Some w rows :
  Tensor.wf (Tensor.Scores w rows) -> w <> 0%nat -> is_Some (max_dim1 w rows).
Proof.
  unfold max_dim1. simpl. intros Hwf Hw.
  destruct (Nat.eqb_spec w 0) as [|_]; [contradiction |].
  induction Hwf as [|r rows Hr _ [idx IH]]; [eexists; reflexivity |].
  destruct (TensorFacts.argmax_is_Some r) as [k Hk].
  { intros ->. simpl in Hr. lia. }
  exists (Z.of_nat k :: idx). apply mapM_Some. constructor.
  - rewrite Hk. reflexivity.
  - apply mapM_Some. exact IH.
Qed.

Lemma len_select_valid self max_label x :
  Tensor.len (select_valid self max_label x) = Tensor.len x.
Proof.
  unfold select_valid. destruct x, (_num_classes self); simpl;
    rewrite ?length_fmap; reflexivity.
Qed.

Lemma ndim_select_valid self max_label x :
  Tensor.ndim (select_valid self max_label x) = Tensor.ndim x.
Proof. unfold select_valid. destruct x, (_num_classes self); reflexivity. Qed.

(** What a conversion that went through has established. *)
Lemma to_labels_Return too_large x max_label0 self max_label idx self' :
  Tensor.wf x ->
  (is_Some (_num_classes self) -> max_label0 = initial_max_label self) ->
  to_labels too_large (select_valid self (initial_max_label self) x) max_label0 self
    = (Return (max_label, idx), self') ->
  length idx = Tensor.len x /\ max_label0 <= max_label /\
  (is_Some (_num_classes self) -> max_label = max_label0) /\
  (_num_classes self = None -> 0 <= max_label) /\
  (0 <= max_label -> Forall (fun i => 0 <= i <= max_label) idx).
Proof.
  intros Hwf Hfix. unfold to_labels, select_valid, initial_max_label in *.
  rewrite bind_run. cbn [get_self].
  destruct x as [ys|w rows|n extra].
  - (* direct labels *)
    replace (match _num_classes self with Some _ | _ => Tensor.Labels ys end)
      with (Tensor.Labels ys) by (destruct (_num_classes self); reflexivity).
    destruct ys as [|y ys]; [discriminate |].
    pose proof (TensorFacts.min_item_le y ys) as Hmin.
    pose proof (TensorFacts.max_item_ge y ys) as Hmax.
    destruct (Z.ltb_spec (Tensor.min_item y ys) 0) as [|Hnn]; [discriminate |].
    destruct (_num_classes self) as [n|].
    + destruct (Z.geb_spec (Tensor.max_item y ys) (Z.of_nat n)) as [|Hlt];
        [discriminate |].
      intros [= <- <- <-]. specialize (Hfix ltac:(eauto)).
      repeat split; try lia; [discriminate |].
      intros _. apply Forall_forall. intros i Hi.
      pose proof (proj1 (Forall_forall _ _) Hmin i Hi).
      pose proof (proj1 (Forall_forall _ _) Hmax i Hi). simpl in *. lia.
    + intros [= <- <- <-].
      assert (0 <= Tensor.max_item y ys).
      { apply Forall_cons in Hmin as [Hy _]. apply Forall_cons in Hmax as [Hy' _]. lia. }
      repeat split; try lia.
      { intros [? [=]]. }
      intros _. apply Forall_forall. intros i Hi.
      pose proof (proj1 (Forall_forall _ _) Hmin i Hi).
      pose proof (proj1 (Forall_forall _ _) Hmax i Hi). simpl in *. lia.
  - (* scores *)
    destruct (_num_classes self) as [n|] eqn:En.
    + unfold Tensor.slice_columns.
      destruct (max_dim1 _ _) as [idx'|] eqn:Em; [| discriminate].
      intros [= <- <- <-]. specialize (Hfix ltac:(eauto)).
      apply max_dim1_Some in Em as [Hlen Hidx];
        [| apply (TensorFacts.wf_slice_columns _ _ _ Hwf)].
      rewrite length_fmap in Hlen.
      repeat split; [exact Hlen | lia | discriminate |].
      intros Hml. eapply Forall_impl; [exact Hidx |]. simpl. intros i Hi.
      pose proof (TensorFacts.slice_stop_bound (Z.of_nat n - 1) w ltac:(lia)). lia.
    + destruct (max_dim1 _ _) as [idx'|] eqn:Em; [| discriminate].
      intros [= <- <- <-].
      assert (w <> 0%nat).
      { intros ->. discriminate Em. }
      apply max_dim1_Some in Em as [Hlen Hidx]; [| exact Hwf].
      repeat split; [exact Hlen | lia | | lia |].
      { intros [? [=]]. }
      intros _. eapply Forall_impl; [exact Hidx |]. simpl. intros i Hi. lia.
  - destruct (_num_classes self); discriminate.
Qed.

(** With [num_classes] fixed to [n], no score vector is ever counted for
    the class [n - 1]: the arg-max ranges over the first [n - 1] columns. *)
Lemma scores_never_reach_last_class too_large w rows max_label0 self n max_label idx self' :
  _num_classes self = Some n -> (0 < n)%nat -> Tensor.wf (Tensor.Scores w rows) ->
  to_labels too_large
    (select_valid self (initial_max_label self) (Tensor.Scores w rows)) max_label0 self
    = (Return (max_label, idx), self') ->
  Forall (fun i => 0 <= i < Z.of_nat n - 1) idx.
Proof.
  intros Hn Hpos Hwf. unfold to_labels, select_valid, initial_max_label.
  rewrite bind_run. cbn [get_self]. rewrite Hn. unfold Tensor.slice_columns.
  destruct (max_dim1 _ _) as [idx'|] eqn:Em; [| discriminate].
  intros [= _ <- _].
  apply max_dim1_Some in Em as [_ Hidx];
    [| apply (TensorFacts.wf_slice_columns _ _ _ Hwf)].
  eapply Forall_impl; [exact Hidx |]. simpl. intros i Hi.
  pose proof (TensorFacts.slice_stop_bound (Z.of_nat n - 1) w ltac:(lia)). lia.
Qed.

(** A batch that passed every check: the object is untouched, the two index
    lists have the length of the batch, and every index lies in
    [0 .. max_label]. *)
Lemma class_indices_Return true_y predicted_y self max_label ti pi self' :
  Tensor.wf true_y -> Tensor.wf predicted_y ->
  class_indices true_y predicted_y self = (Return (max_label, ti, pi), self') ->
  self' = self /\ 0 <= max_label /\ initial_max_label self <= max_label /\
  length ti = Tensor.len true_y /\ length pi = length ti /\
  Forall (fun i => 0 <= i <= max_label) ti /\
  Forall (fun i => 0 <= i <= max_label) pi.
Proof.
  intros Ht Hp H.
  pose proof (read_only_class_indices _ _ _ _ _ H) as ->.
  split; [reflexivity |].
  unfold class_indices in H. rewrite bind_run in H. cbn [get_self] in H.
  destruct (Nat.eqb_spec (Tensor.len true_y) (Tensor.len predicted_y)) as [Hlen|];
    [simpl in H | discriminate].
  destruct (2 <? Tensor.ndim true_y)%nat; [discriminate |].
  destruct (2 <? Tensor.ndim predicted_y)%nat; [discriminate |].
  cbv zeta in H.
  apply bind_Return in H as ([ml1 pi1] & s1 & H1 & H).
  pose proof (read_only_to_labels _ _ _ _ _ _ H1) as ->.
  apply bind_Return in H as ([ml2 ti2] & s2 & H2 & H).
  pose proof (read_only_to_labels _ _ _ _ _ _ H2) as ->.
  destruct (Z.ltb_spec ml2 0) as [|Hml]; [discriminate |].
  injection H as <- <- <-.
  apply to_labels_Return in H1 as (Hl1 & Hm1 & Hf1 & Hn1 & Hb1); [| exact Hp | auto].
  apply to_labels_Return in H2 as (Hl2 & Hm2 & Hf2 & Hn2 & Hb2); [| exact Ht |].
  2:{ intros Hnc. apply Hf1. exact Hnc. }
  repeat split; try lia; [exact (Hb2 Hml) |].
  destruct (_num_classes self) as [n|] eqn:En.
  - rewrite (Hf2 ltac:(eauto)) in *. exact (Hb1 Hml).
  - eapply Forall_impl; [exact (Hb1 (Hn1 eq_refl)) |]. simpl. intros i Hi. lia.
Qed.

(** ** Allocation, growth and the counting loop *)

Lemma with_cm_with_cm self cm1 cm2 : with_cm (with_cm self cm1) cm2 = with_cm self cm2.
Proof. reflexivity. Qed.

Lemma with_cm_same self : with_cm self (_cm_tensor self) = self.
Proof. destruct self. reflexivity. Qed.

(** The allocation step always goes through; it leaves a square table that
    holds [max_label], which is the old table, or the old table zero-padded,
    or a fresh table of zeros. *)
Lemma allocate_or_enlarge_run max_label self :
  0 <= max_label -> state_wf self ->
  exists cm,
    allocate_or_enlarge max_label self = (Return tt, with_cm self (Some cm)) /\
    Table.square cm /\ max_label < Z.of_nat (length cm) /\
    match _cm_tensor self with
    | None => cm = Table.zeros (Z.to_nat (max_label + 1)) (Z.to_nat (max_label + 1))
    | Some old =>
        (length old <= length cm)%nat /\
        cm = if max_label >=? Z.of_nat (length old)
             then Table.pad old (length cm - length old) else old
    end.
Proof.
  intros Hml Hwf. unfold allocate_or_enlarge, state_wf in *.
  rewrite bind_run. cbn [get_self].
  destruct (_cm_tensor self) as [old|] eqn:Eold.
  - unfold Table.shape0.
    destruct (Z.geb_spec max_label (Z.of_nat (length old))) as [Hge|Hlt].
    + eexists. split; [reflexivity |].
      split; [apply TableFacts.square_pad, Hwf |].
      rewrite TableFacts.length_pad. repeat split; try lia.
      f_equal. lia.
    + exists old. split.
      { unfold mret, M_ret. rewrite <- Eold, with_cm_same. reflexivity. }
      repeat split; [exact Hwf | lia | lia].
  - eexists. split; [reflexivity |].
    split; [apply TableFacts.square_zeros |].
    split; [| reflexivity].
    unfold Table.zeros. rewrite length_replicate. lia.
Qed.

Lemma hits_cons i j t p ts ps :
  hits i j (t :: ts) (p :: ps)
  = ((if bool_decide (t = i /\ p = j) then 1 else 0) + hits i j ts ps)%nat.
Proof. reflexivity. Qed.

Lemma iter_incr_shift n c : Nat.iter n Table.incr (Table.incr c) = Table.incr (Nat.iter n Table.incr c).
Proof. induction n as [|n IH]; simpl; [reflexivity | rewrite IH; reflexivity]. Qed.

(** With every index inside the square table the loop runs to its end, the
    table keeps its shape, and each cell has been incremented once per
    sample that points at it. *)
Lemma count_patterns_run ti pi self cm :
  _cm_tensor self = Some cm -> Table.square cm -> length pi = length ti ->
  Forall (fun i => 0 <= i < Z.of_nat (length cm)) ti ->
  Forall (fun i => 0 <= i < Z.of_nat (length cm)) pi ->
  exists cm',
    count_patterns ti pi self = (Return tt, with_cm self (Some cm')) /\
    Table.square cm' /\ length cm' = length cm /\
    forall a b, Table.cell cm' a b
                = Nat.iter (hits (Z.of_nat a) (Z.of_nat b) ti pi) Table.incr (Table.cell cm a b).
Proof.
  revert pi self cm.
  induction ti as [|t ti IH]; intros pi self cm Hcm Hsq Hlen Hti Hpi.
  - exists cm. simpl. unfold mret, M_ret. rewrite <- Hcm, with_cm_same.
    repeat split; assumption.
  - destruct pi as [|p pi]; [discriminate |].
    apply Forall_cons in Hpi as [Hp Hpi]. apply Forall_cons in Hti as [Ht Hti].
    cbn [count_patterns]. rewrite bind_run.
    unfold count_pattern at 1. rewrite bind_run. cbn [get_self]. rewrite Hcm.
    rewrite (TableFacts.incr_at_in_range _ _ _ Hsq Ht Hp).
    set (cm1 := alter (alter Table.incr (Z.to_nat p)) (Z.to_nat t) cm).
    assert (Hshape : length cm1 = length cm /\ Table.square cm1).
    { pose proof (TableFacts.incr_at_shape cm t p cm1
                    (TableFacts.incr_at_in_range _ _ _ Hsq Ht Hp)) as [? Hs].
      split; [assumption | exact (Hs Hsq)]. }
    destruct Hshape as [Hlen1 Hsq1].
    cbn [set_cm_tensor].
    destruct (IH pi (with_cm self (Some cm1)) cm1 eq_refl Hsq1) as (cm' & Hrun & Hsq' & Hlen' & Hcell).
    { simpl in Hlen. lia. }
    { rewrite Hlen1. exact Hti. }
    { rewrite Hlen1. exact Hpi. }
    exists cm'. rewrite Hrun, with_cm_with_cm.
    repeat split; [exact Hsq' | lia |].
    intros a b. rewrite Hcell, hits_cons. unfold cm1.
    rewrite TableFacts.cell_alter by (try assumption; lia).
    destruct (bool_decide (t = Z.of_nat a /\ p = Z.of_nat b)) eqn:E1;
      destruct (bool_decide (a = Z.to_nat t /\ b = Z.to_nat p)) eqn:E2;
      try apply bool_decide_eq_true in E1; try apply bool_decide_eq_false in E1;
      try apply bool_decide_eq_true in E2; try apply bool_decide_eq_false in E2;
      try lia.
    + rewrite Nat.add_1_l. simpl. apply iter_incr_shift.
    + reflexivity.
Qed.


(** While int64 is not exhausted, the loop adds the number of samples to the
    sum of the cells. *)
Lemma count_patterns_total ti pi self self' cm :
  count_patterns ti pi self = (Return tt, self') ->
  _cm_tensor self = Some cm -> Table.nonneg cm ->
  Table.total cm + Z.of_nat (length ti) < 2 ^ 63 ->
  exists cm', _cm_tensor self' = Some cm' /\ Table.nonneg cm' /\
              Table.total cm' = Table.total cm + Z.of_nat (length ti).
Proof.
  revert pi self cm.
  induction ti as [|t ti IH]; intros pi self cm Hrun Hcm Hnn Hlt.
  - injection Hrun as <-. exists cm. simpl. repeat split; [assumption.. | lia].
  - destruct pi as [|p pi]; [discriminate |].
    cbn [count_patterns] in Hrun.
    apply bind_Return in Hrun as ([] & self1 & H1 & Hrun).
    unfold count_pattern in H1. rewrite bind_run in H1. cbn [get_self] in H1.
    rewrite Hcm in H1.
    destruct (Table.incr_at cm t p) as [cm1|] eqn:E1; [| discriminate].
    injection H1 as <-.
    simpl length in Hlt.
    apply TableFacts.incr_at_total in E1 as [Hnn1 Ht1]; [| assumption | lia].
    destruct (IH pi _ cm1 Hrun eq_refl Hnn1) as (cm' & Hcm' & Hnn' & Ht'); [lia |].
    exists cm'. repeat split; [assumption.. |]. simpl length. lia.
Qed.

(** The course of an [update] on an object whose table is square: either a
    check raises and nothing was written, or the table is allocated or
    enlarged to hold every class index of the batch and the loop counts
    every sample. *)
Lemma update_run true_y predicted_y self :
  state_wf self -> Tensor.wf true_y -> Tensor.wf predicted_y ->
  (exists e, class_indices true_y predicted_y self = (Raise e, self) /\
             update true_y predicted_y self = (Raise e, self)) \/
  (exists max_label ti pi cm1 cm',
      class_indices true_y predicted_y self = (Return (max_label, ti, pi), self) /\
      allocate_or_enlarge max_label self = (Return tt, with_cm self (Some cm1)) /\
      count_patterns ti pi (with_cm self (Some cm1)) = (Return tt, with_cm self (Some cm')) /\
      update true_y predicted_y self = (Return tt, with_cm self (Some cm')) /\
      0 <= max_label < Z.of_nat (length cm1) /\
      length ti = Tensor.len true_y /\ length pi = length ti /\
      Forall (fun i => 0 <= i <= max_label) ti /\
      Forall (fun i => 0 <= i <= max_label) pi /\
      Table.square cm1 /\ Table.square cm' /\ length cm' = length cm1 /\
      match _cm_tensor self with
      | None => cm1 = Table.zeros (Z.to_nat (max_label + 1)) (Z.to_nat (max_label + 1))
      | Some old =>
          (length old <= length cm1)%nat /\
          cm1 = if max_label >=? Z.of_nat (length old)
                then Table.pad old (length cm1 - length old) else old
      end /\
      forall a b, Table.cell cm' a b
                  = Nat.iter (hits (Z.of_nat a) (Z.of_nat b) ti pi) Table.incr
                      (Table.cell cm1 a b)).
Proof.
  intros Hwf Ht Hp. unfold update. rewrite bind_run.
  destruct (class_indices true_y predicted_y self) as [[[[ml ti] pi]|e] self1] eqn:Eci.
  - right.
    destruct (class_indices_Return _ _ _ _ _ _ _ Ht Hp Eci)
      as (-> & Hml & _ & Hlt & Hlp & Hti & Hpi).
    destruct (allocate_or_enlarge_run ml self Hml Hwf) as (cm1 & Hal & Hsq1 & Hlen1 & Hrel).
    assert (Hin : forall l, Forall (fun i => 0 <= i <= ml) l ->
                            Forall (fun i => 0 <= i < Z.of_nat (length cm1)) l).
    { intros l Hl. eapply Forall_impl; [exact Hl |]. simpl. intros i Hi. lia. }
    destruct (count_patterns_run ti pi (with_cm self (Some cm1)) cm1 eq_refl Hsq1 Hlp
                (Hin _ Hti) (Hin _ Hpi)) as (cm' & Hrun & Hsq' & Hlen' & Hcell).
    exists ml, ti, pi, cm1, cm'.
    rewrite bind_run, Hal, Hrun.
    repeat split; try assumption; try lia.
  - left. exists e.
    pose proof (read_only_class_indices _ _ _ _ _ Eci) as ->. split; reflexivity.
Qed.


Lemma update_state_wf true_y predicted_y self o self' :
  state_wf self -> Tensor.wf true_y -> Tensor.wf predicted_y ->
  update true_y predicted_y self = (o, self') -> state_wf self'.
Proof.
  intros Hwf Ht Hp H.
  destruct (update_run _ _ _ Hwf Ht Hp)
    as [(e & _ & Hu)|(ml & ti & pi & cm1 & cm' & _ & _ & _ & Hu & _ & _ & _ & _ & _ & _ & Hsq & _)];
    rewrite Hu in H; injection H as <- <-; [exact Hwf | exact Hsq].
Qed.

(** Every object a program can hold has a square table. *)
Lemma reachable_state_wf self : reachable self -> state_wf self.
Proof.
  induction 1 as [nc norm | self t p o self' _ IH Ht Hp Hu
                 | self o self' _ IH Hr | self o self' _ IH Hr].
  - exact I.
  - exact (update_state_wf _ _ _ _ _ IH Ht Hp Hu).
  - pose proof (read_only_result _ _ _ Hr) as ->. exact IH.
  - injection Hr as <- <-. exact I.
Qed.

Lemma pad_nil d : Table.pad [] d = Table.zeros d d.
Proof. reflexivity. Qed.

Lemma pad_0 cm : Table.pad cm 0 = cm.
Proof.
  unfold Table.pad. simpl. rewrite app_nil_r.
  induction cm as [|r cm IH]; [reflexivity |].
  rewrite fmap_cons, app_nil_r. f_equal. exact IH.
Qed.

(** The table [update] counts into is the old one zero-padded, a missing
    table counting as the empty one. *)
Lemma update_run_pad true_y predicted_y self :
  state_wf self -> Tensor.wf true_y -> Tensor.wf predicted_y ->
  forall self', update true_y predicted_y self = (Return tt, self') ->
  exists max_label ti pi d cm',
    class_indices true_y predicted_y self = (Return (max_label, ti, pi), self) /\
    self' = with_cm self (Some cm') /\
    count_patterns ti pi (with_cm self (Some (Table.pad (table_of self) d)))
      = (Return tt, self') /\
    Table.square (table_of self) /\ Table.square cm' /\
    length cm' = (length (table_of self) + d)%nat /\
    max_label < Z.of_nat (length cm') /\
    length ti = Tensor.len true_y /\ length pi = length ti /\
    Forall (fun i => 0 <= i <= max_label) ti /\
    Forall (fun i => 0 <= i <= max_label) pi /\
    forall a b, Table.cell cm' a b
                = Nat.iter (hits (Z.of_nat a) (Z.of_nat b) ti pi) Table.incr
                    (Table.cell (Table.pad (table_of self) d) a b).
Proof.
  intros Hwf Ht Hp self' Hu.
  destruct (update_run _ _ _ Hwf Ht Hp)
    as [(e & _ & Hu')|(ml & ti & pi & cm1 & cm' & Hci & Hal & Hcp & Hu' & Hml & Hlt & Hlp
                       & Hti & Hpi & Hsq1 & Hsq' & Hlen' & Hrel & Hcell)];
    rewrite Hu' in Hu; [discriminate |]. injection Hu as <-.
  exists ml, ti, pi, (length cm1 - length (table_of self))%nat, cm'.
  assert (Hpad : cm1 = Table.pad (table_of self) (length cm1 - length (table_of self))
                 /\ Table.square (table_of self)
                 /\ (length (table_of self) <= length cm1)%nat).
  { unfold table_of, state_wf in *. destruct (_cm_tensor self) as [old|]; simpl.
    - destruct Hrel as [Hle Hrel]. repeat split; [| exact Hwf | exact Hle].
      destruct (Z.geb_spec ml (Z.of_nat (length old))); [exact Hrel |].
      subst cm1. rewrite Nat.sub_diag, pad_0. reflexivity.
    - repeat split; [| constructor | lia].
      rewrite pad_nil, Nat.sub_0_r. subst cm1. unfold Table.zeros.
      rewrite length_replicate. reflexivity. }
  destruct Hpad as (Hpad & Hsq0 & Hle).
  rewrite <- Hpad.
  repeat split; try assumption; lia.
Qed.

(** ** The claims about [update] *)

(** C3. An [update] that raises leaves the object, and with it the count
    table, exactly as it was before the call: the exception comes out of
    the checks of the batch, which run before the first write. *)
Theorem update_failure_is_atomic self true_y predicted_y e self' :
  reachable self -> Tensor.wf true_y -> Tensor.wf predicted_y ->
  update true_y predicted_y self = (Raise e, self') ->
  self' = self /\ class_indices true_y predicted_y self = (Raise e, self).
Proof.
  intros Hr Ht Hp Hu.
  destruct (update_run _ _ _ (reachable_state_wf _ Hr) Ht Hp)
    as [(e' & Hci & Hu')|(ml & ti & pi & cm1 & cm' & _ & _ & _ & Hu' & _)];
    rewrite Hu' in Hu; [| discriminate].
  injection Hu as <- <-. split; [reflexivity | exact Hci].
Qed.

(** C10. Once the table is allocated or enlarged, it is square and its
    dimension exceeds every true and every predicted class index of the
    batch, so each [table[true][predicted] += 1] of the loop indexes inside
    the table and the loop, hence the whole [update], runs to its end. *)
Theorem update_indexes_in_bounds self true_y predicted_y max_label ti pi self1 :
  reachable self -> Tensor.wf true_y -> Tensor.wf predicted_y ->
  class_indices true_y predicted_y self = (Return (max_label, ti, pi), self1) ->
  exists cm1 self2 self3,
    allocate_or_enlarge max_label self1 = (Return tt, self2) /\
    _cm_tensor self2 = Some cm1 /\ Table.square cm1 /\
    Forall (fun i => 0 <= i < Z.of_nat (length cm1)) ti /\
    Forall (fun i => 0 <= i < Z.of_nat (length cm1)) pi /\
    length pi = length ti /\
    count_patterns ti pi self2 = (Return tt, self3) /\
    update true_y predicted_y self = (Return tt, self3).
Proof.
  intros Hr Ht Hp Hci.
  destruct (update_run _ _ _ (reachable_state_wf _ Hr) Ht Hp)
    as [(e' & Hci' & _)|(ml & ti' & pi' & cm1 & cm' & Hci' & Hal & Hcp & Hu & Hml & Hlt & Hlp
                         & Hti & Hpi & Hsq1 & _)];
    rewrite Hci' in Hci; [discriminate |].
  injection Hci as <- <- <- <-.
  exists cm1, (with_cm self (Some cm1)), (with_cm self (Some cm')).
  repeat split; try assumption.
  - eapply Forall_impl; [exact Hti |]. simpl. intros i Hi. lia.
  - eapply Forall_impl; [exact Hpi |]. simpl. intros i Hi. lia.
Qed.

Lemma update_failure_is_atomic_witness :
  reachable (init (Some 3%nat) None) /\
  update (Tensor.Labels [0; 5]) (Tensor.Labels [0; 1]) (init (Some 3%nat) None)
    = (Raise TargetLabelTooLarge, init (Some 3%nat) None) /\
  (init (Some 3%nat) None = init (Some 3%nat) None /\
   class_indices (Tensor.Labels [0; 5]) (Tensor.Labels [0; 1]) (init (Some 3%nat) None)
     = (Raise TargetLabelTooLarge, init (Some 3%nat) None)).
Proof.
  split; [constructor |]. split; [reflexivity |].
  apply (update_failure_is_atomic (init (Some 3%nat) None)
           (Tensor.Labels [0; 5]) (Tensor.Labels [0; 1]) TargetLabelTooLarge);
    [constructor | exact I | exact I | reflexivity].
Defined.

Lemma update_indexes_in_bounds_witness :
  exists cm1 self2 self3,
    allocate_or_enlarge 1 (init None None) = (Return tt, self2) /\
    _cm_tensor self2 = Some cm1 /\ Table.square cm1 /\
    Forall (fun i => 0 <= i < Z.of_nat (length cm1)) [0; 1; 1] /\
    Forall (fun i => 0 <= i < Z.of_nat (length cm1)) [0; 1; 0] /\
    length [0; 1; 0] = length [0; 1; 1] /\
    count_patterns [0; 1; 1] [0; 1; 0] self2 = (Return tt, self3) /\
    update (Tensor.Labels [0; 1; 1]) (Tensor.Labels [0; 1; 0]) (init None None)
      = (Return tt, self3).
Proof.
  apply (update_indexes_in_bounds (init None None)
           (Tensor.Labels [0; 1; 1]) (Tensor.Labels [0; 1; 0]) 1 [0; 1; 1] [0; 1; 0]
           (init None None));
    [constructor | exact I | exact I | reflexivity].
Defined.

(** C8. The table is square before and after a successful [update] and its
    dimension does not decrease. The table the samples are counted into is
    the old table padded with [d] rows and columns of zeros ([d = 0] when
    it is large enough; a missing table pads the empty one): every cell of
    the old table keeps its coordinates and its count, every new cell
    starts at zero, and the loop then adds one to a cell per sample of
    the batch that points at it. *)
Theorem update_grows_by_zero_padding self true_y predicted_y self' :
  reachable self -> Tensor.wf true_y -> Tensor.wf predicted_y ->
  update true_y predicted_y self = (Return tt, self') ->
  exists max_label ti pi d,
    class_indices true_y predicted_y self = (Return (max_label, ti, pi), self) /\
    Table.square (table_of self) /\ Table.square (table_of self') /\
    length (table_of self') = (length (table_of self) + d)%nat /\
    count_patterns ti pi (with_cm self (Some (Table.pad (table_of self) d)))
      = (Return tt, self') /\
    (forall a b, (a < length (table_of self))%nat ->
       Table.cell (Table.pad (table_of self) d) a b = Table.cell (table_of self) a b) /\
    (forall a b, (length (table_of self) <= a)%nat \/ (length (table_of self) <= b)%nat ->
       Table.cell (Table.pad (table_of self) d) a b = 0) /\
    (forall a b,
       Table.cell (table_of self') a b
       = Nat.iter (hits (Z.of_nat a) (Z.of_nat b) ti pi) Table.incr
           (Table.cell (table_of self) a b)).
Proof.
  intros Hr Ht Hp Hu.
  destruct (update_run_pad _ _ _ (reachable_state_wf _ Hr) Ht Hp _ Hu)
    as (ml & ti & pi & d & cm' & Hci & -> & Hcp & Hsq0 & Hsq' & Hlen & _ & _ & _ & _ & _ & Hcell).
  exists ml, ti, pi, d. unfold table_of at 3 4 10. simpl.
  repeat split; try assumption.
  - intros a b Ha. apply TableFacts.cell_pad_old, Ha.
  - intros a b [Ha|Hb].
    + apply TableFacts.cell_pad_new, Ha.
    + destruct (decide (a < length (table_of self))%nat) as [Ha|Ha].
      * rewrite TableFacts.cell_pad_old by exact Ha.
        apply TableFacts.cell_outside; auto.
      * apply TableFacts.cell_pad_new. lia.
  - intros a b. rewrite Hcell. f_equal.
    destruct (decide (a < length (table_of self))%nat) as [Ha|Ha].
    + apply TableFacts.cell_pad_old, Ha.
    + rewrite TableFacts.cell_pad_new by lia. symmetry.
      apply TableFacts.cell_outside; [assumption | lia].
Qed.

Lemma reachable_after_first_batch :
  reachable {| _cm_tensor := Some [[1; 0]; [1; 1]]; _num_classes := None; normalize := None |}.
Proof.
  apply (reachable_update (init None None)
           (Tensor.Labels [0; 1; 1]) (Tensor.Labels [0; 1; 0]) (Return tt));
    [constructor | exact I | exact I | reflexivity].
Qed.

Lemma update_grows_by_zero_padding_witness :
  exists max_label ti pi d,
    class_indices (Tensor.Labels [2]) (Tensor.Labels [0])
      {| _cm_tensor := Some [[1; 0]; [1; 1]]; _num_classes := None; normalize := None |}
    = (Return (max_label, ti, pi),
       {| _cm_tensor := Some [[1; 0]; [1; 1]]; _num_classes := None; normalize := None |}) /\
    Table.square [[1; 0]; [1; 1]] /\ Table.square [[1; 0; 0]; [1; 1; 0]; [1; 0; 0]] /\
    length [[1; 0; 0]; [1; 1; 0]; [1; 0; 0]] = (length [[1; 0]; [1; 1]] + d)%nat /\
    count_patterns ti pi
      (with_cm {| _cm_tensor := Some [[1; 0]; [1; 1]]; _num_classes := None; normalize := None |}
         (Some (Table.pad [[1; 0]; [1; 1]] d)))
    = (Return tt,
       {| _cm_tensor := Some [[1; 0; 0]; [1; 1; 0]; [1; 0; 0]];
          _num_classes := None; normalize := None |}) /\
    (forall a b, (a < length [[1; 0]; [1; 1]])%nat ->
       Table.cell (Table.pad [[1; 0]; [1; 1]] d) a b = Table.cell [[1; 0]; [1; 1]] a b) /\
    (forall a b, (length [[1; 0]; [1; 1]] <= a)%nat \/ (length [[1; 0]; [1; 1]] <= b)%nat ->
       Table.cell (Table.pad [[1; 0]; [1; 1]] d) a b = 0) /\
    (forall a b,
       Table.cell [[1; 0; 0]; [1; 1; 0]; [1; 0; 0]] a b
       = Nat.iter (hits (Z.of_nat a) (Z.of_nat b) ti pi) Table.incr
           (Table.cell [[1; 0]; [1; 1]] a b)).
Proof.
  apply (update_grows_by_zero_padding
           {| _cm_tensor := Some [[1; 0]; [1; 1]]; _num_classes := None; normalize := None |}
           (Tensor.Labels [2]) (Tensor.Labels [0])
           {| _cm_tensor := Some [[1; 0; 0]; [1; 1; 0]; [1; 0; 0]];
              _num_classes := None; normalize := None |});
    [exact reachable_after_first_batch | exact I | exact I | reflexivity].
Defined.

(** One successful [update] adds the size of its batch to the sum of the
    cells, int64 permitting. *)
Lemma update_total true_y predicted_y self self' :
  state_wf self -> Tensor.wf true_y -> Tensor.wf predicted_y ->
  Table.nonneg (table_of self) ->
  Table.total (table_of self) + Z.of_nat (Tensor.len true_y) < 2 ^ 63 ->
  update true_y predicted_y self = (Return tt, self') ->
  Table.nonneg (table_of self') /\
  Table.total (table_of self') = Table.total (table_of self) + Z.of_nat (Tensor.len true_y).
Proof.
  intros Hwf Ht Hp Hnn Hlt Hu.
  destruct (update_run_pad _ _ _ Hwf Ht Hp _ Hu)
    as (ml & ti & pi & d & cm' & Hci & -> & Hcp & _ & _ & _ & _ & Hlen & _).
  apply (count_patterns_total _ _ _ _ (Table.pad (table_of self) d)) in Hcp
      as (cm'' & [= <-] & Hnn' & Htot).
  - rewrite TableFacts.total_pad, Hlen in Htot. split; assumption.
  - reflexivity.
  - apply TableFacts.nonneg_pad, Hnn.
  - rewrite TableFacts.total_pad, Hlen. exact Hlt.
Qed.

Lemma samples_cons b batches :
  samples (b :: batches) = Z.of_nat (Tensor.len (fst b)) + samples batches.
Proof. reflexivity. Qed.

Lemma samples_nonneg batches : 0 <= samples batches.
Proof. induction batches as [|b bs IH]; [reflexivity | rewrite samples_cons; lia]. Qed.

Lemma updates_total batches self self' :
  state_wf self -> Forall (fun b => Tensor.wf (fst b) /\ Tensor.wf (snd b)) batches ->
  Table.nonneg (table_of self) ->
  Table.total (table_of self) + samples batches < 2 ^ 63 ->
  updates batches self = (Return tt, self') ->
  Table.nonneg (table_of self') /\
  Table.total (table_of self') = Table.total (table_of self) + samples batches.
Proof.
  intros Hwf Hb. revert self Hwf.
  induction Hb as [|[t p] bs [Ht Hp] _ IH]; intros self Hwf Hnn Hlt Hu.
  - injection Hu as <-. split; [exact Hnn |]. simpl. lia.
  - cbn [updates] in Hu. apply bind_Return in Hu as ([] & self1 & H1 & Hu).
    rewrite samples_cons in *. simpl fst in *. simpl snd in *.
    pose proof (samples_nonneg bs).
    destruct (update_total _ _ _ _ Hwf Ht Hp Hnn ltac:(lia) H1) as [Hnn1 Ht1].
    destruct (IH self1 (update_state_wf _ _ _ _ _ Hwf Ht Hp H1) Hnn1 ltac:(lia) Hu)
      as [Hnn' Ht'].
    split; [exact Hnn' | lia].
Qed.

(** C4. After a sequence of successful [update] calls on direct labels,
    started on a fresh metric, the cells of the table sum to the number of
    samples supplied (a number of samples an int64 cell can hold). *)
Theorem cells_sum_to_number_of_samples num_classes normalization batches self' :
  updates (label_batches batches) (init num_classes normalization) = (Return tt, self') ->
  samples (label_batches batches) < 2 ^ 63 ->
  Table.total (table_of self') = samples (label_batches batches).
Proof.
  intros Hu Hlt.
  assert (Hwf : Forall (fun b => Tensor.wf (fst b) /\ Tensor.wf (snd b))
                  (label_batches batches)).
  { unfold label_batches. apply Forall_fmap, Forall_forall. intros b _. split; exact I. }
  destruct (updates_total (label_batches batches) (init num_classes normalization) self'
              I Hwf (List.Forall_nil _) Hlt Hu) as [_ Ht].
  exact Ht.
Qed.

Lemma cells_sum_to_number_of_samples_witness :
  Table.total
    (table_of {| _cm_tensor := Some [[1; 0; 0]; [1; 1; 0]; [1; 0; 0]];
                 _num_classes := None; normalize := None |})
  = samples (label_batches [([0; 1; 1], [0; 1; 0]); ([2], [0])]).
Proof.
  apply (cells_sum_to_number_of_samples None None [([0; 1; 1], [0; 1; 0]); ([2], [0])]);
    [reflexivity | reflexivity].
Defined.

(** ** Reset *)

Lemma writes_table_only_of_read_only {A} (m : M A) : read_only m -> writes_table_only m.
Proof.
  intros Hm self o self' H. apply Hm in H as ->. symmetry. apply with_cm_same.
Qed.

Lemma writes_table_only_set_cm_tensor cm : writes_table_only (set_cm_tensor cm).
Proof. intros self o self' [= _ <-]. reflexivity. Qed.

Lemma writes_table_only_bind {A B} (m : M A) (f : A -> M B) :
  writes_table_only m -> (forall a, writes_table_only (f a)) -> writes_table_only (m ≫= f).
Proof.
  intros Hm Hf self o self'. rewrite bind_run.
  destruct (m self) as [[a|e] self1] eqn:E; apply Hm in E.
  - intros H. apply Hf in H. rewrite H, E. reflexivity.
  - intros [= _ <-]. exact E.
Qed.

Lemma writes_table_only_count_patterns ti pi : writes_table_only (count_patterns ti pi).
Proof.
  revert pi. induction ti as [|t ti IH]; intros pi.
  - apply writes_table_only_of_read_only, read_only_ret.
  - destruct pi as [|p pi].
    + apply writes_table_only_of_read_only, read_only_raise.
    + cbn [count_patterns]. apply writes_table_only_bind; [| intros _; apply IH].
      unfold count_pattern.
      apply writes_table_only_bind;
        [apply writes_table_only_of_read_only, read_only_get_self |].
      intros self. destruct (_cm_tensor self) as [cm|];
        [| apply writes_table_only_of_read_only, read_only_raise].
      destruct (Table.incr_at cm t p);
        [apply writes_table_only_set_cm_tensor
        | apply writes_table_only_of_read_only, read_only_raise].
Qed.

(** [update] leaves [num_classes] and [normalize] alone, whatever it is given
    and however it ends. *)
Lemma writes_table_only_update true_y predicted_y :
  writes_table_only (update true_y predicted_y).
Proof.
  unfold update. apply writes_table_only_bind.
  - apply writes_table_only_of_read_only, read_only_class_indices.
  - intros [[ml ti] pi]. apply writes_table_only_bind.
    + unfold allocate_or_enlarge. apply writes_table_only_bind;
        [apply writes_table_only_of_read_only, read_only_get_self |].
      intros self. destruct (_cm_tensor self) as [cm|];
        [| apply writes_table_only_set_cm_tensor].
      destruct (ml >=? _);
        [apply writes_table_only_set_cm_tensor
        | apply writes_table_only_of_read_only, read_only_ret].
    + intros _. apply writes_table_only_count_patterns.
Qed.

Lemma writes_table_only_updates batches : writes_table_only (updates batches).
Proof.
  induction batches as [|[t p] bs IH].
  - apply writes_table_only_of_read_only, read_only_ret.
  - cbn [updates]. apply writes_table_only_bind; [apply writes_table_only_update |].
    intros _. exact IH.
Qed.

(** Resetting a metric that was fed a sequence of batches brings back the
    metric as it was created, so feeding the same batches again rebuilds
    the same table. *)
Theorem reset_then_replay num_classes normalization batches self1 :
  updates batches (init num_classes normalization) = (Return tt, self1) ->
  snd (reset self1) = init num_classes normalization /\
  (reset;; updates batches) self1 = (Return tt, self1).
Proof.
  intros Hu.
  assert (Hreset : snd (reset self1) = init num_classes normalization).
  { pose proof (writes_table_only_updates _ _ _ _ Hu) as ->. reflexivity. }
  split; [exact Hreset |].
  rewrite bind_run. unfold reset, set_cm_tensor in *. simpl in Hreset.
  rewrite Hreset. exact Hu.
Qed.

Lemma reset_then_replay_witness :
  snd (reset {| _cm_tensor := Some [[1; 0; 0]; [1; 1; 0]; [1; 0; 0]];
                _num_classes := None; normalize := None |})
  = init None None /\
  (reset;; updates (label_batches [([0; 1; 1], [0; 1; 0]); ([2], [0])]))
    {| _cm_tensor := Some [[1; 0; 0]; [1; 1; 0]; [1; 0; 0]];
       _num_classes := None; normalize := None |}
  = (Return tt,
     {| _cm_tensor := Some [[1; 0; 0]; [1; 1; 0]; [1; 0; 0]];
        _num_classes := None; normalize := None |}).
Proof.
  apply (reset_then_replay None None (label_batches [([0; 1; 1], [0; 1; 0]); ([2], [0])])).
  reflexivity.
Defined.

(** ** The claims about [result] *)

(** C5. On a metric that holds no table, which is the case of a fresh metric
    and of a metric just reset, [result] does not raise: it returns the
    [num_classes] x [num_classes] table of zeros when [num_classes] is
    configured and the 0 x 0 table when it is not, whatever the
    normalisation mode. *)
Theorem result_without_table_is_zeros :
  (forall n normalization,
     result (init (Some n) normalization)
     = (Return (LongTensor (Table.zeros n n)), init (Some n) normalization)) /\
  (forall normalization,
     result (init None normalization) = (Return (LongTensor []), init None normalization)) /\
  (forall self,
     result (snd (reset self))
     = (Return (LongTensor (Table.zeros (default 0%nat (_num_classes self))
                                         (default 0%nat (_num_classes self)))),
        snd (reset self))) /\
  (forall n, length (Table.zeros n n) = n /\ Table.square (Table.zeros n n) /\
             forall i j, Table.cell (Table.zeros n n) i j = 0).
Proof.
  split; [reflexivity |]. split; [reflexivity |]. split.
  - intros self. reflexivity.
  - intros n. split; [| split].
    + unfold Table.zeros. apply length_replicate.
    + apply TableFacts.square_zeros.
    + apply TableFacts.cell_zeros.
Qed.

(** C6. [result] leaves the object as it found it, so calling it twice in a
    row yields the same outcome twice; with a normalisation mode and a table,
    what it returns is a float64 tensor computed by [_normalize_cm] from the
    int64 table, which stays in the object as it was. *)
Theorem result_reads_only :
  forall self,
    snd (result self) = self /\
    result (snd (result self)) = result self /\
    (forall cm normalization,
       _cm_tensor self = Some cm -> normalize self = Some normalization ->
       _cm_tensor (snd (result self)) = Some cm /\
       fst (result self)
       = match _normalize_cm cm normalization with
         | Return m => Return (DoubleTensor m)
         | Raise e => Raise e
         end).
Proof.
  intros self.
  assert (Hsame : snd (result self) = self).
  { destruct (result self) as [o self'] eqn:E. exact (read_only_result _ _ _ E). }
  split; [exact Hsame |]. split; [rewrite Hsame; reflexivity |].
  intros cm normalization Hcm Hnorm. rewrite Hsame. split; [exact Hcm |].
  unfold result. rewrite bind_run. cbn [get_self]. rewrite Hcm, Hnorm.
  rewrite bind_run. unfold lift.
  destruct (_normalize_cm cm normalization); reflexivity.
Qed.

(** C2, as the code has it. A metric configured with a normalisation mode
    other than ['true'], ['pred'] and ['all'] makes [result] raise the
    invalid-normalisation error, at that call and leaving the object as it
    was, whenever the metric holds a table, which it does after every
    successful [update]; while it holds none, [result] returns the table of
    zeros and does not look at the mode. *)
Theorem invalid_normalization_raises_once_counted self normalization :
  normalize self = Some normalization ->
  valid_normalization normalization = false ->
  (forall cm, _cm_tensor self = Some cm -> result self = (Raise InvalidNormalization, self)) /\
  (_cm_tensor self = None ->
   exists zeros, result self = (Return (LongTensor zeros), self)) /\
  (forall true_y predicted_y self',
     reachable self -> Tensor.wf true_y -> Tensor.wf predicted_y ->
     update true_y predicted_y self = (Return tt, self') ->
     result self' = (Raise InvalidNormalization, self')).
Proof.
  intros Hnorm Hbad.
  assert (Hraise : forall s cm, normalize s = Some normalization ->
            _cm_tensor s = Some cm -> result s = (Raise InvalidNormalization, s)).
  { intros s cm Hn Hcm. unfold result. rewrite bind_run. cbn [get_self].
    rewrite Hcm, Hn, bind_run. unfold lift, _normalize_cm. rewrite Hbad. reflexivity. }
  repeat split.
  - intros cm Hcm. exact (Hraise _ _ Hnorm Hcm).
  - intros Hcm. unfold result. rewrite bind_run. cbn [get_self]. rewrite Hcm.
    eexists. reflexivity.
  - intros t p self' Hr Ht Hp Hu.
    destruct (update_run_pad _ _ _ (reachable_state_wf _ Hr) Ht Hp _ Hu)
      as (ml & ti & pi & d & cm' & _ & -> & _).
    apply (Hraise _ cm'); [exact Hnorm | reflexivity].
Qed.

(** C2, as the specification states it, fails on a metric that was never
    updated: configured with the unknown mode ["rows"], [result] returns the
    table of zeros. *)
Lemma invalid_normalization_unnoticed_before_update :
  valid_normalization "rows" = false /\
  result (init (Some 2%nat) (Some "rows"%string))
  = (Return (LongTensor [[0; 0]; [0; 0]]), init (Some 2%nat) (Some "rows"%string)).
Proof. split; reflexivity. Qed.

Lemma invalid_normalization_raises_once_counted_witness :
  (forall cm,
     _cm_tensor {| _cm_tensor := Some [[1; 0]; [1; 1]]; _num_classes := None;
                   normalize := Some "rows"%string |} = Some cm ->
     result {| _cm_tensor := Some [[1; 0]; [1; 1]]; _num_classes := None;
               normalize := Some "rows"%string |}
     = (Raise InvalidNormalization,
        {| _cm_tensor := Some [[1; 0]; [1; 1]]; _num_classes := None;
           normalize := Some "rows"%string |})) /\
  result {| _cm_tensor := Some [[1; 0]; [1; 1]]; _num_classes := None;
            normalize := Some "rows"%string |}
  = (Raise InvalidNormalization,
     {| _cm_tensor := Some [[1; 0]; [1; 1]]; _num_classes := None;
        normalize := Some "rows"%string |}).
Proof.
  pose proof (invalid_normalization_raises_once_counted
                {| _cm_tensor := Some [[1; 0]; [1; 1]]; _num_classes := None;
                   normalize := Some "rows"%string |} "rows" eq_refl eq_refl) as [H _].
  split; [exact H | exact (H _ eq_refl)].
Defined.

(** ** The range checks on direct labels *)

Lemma min_item_negative y ys :
  Exists (fun z => z < 0) (y :: ys) -> Tensor.min_item y ys < 0.
Proof.
  intros H. apply Exists_exists in H as (z & Hz & Hneg).
  pose proof (proj1 (Forall_forall _ _) (TensorFacts.min_item_le y ys) z Hz).
  simpl in *. lia.
Qed.

Lemma max_item_large n y ys :
  Exists (fun z => n <= z) (y :: ys) -> n <= Tensor.max_item y ys.
Proof.
  intros H. apply Exists_exists in H as (z & Hz & Hbig).
  pose proof (proj1 (Forall_forall _ _) (TensorFacts.max_item_ge y ys) z Hz).
  simpl in *. lia.
Qed.

Lemma min_item_nonneg y ys :
  Forall (fun z => 0 <= z) (y :: ys) -> 0 <= Tensor.min_item y ys.
Proof.
  intros H. exact (proj1 (Forall_forall _ _) H _ (TensorFacts.min_item_elem y ys)).
Qed.

Lemma max_item_small n y ys :
  Forall (fun z => z < n) (y :: ys) -> Tensor.max_item y ys < n.
Proof.
  intros H. exact (proj1 (Forall_forall _ _) H _ (TensorFacts.max_item_elem y ys)).
Qed.

(** The checks of a batch of direct labels, one after the other. *)
Lemma class_indices_labels ys ps self :
  class_indices (Tensor.Labels ys) (Tensor.Labels ps) self =
    if negb (length ys =? length ps)%nat then (Raise SizeMismatch, self)
    else
      match ps, ys with
      | [], _ | _, [] => (Raise EmptyReduction, self)
      | p :: ps', y :: ys' =>
          if Tensor.min_item p ps' <? 0 then (Raise NegativeLabel, self)
          else if match _num_classes self with
                  | Some n => Tensor.max_item p ps' >=? Z.of_nat n
                  | None => false
                  end then (Raise PredictedLabelTooLarge, self)
          else if Tensor.min_item y ys' <? 0 then (Raise NegativeLabel, self)
          else if match _num_classes self with
                  | Some n => Tensor.max_item y ys' >=? Z.of_nat n
                  | None => false
                  end then (Raise TargetLabelTooLarge, self)
          else
            let max_label :=
              match _num_classes self with
              | Some n => Z.of_nat n - 1
              | None => Z.max (Z.max (-1) (Tensor.max_item p ps')) (Tensor.max_item y ys')
              end in
            if max_label <? 0 then (Raise OnlyPositiveLabels, self)
            else (Return (max_label, ys, ps), self)
      end.
Proof.
  unfold class_indices. rewrite !bind_run. cbn [get_self Tensor.len].
  destruct (Nat.eqb_spec (length ys) (length ps)) as [Hlen|]; [| reflexivity].
  cbn [negb Tensor.ndim Nat.ltb Nat.leb]. cbv zeta.
  replace (select_valid self (initial_max_label self) (Tensor.Labels ps))
    with (Tensor.Labels ps) by (unfold select_valid; destruct (_num_classes self); reflexivity).
  replace (select_valid self (initial_max_label self) (Tensor.Labels ys))
    with (Tensor.Labels ys) by (unfold select_valid; destruct (_num_classes self); reflexivity).
  destruct ps as [|p ps']; [destruct ys; [reflexivity | discriminate] |].
  destruct ys as [|y ys']; [discriminate |].
  rewrite bind_run. unfold to_labels at 1. rewrite bind_run. cbn [get_self].
  destruct (Tensor.min_item p ps' <? 0); [reflexivity |].
  unfold initial_max_label.
  destruct (_num_classes self) as [n|] eqn:En.
  - destruct (Tensor.max_item p ps' >=? Z.of_nat n); [reflexivity |].
    cbn [mret M_ret]. rewrite bind_run. unfold to_labels at 1. rewrite bind_run.
    cbn [get_self]. rewrite En.
    destruct (Tensor.min_item y ys' <? 0); [reflexivity |].
    destruct (Tensor.max_item y ys' >=? Z.of_nat n); [reflexivity |].
    cbn [mret M_ret]. destruct (Z.of_nat n - 1 <? 0); reflexivity.
  - cbn [mret M_ret]. rewrite bind_run. unfold to_labels at 1. rewrite bind_run.
    cbn [get_self]. rewrite En.
    destruct (Tensor.min_item y ys' <? 0); [reflexivity |].
    cbn [mret M_ret]. destruct (_ <? 0); reflexivity.
Qed.

Lemma update_Raise_of_checks true_y predicted_y self e :
  class_indices true_y predicted_y self = (Raise e, self) ->
  update true_y predicted_y self = (Raise e, self).
Proof. intros H. unfold update. rewrite bind_run, H. reflexivity. Qed.

(** Two tensors of direct labels, one of them with a label out of range:
    which exception comes out. *)
Lemma labels_out_of_range_error self ys ps :
  Exists (fun y => y < 0) (ys ++ ps) \/
  (exists n, _num_classes self = Some n /\ Exists (fun y => Z.of_nat n <= y) (ys ++ ps)) ->
  exists e,
    update (Tensor.Labels ys) (Tensor.Labels ps) self = (Raise e, self) /\
    is_ValueError e = true /\
    (length ys = length ps ->
     is_range_error e = true /\
     ((forall n, _num_classes self = Some n -> Forall (fun y => y < Z.of_nat n) (ys ++ ps)) ->
      e = NegativeLabel) /\
     (Forall (fun y => 0 <= y) (ys ++ ps) ->
      e = PredictedLabelTooLarge \/ e = TargetLabelTooLarge)).
Proof.
  intros H.
  assert (Hgoal : exists e,
    class_indices (Tensor.Labels ys) (Tensor.Labels ps) self = (Raise e, self) /\
    is_ValueError e = true /\
    (length ys = length ps ->
     is_range_error e = true /\
     ((forall n, _num_classes self = Some n -> Forall (fun y => y < Z.of_nat n) (ys ++ ps)) ->
      e = NegativeLabel) /\
     (Forall (fun y => 0 <= y) (ys ++ ps) ->
      e = PredictedLabelTooLarge \/ e = TargetLabelTooLarge))).
  2:{ destruct Hgoal as (e & Hci & He). exists e. split; [| exact He].
      apply update_Raise_of_checks, Hci. }
  rewrite class_indices_labels.
  destruct (Nat.eqb_spec (length ys) (length ps)) as [Hlen|Hlen]; cbn [negb].
  2:{ exists SizeMismatch. repeat split; try reflexivity; contradiction. }
  destruct ps as [|p ps']; [destruct ys; [| discriminate] |].
  { exfalso. destruct H as [H|(n & _ & H)]; apply Exists_nil in H; exact H. }
  destruct ys as [|y ys']; [discriminate |].
  pose proof (min_item_negative p ps') as Hnp. pose proof (min_item_negative y ys') as Hny.
  pose proof (min_item_nonneg p ps') as Hpp. pose proof (min_item_nonneg y ys') as Hpy.
  destruct (Z.ltb_spec (Tensor.min_item p ps') 0) as [Hp0|Hp0].
  { exists NegativeLabel. repeat split; try reflexivity.
    intros Hall. apply Forall_app in Hall as [_ Hall]. specialize (Hpp Hall). lia. }
  destruct (_num_classes self) as [n|] eqn:En.
  - pose proof (max_item_large (Z.of_nat n) p ps') as Hlp.
    pose proof (max_item_large (Z.of_nat n) y ys') as Hly.
    pose proof (max_item_small (Z.of_nat n) p ps') as Hsp.
    pose proof (max_item_small (Z.of_nat n) y ys') as Hsy.
    destruct (Z.geb_spec (Tensor.max_item p ps') (Z.of_nat n)) as [Hp1|Hp1].
    { exists PredictedLabelTooLarge. repeat split; try reflexivity; [| auto].
      intros Hall. specialize (Hall n eq_refl). apply Forall_app in Hall as [_ Hall].
      specialize (Hsp Hall). lia. }
    destruct (Z.ltb_spec (Tensor.min_item y ys') 0) as [Hy0|Hy0].
    { exists NegativeLabel. repeat split; try reflexivity.
      intros Hall. apply Forall_app in Hall as [Hall _]. specialize (Hpy Hall). lia. }
    destruct (Z.geb_spec (Tensor.max_item y ys') (Z.of_nat n)) as [Hy1|Hy1].
    { exists TargetLabelTooLarge. repeat split; try reflexivity; [| auto].
      intros Hall. specialize (Hall n eq_refl). apply Forall_app in Hall as [Hall _].
      specialize (Hsy Hall). lia. }
    exfalso. destruct H as [H|(n' & [= <-] & H)]; apply Exists_app in H as [H|H].
    + specialize (Hny H). lia.
    + specialize (Hnp H). lia.
    + specialize (Hly H). lia.
    + specialize (Hlp H). lia.
  - destruct (Z.ltb_spec (Tensor.min_item y ys') 0) as [Hy0|Hy0].
    { exists NegativeLabel. repeat split; try reflexivity.
      intros Hall. apply Forall_app in Hall as [Hall _]. specialize (Hpy Hall). lia. }
    exfalso. destruct H as [H|(n' & [=] & _)]. apply Exists_app in H as [H|H].
    + specialize (Hny H). lia.
    + specialize (Hnp H). lia.
Qed.

(** Direct labels within range, in two non-empty tensors of the same
    length, are always accepted: [update] returns. *)
Theorem update_accepts_labels_in_range self ys ps :
  state_wf self -> ys <> [] -> length ys = length ps ->
  Forall (fun y => 0 <= y) (ys ++ ps) ->
  (forall n, _num_classes self = Some n -> Forall (fun y => y < Z.of_nat n) (ys ++ ps)) ->
  exists self', update (Tensor.Labels ys) (Tensor.Labels ps) self = (Return tt, self').
Proof.
  intros Hwf Hne Hlen Hpos Hsmall.
  destruct (update_run (Tensor.Labels ys) (Tensor.Labels ps) self Hwf I I)
    as [(e & Hci & _)|(ml & ti & pi & cm1 & cm' & _ & _ & _ & Hu & _)]; [| eauto].
  exfalso. rewrite class_indices_labels in Hci.
  rewrite Hlen, Nat.eqb_refl in Hci. cbn [negb] in Hci.
  destruct ps as [|p ps']; [destruct ys; [congruence | discriminate] |].
  destruct ys as [|y ys']; [congruence |].
  apply Forall_app in Hpos as [Hpy Hpp].
  apply min_item_nonneg in Hpy. apply min_item_nonneg in Hpp.
  destruct (Z.ltb_spec (Tensor.min_item p ps') 0); [lia |].
  destruct (Z.ltb_spec (Tensor.min_item y ys') 0); [lia |].
  pose proof (TensorFacts.min_item_le y ys') as Hmin. apply Forall_cons in Hmin as [Hmin _].
  pose proof (TensorFacts.max_item_ge y ys') as Hmax. apply Forall_cons in Hmax as [Hmax _].
  destruct (_num_classes self) as [n|].
  - specialize (Hsmall n eq_refl). apply Forall_app in Hsmall as [Hsy Hsp].
    apply max_item_small in Hsy. apply max_item_small in Hsp.
    destruct (Z.geb_spec (Tensor.max_item p ps') (Z.of_nat n)); [lia |].
    destruct (Z.geb_spec (Tensor.max_item y ys') (Z.of_nat n)); [lia |].
    cbv zeta in Hci. destruct (Z.ltb_spec (Z.of_nat n - 1) 0); [lia | discriminate].
  - cbv zeta in Hci.
    destruct (Z.ltb_spec (Z.max (Z.max (-1) (Tensor.max_item p ps')) (Tensor.max_item y ys')) 0);
      [lia | discriminate].
Qed.

Lemma update_accepts_labels_in_range_witness :
  exists self',
    update (Tensor.Labels [0; 2]) (Tensor.Labels [1; 1]) (init (Some 3%nat) None)
    = (Return tt, self').
Proof.
  apply (update_accepts_labels_in_range (init (Some 3%nat) None) [0; 2] [1; 1]).
  - exact I.
  - discriminate.
  - reflexivity.
  - repeat first [apply List.Forall_cons | apply List.Forall_nil | lia].
  - intros n [= <-]. repeat first [apply List.Forall_cons | apply List.Forall_nil | lia].
Defined.

(** A conversion that goes through has found every direct label in range. *)
Lemma to_labels_in_range too_large x max_label0 self r self' :
  to_labels too_large (select_valid self (initial_max_label self) x) max_label0 self
    = (Return r, self') ->
  ~ out_of_range self x.
Proof.
  destruct x as [ys|w rows|n extra]; [| intros _ [] | intros _ []].
  replace (select_valid self (initial_max_label self) (Tensor.Labels ys))
    with (Tensor.Labels ys) by (unfold select_valid; destruct (_num_classes self); reflexivity).
  unfold to_labels. rewrite bind_run. cbn [get_self].
  destruct ys as [|y ys]; [discriminate |].
  destruct (Z.ltb_spec (Tensor.min_item y ys) 0) as [|Hmin]; [discriminate |].
  intros H [Hneg|(n & Hn & Hbig)].
  - apply min_item_negative in Hneg. lia.
  - rewrite Hn in H.
    destruct (Z.geb_spec (Tensor.max_item y ys) (Z.of_nat n)) as [|Hmax]; [discriminate |].
    apply max_item_large in Hbig. lia.
Qed.

Lemma class_indices_in_range true_y predicted_y self r self' :
  class_indices true_y predicted_y self = (Return r, self') ->
  ~ out_of_range self true_y /\ ~ out_of_range self predicted_y.
Proof.
  unfold class_indices. rewrite bind_run. cbn [get_self].
  destruct (negb _); [discriminate |].
  destruct (2 <? Tensor.ndim true_y)%nat; [discriminate |].
  destruct (2 <? Tensor.ndim predicted_y)%nat; [discriminate |].
  cbv zeta. intros H.
  apply bind_Return in H as ([ml1 pi1] & s1 & H1 & H).
  pose proof (read_only_to_labels _ _ _ _ _ _ H1) as ->.
  apply bind_Return in H as ([ml2 ti2] & s2 & H2 & H).
  pose proof (read_only_to_labels _ _ _ _ _ _ H2) as ->.
  split; eapply to_labels_in_range; eassumption.
Qed.

(** C7. A tensor of direct labels with a negative label, or with a label
    greater than or equal to a fixed [num_classes], makes [update] raise,
    whichever of the two tensors it is and whatever the other one holds; the
    exception comes out of the checks and the object is left as it was.
    When both tensors hold direct labels the exception is a [ValueError],
    and when they also have the same length it is one of the range errors:
    the negative-label error when no label is too large, a label-too-large
    error when no label is negative. *)
Theorem update_rejects_labels_out_of_range self true_y predicted_y :
  out_of_range self true_y \/ out_of_range self predicted_y ->
  exists e,
    update true_y predicted_y self = (Raise e, self) /\
    class_indices true_y predicted_y self = (Raise e, self) /\
    forall ys ps,
      true_y = Tensor.Labels ys -> predicted_y = Tensor.Labels ps ->
      is_ValueError e = true /\
      (length ys = length ps ->
       is_range_error e = true /\
       ((forall n, _num_classes self = Some n -> Forall (fun y => y < Z.of_nat n) (ys ++ ps)) ->
        e = NegativeLabel) /\
       (Forall (fun y => 0 <= y) (ys ++ ps) ->
        e = PredictedLabelTooLarge \/ e = TargetLabelTooLarge)).
Proof.
  intros H.
  destruct (class_indices true_y predicted_y self) as [[r|e] self1] eqn:Eci.
  { apply class_indices_in_range in Eci as [Ht Hp]. tauto. }
  pose proof (read_only_class_indices _ _ _ _ _ Eci) as ->.
  exists e. split; [apply update_Raise_of_checks, Eci |]. split; [reflexivity |].
  intros ys ps -> ->.
  destruct (labels_out_of_range_error self ys ps) as (e' & Hu & He).
  - destruct H as [[H|(n & Hn & H)]|[H|(n & Hn & H)]].
    + left. apply Exists_app. left. exact H.
    + right. exists n. split; [exact Hn |]. apply Exists_app. left. exact H.
    + left. apply Exists_app. right. exact H.
    + right. exists n. split; [exact Hn |]. apply Exists_app. right. exact H.
  - rewrite (update_Raise_of_checks _ _ _ _ Eci) in Hu. injection Hu as <-. exact He.
Qed.

Lemma update_rejects_labels_out_of_range_witness :
  exists e,
    update (Tensor.Labels [0; 5]) (Tensor.Labels [0; 1]) (init (Some 3%nat) None)
      = (Raise e, init (Some 3%nat) None) /\
    class_indices (Tensor.Labels [0; 5]) (Tensor.Labels [0; 1]) (init (Some 3%nat) None)
      = (Raise e, init (Some 3%nat) None) /\
    forall ys ps,
      Tensor.Labels [0; 5] = Tensor.Labels ys -> Tensor.Labels [0; 1] = Tensor.Labels ps ->
      is_ValueError e = true /\
      (length ys = length ps ->
       is_range_error e = true /\
       ((forall n, _num_classes (init (Some 3%nat) None) = Some n ->
           Forall (fun y => y < Z.of_nat n) (ys ++ ps)) ->
        e = NegativeLabel) /\
       (Forall (fun y => 0 <= y) (ys ++ ps) ->
        e = PredictedLabelTooLarge \/ e = TargetLabelTooLarge)).
Proof.
  apply (update_rejects_labels_out_of_range (init (Some 3%nat) None)
           (Tensor.Labels [0; 5]) (Tensor.Labels [0; 1])).
  left. right. exists 3%nat. split; [reflexivity |].
  apply Exists_cons_tl, Exists_cons_hd. simpl. lia.
Defined.

(** The scenario of the specification: three classes and the targets
    [0, 5] are refused against any predictions. *)
Lemma targets_0_5_refused_with_three_classes self predicted_y :
  _num_classes self = Some 3%nat ->
  exists e, update (Tensor.Labels [0; 5]) predicted_y self = (Raise e, self).
Proof.
  intros Hn.
  destruct (class_indices (Tensor.Labels [0; 5]) predicted_y self) as [[r|e] self1] eqn:Eci.
  - apply class_indices_in_range in Eci as [Ht _]. exfalso. apply Ht.
    right. exists 3%nat. split; [exact Hn |].
    apply Exists_cons_tl, Exists_cons_hd. simpl. lia.
  - pose proof (read_only_class_indices _ _ _ _ _ Eci) as ->.
    exists e. apply update_Raise_of_checks, Eci.
Qed.

(** ** Truncation of score vectors *)

(** C1, as the code has it. With [num_classes] fixed to [n], the score
    vectors are cut to their first [n - 1] columns, one short of what the
    class documentation promises ("only the first num_classes units will be
    considered"). With three classes and the scores [0.1, 0.2, 0.9] the
    arg-max is taken over [0.1, 0.2] and the sample is counted for class 1,
    while the largest of the first three scores is at position 2. *)
Theorem scores_truncated_one_column_short :
  (forall n normalization w rows,
     select_valid (init (Some n) normalization)
       (initial_max_label (init (Some n) normalization)) (Tensor.Scores w rows)
     = Tensor.slice_columns (Z.of_nat n - 1) w rows) /\
  Tensor.slice_columns (3 - 1) 3 [[1 # 10; 2 # 10; 9 # 10]%Q]
  = Tensor.Scores 2 [[1 # 10; 2 # 10]%Q] /\
  update (Tensor.Labels [0]) (Tensor.Scores 3 [[1 # 10; 2 # 10; 9 # 10]%Q])
    (init (Some 3%nat) None)
  = (Return tt,
     {| _cm_tensor := Some [[0; 1; 0]; [0; 0; 0]; [0; 0; 0]];
        _num_classes := Some 3%nat; normalize := None |}) /\
  Tensor.argmax (take 3 [1 # 10; 2 # 10; 9 # 10]%Q) = Some 2%nat.
Proof. repeat split. Qed.

(** ** float64 arithmetic on counts

    Counts below 2^53 convert to float64 exactly and add exactly; their
    quotient is rounded to nearest, within a relative error of 2^-53. *)

Module Float64Facts.
Import Float64.

Lemma fexp_eq e : fexp prec emax e = Z.max (e - 53) (-1074).
Proof. reflexivity. Qed.

Lemma digits_xO p : digits p~0 = digits p + 1.
Proof. unfold digits. simpl. lia. Qed.
Lemma digits_xI p : digits p~1 = digits p + 1.
Proof. unfold digits. simpl. lia. Qed.
Lemma digits_pos p : 0 < digits p.
Proof. unfold digits. lia. Qed.

Lemma digits_spec p : 2 ^ (digits p - 1) <= Z.pos p < 2 ^ digits p.
Proof.
  induction p as [p IH|p IH|].
  - rewrite digits_xI. pose proof (digits_pos p).
    replace (digits p + 1 - 1) with (Z.succ (digits p - 1)) by lia.
    replace (digits p + 1) with (Z.succ (digits p)) by lia.
    rewrite !Z.pow_succ_r by lia. lia.
  - rewrite digits_xO. pose proof (digits_pos p).
    replace (digits p + 1 - 1) with (Z.succ (digits p - 1)) by lia.
    replace (digits p + 1) with (Z.succ (digits p)) by lia.
    rewrite !Z.pow_succ_r by lia. lia.
  - unfold digits. simpl. lia.
Qed.

Lemma digits_unique p d : 2 ^ (d - 1) <= Z.pos p < 2 ^ d -> digits p = d.
Proof.
  intros [Hlo Hhi]. pose proof (digits_spec p) as [Hlo' Hhi']. pose proof (digits_pos p).
  assert (0 < d).
  { destruct d as [|d|d]; [change (2 ^ 0) with 1 in Hhi; lia | lia |].
    rewrite Z.pow_neg_r in Hhi by lia. lia. }
  destruct (Z.lt_trichotomy (digits p) d) as [Hlt|[Heq|Hgt]]; [| exact Heq |].
  - assert (2 ^ digits p <= 2 ^ (d - 1)) by (apply Z.pow_le_mono_r; lia). lia.
  - assert (2 ^ d <= 2 ^ (digits p - 1)) by (apply Z.pow_le_mono_r; lia). lia.
Qed.

Lemma digits_mul_pow2 p k :
  0 <= k -> forall q, Z.pos q = Z.pos p * 2 ^ k -> digits q = digits p + k.
Proof.
  intros Hk q Hq. apply digits_unique. rewrite Hq.
  pose proof (digits_spec p) as [Hlo Hhi]. pose proof (digits_pos p).
  replace (digits p + k - 1) with (digits p - 1 + k) by lia.
  rewrite !Z.pow_add_r by lia.
  assert (0 < 2 ^ k) by (apply Z.pow_pos_nonneg; lia). nia.
Qed.

Lemma pos_iter_xO m k : Z.pos (Pos.iter xO m k) = Z.pos m * 2 ^ Z.pos k.
Proof.
  induction k as [|k IH] using Pos.peano_ind.
  - simpl. lia.
  - rewrite Pos.iter_succ, Pos2Z.inj_succ, Z.pow_succ_r by lia.
    rewrite Pos2Z.inj_xO, IH. lia.
Qed.

(** SpecFloat.iter_pos is iteration *)
Lemma iter_pos_nat {A} (f : A -> A) p x : SpecFloat.iter_pos f p x = Nat.iter (Pos.to_nat p) f x.
Proof.
  revert x. induction p as [p IH|p IH|]; intros x; cbn [SpecFloat.iter_pos].
  - rewrite !IH, Pos2Nat.inj_xI.
    replace (S (2 * Pos.to_nat p)) with (S (Pos.to_nat p + Pos.to_nat p)) by lia.
    rewrite Nat.iter_succ_r, Nat.iter_add. reflexivity.
  - rewrite !IH, Pos2Nat.inj_xO.
    replace (2 * Pos.to_nat p)%nat with (Pos.to_nat p + Pos.to_nat p)%nat by lia.
    rewrite Nat.iter_add. reflexivity.
  - reflexivity.
Qed.

Lemma shr_1_even m : 0 <= m -> shr_1 (Build_shr_record (2 * m) false false) = Build_shr_record m false false.
Proof. intros H. destruct m as [|m|m]; [reflexivity | reflexivity | lia]. Qed.

Lemma iter_shr_1_exact k m :
  0 <= m ->
  Nat.iter k shr_1 (Build_shr_record (m * 2 ^ Z.of_nat k) false false)
  = Build_shr_record m false false.
Proof.
  intros Hm. induction k as [|k IH].
  - simpl. f_equal. lia.
  - rewrite Nat.iter_succ_r, Nat2Z.inj_succ, Z.pow_succ_r by lia.
    replace (m * (2 * 2 ^ Z.of_nat k)) with (2 * (m * 2 ^ Z.of_nat k)) by lia.
    rewrite shr_1_even by (apply Z.mul_nonneg_nonneg; [lia | apply Z.pow_nonneg; lia]).
    exact IH.
Qed.

Lemma shr_exact m e n :
  0 <= m -> 0 <= n ->
  shr (Build_shr_record (m * 2 ^ n) false false) e n = (Build_shr_record m false false, e + n).
Proof.
  intros Hm Hn. destruct n as [|p|p]; [| | lia].
  - simpl. rewrite Z.mul_1_r, Z.add_0_r. reflexivity.
  - unfold shr. rewrite iter_pos_nat.
    rewrite <- (positive_nat_Z p) at 1. rewrite iter_shr_1_exact by lia. reflexivity.
Qed.

Lemma shr_fexp_exact (M M' : positive) ez :
  53 <= digits M -> -1074 <= digits M + ez - 53 ->
  Z.pos M = Z.pos M' * 2 ^ (digits M - 53) ->
  shr_fexp prec emax (Z.pos M) ez loc_Exact
  = (Build_shr_record (Z.pos M') false false, digits M + ez - 53).
Proof.
  intros HD Hlo HM. unfold shr_fexp. rewrite fexp_eq.
  change (Zdigits2 (Z.pos M)) with (digits M).
  rewrite Z.max_l by lia.
  replace (digits M + ez - 53 - ez) with (digits M - 53) by lia.
  cbn [shr_record_of_loc]. rewrite HM at 1.
  rewrite shr_exact by lia. f_equal. lia.
Qed.

Lemma round_exact (M M' : positive) ez :
  53 <= digits M -> -1074 <= digits M + ez - 53 <= 971 ->
  Z.pos M = Z.pos M' * 2 ^ (digits M - 53) ->
  binary_round_aux prec emax false (Z.pos M) ez loc_Exact
  = S754_finite false M' (digits M + ez - 53).
Proof.
  intros HD Hrange HM. unfold binary_round_aux.
  rewrite (shr_fexp_exact M M') by (try assumption; lia).
  cbn [shr_m loc_of_shr_record round_nearest_even].
  assert (HD' : digits M' = 53).
  { pose proof (digits_mul_pow2 M' (digits M - 53) ltac:(lia) M HM). lia. }
  rewrite (shr_fexp_exact M' M') by (rewrite ?HD', ?Z.sub_diag; lia).
  cbn [shr_m]. rewrite HD'.
  replace (53 + (digits M + ez - 53) - 53) with (digits M + ez - 53) by lia.
  change (emax - prec) with 971.
  destruct (Z.leb_spec (digits M + ez - 53) 971); [reflexivity | lia].
Qed.

Lemma repr_pos x c : repr x c -> 0 < c.
Proof.
  intros (m & e & _ & _ & He & Hm).
  assert (0 < 2 ^ (- e)) by (apply Z.pow_pos_nonneg; lia). nia.
Qed.

Lemma repr_unique x y c : repr x c -> repr y c -> x = y.
Proof.
  intros (m & e & -> & Hd & He & Hm) (m' & e' & -> & Hd' & He' & Hm').
  assert (Hc : 0 < c) by (assert (0 < 2 ^ (- e)) by (apply Z.pow_pos_nonneg; lia); nia).
  destruct c as [|c|c]; try lia.
  pose proof (digits_mul_pow2 c (- e) ltac:(lia) m Hm).
  pose proof (digits_mul_pow2 c (- e') ltac:(lia) m' Hm').
  assert (e = e') by lia. subst e'. f_equal. lia.
Qed.

Lemma of_int_repr c : 0 < c < 2 ^ 53 -> repr (of_int c) c.
Proof.
  intros Hc. destruct c as [|p|p]; try lia.
  unfold of_int, binary_normalize, binary_round. rewrite fexp_eq.
  fold (digits p). pose proof (digits_spec p) as [Hlo Hhi]. pose proof (digits_pos p).
  assert (Hd : digits p <= 53).
  { destruct (Z.leb_spec (digits p) 53); [assumption |].
    assert (2 ^ 53 <= 2 ^ (digits p - 1)) by (apply Z.pow_le_mono_r; lia). lia. }
  rewrite Z.add_0_r, Z.max_l by lia.
  unfold shl_align. rewrite Z.sub_0_r.
  destruct (digits p - 53) as [|k|k] eqn:Ek; try lia.
  - rewrite (round_exact p p) by first [lia | rewrite Ek; lia].
    exists p, 0. repeat split; try lia. f_equal. lia.
  - pose proof (pos_iter_xO p k) as Hit.
    pose proof (digits_mul_pow2 p (Z.pos k) ltac:(lia) _ Hit) as Hdig.
    rewrite (round_exact _ (Pos.iter xO p k)) by (rewrite ?Hdig; try lia;
      replace (digits p + Z.pos k - 53) with 0 by lia; lia).
    exists (Pos.iter xO p k), (Z.neg k). repeat split; try lia.
    + f_equal. lia.
    + exact Hit.
Qed.

Lemma digits_ge_53 m : 2 ^ 52 <= Z.pos m -> 53 <= digits m.
Proof.
  intros H. pose proof (digits_spec m) as [_ Hhi]. pose proof (digits_pos m).
  destruct (Z.leb_spec 53 (digits m)); [assumption |].
  assert (2 ^ digits m <= 2 ^ 52) by (apply Z.pow_le_mono_r; lia). lia.
Qed.

Lemma digits_le_53 c : Z.pos c < 2 ^ 53 -> digits c <= 53.
Proof.
  intros H. pose proof (digits_spec c) as [Hlo _]. pose proof (digits_pos c).
  destruct (Z.leb_spec (digits c) 53); [assumption |].
  assert (2 ^ 53 <= 2 ^ (digits c - 1)) by (apply Z.pow_le_mono_r; lia). lia.
Qed.


(** A long mantissa that holds an integer below 2^53 rounds to that integer. *)
Lemma round_int (M : positive) ez c :
  ez <= 0 -> 0 < c < 2 ^ 53 -> Z.pos M = c * 2 ^ (- ez) -> 53 <= digits M ->
  -1074 <= ez ->
  repr (binary_round_aux prec emax false (Z.pos M) ez loc_Exact) c.
Proof.
  intros Hez Hc HM HD Hlo.
  destruct c as [|c|c]; try lia.
  pose proof (digits_mul_pow2 c (- ez) ltac:(lia) M HM) as Hdig.
  pose proof (digits_le_53 c ltac:(lia)) as Hdc. pose proof (digits_pos c).
  assert (Hpow : 0 < 2 ^ (53 - digits c)) by (apply Z.pow_pos_nonneg; lia).
  assert (HM' : Z.pos (Z.to_pos (Z.pos c * 2 ^ (53 - digits c)))
                = Z.pos c * 2 ^ (53 - digits c)) by (apply Z2Pos.id; nia).
  rewrite (round_exact M (Z.to_pos (Z.pos c * 2 ^ (53 - digits c)))); try lia.
  - eexists _, _. split; [reflexivity |].
    split; [| split; [lia |]].
    + rewrite (digits_mul_pow2 c (53 - digits c) ltac:(lia) _ HM'). lia.
    + rewrite HM'. f_equal. f_equal. lia.
  - rewrite HM', HM, <- Z.mul_assoc, <- Z.pow_add_r by lia. f_equal. f_equal. lia.
Qed.

Lemma shl_align_fst m e ez :
  ez <= e -> Z.pos (fst (shl_align m e ez)) = Z.pos m * 2 ^ (e - ez).
Proof.
  intros H. unfold shl_align.
  destruct (ez - e) as [|k|k] eqn:Ek; try lia; cbn [fst].
  - replace (e - ez) with 0 by lia. lia.
  - rewrite pos_iter_xO. f_equal. f_equal. lia.
Qed.

Lemma repr_exp_ge x c m e : x = S754_finite false m e -> repr x c -> -52 <= e.
Proof.
  intros -> (m' & e' & [= <- <-] & Hd & He & Hm).
  pose proof (digits_spec m) as [_ Hhi]. rewrite Hd in Hhi.
  destruct (Z.leb_spec (-52) e); [assumption |].
  assert (2 ^ 53 <= 2 ^ (- e)) by (apply Z.pow_le_mono_r; lia).
  assert (0 < c) by (assert (0 < 2 ^ (- e)) by (apply Z.pow_pos_nonneg; lia); nia).
  nia.
Qed.

Lemma shl_align_noop m e e' : e <= e' -> shl_align m e e' = (m, e).
Proof. intros H. unfold shl_align. destruct (e' - e) eqn:E; try reflexivity; lia. Qed.

Lemma add_repr x y a b :
  repr x a -> repr y b -> a + b < 2 ^ 53 -> repr (add x y) (a + b).
Proof.
  intros Hx Hy Hsum.
  pose proof (repr_pos _ _ Hx) as Ha. pose proof (repr_pos _ _ Hy) as Hb.
  destruct Hx as (ma & ea & -> & Hx). destruct Hy as (mb & eb & -> & Hy).
  pose proof (repr_exp_ge _ _ _ _ eq_refl (ex_intro _ ma (ex_intro _ ea (conj eq_refl Hx)))).
  pose proof (repr_exp_ge _ _ _ _ eq_refl (ex_intro _ mb (ex_intro _ eb (conj eq_refl Hy)))).
  destruct Hx as (Hda & Hea & Hma). destruct Hy as (Hdb & Heb & Hmb).
  unfold add, SFadd. cbn [cond_Zopp].
  set (ez := Z.min ea eb).
  pose proof (shl_align_fst ma ea ez ltac:(lia)) as HA.
  pose proof (shl_align_fst mb eb ez ltac:(lia)) as HB.
  set (A := fst (shl_align ma ea ez)) in *. set (B := fst (shl_align mb eb ez)) in *.
  change (Z.pos A + Z.pos B) with (Z.pos (A + B)).
  unfold binary_normalize, binary_round. rewrite fexp_eq. fold (digits (A + B)).
  pose proof (digits_spec ma) as [Hlo_a _]. rewrite Hda in Hlo_a.
  assert (Hpa : 0 < 2 ^ (ea - ez)) by (apply Z.pow_pos_nonneg; lia).
  assert (Hpb : 0 < 2 ^ (eb - ez)) by (apply Z.pow_pos_nonneg; lia).
  assert (HM : Z.pos (A + B) = (a + b) * 2 ^ (- ez)).
  { rewrite Pos2Z.inj_add, HA, HB, Hma, Hmb, <- !Z.mul_assoc, <- !Z.pow_add_r by lia.
    replace (- ea + (ea - ez)) with (- ez) by lia.
    replace (- eb + (eb - ez)) with (- ez) by lia. lia. }
  assert (HD : 53 <= digits (A + B)).
  { apply digits_ge_53. rewrite Pos2Z.inj_add, HA. simpl in Hlo_a. nia. }
  rewrite shl_align_noop by lia.
  apply round_int; try assumption; lia.
Qed.

Lemma of_int_val c : 0 <= c < 2 ^ 53 -> val (of_int c) c.
Proof.
  intros Hc. destruct (Z.eq_dec c 0) as [->|Hne].
  - left. split; reflexivity.
  - right. apply of_int_repr. lia.
Qed.

Lemma val_unique x y c : val x c -> val y c -> x = y.
Proof.
  intros [[-> ->]|Hx] [[Hc ->]|Hy]; try reflexivity.
  - apply repr_pos in Hy. lia.
  - apply repr_pos in Hx. lia.
  - exact (repr_unique _ _ _ Hx Hy).
Qed.

Lemma add_val x y a b :
  val x a -> val y b -> a + b < 2 ^ 53 -> val (add x y) (a + b).
Proof.
  intros [[-> ->]|Hx] [[-> ->]|Hy] Hsum.
  - left. split; reflexivity.
  - right. destruct Hy as (m & e & -> & Hy). simpl. exists m, e. split; [reflexivity | exact Hy].
  - right. rewrite Z.add_0_r. destruct Hx as (m & e & -> & Hx). simpl.
    exists m, e. split; [reflexivity | exact Hx].
  - right. apply add_repr; assumption.
Qed.

Lemma new_location_located d r :
  0 < d -> 0 <= r < d -> located (new_location d r) r d.
Proof.
  intros Hd Hr. unfold new_location, new_location_even, new_location_odd.
  destruct (Z.even d) eqn:Ed.
  - destruct (Z.eqb_spec r 0) as [->|Hne]; [reflexivity |].
    unfold located. destruct (Z.compare_spec (2 * r) d); lia.
  - destruct (Z.eqb_spec r 0) as [->|Hne]; [reflexivity |].
    assert (Hodd : Z.odd d = true) by (rewrite <- Z.negb_even, Ed; reflexivity).
    apply Z.odd_spec in Hodd as [k Hk].
    unfold located. destruct (Z.compare_spec (2 * r + 1) d); lia.
Qed.

Lemma loc_of_shr_record_of_loc m l : loc_of_shr_record (shr_record_of_loc m l) = l.
Proof. destruct l as [|[]]; reflexivity. Qed.

Lemma shr_m_record_of_loc m l : shr_m (shr_record_of_loc m l) = m.
Proof. destruct l as [|[]]; reflexivity. Qed.

Lemma round_nearest_even_located q l r d :
  0 < d -> 0 <= r < d -> located l r d ->
  (round_nearest_even q l = q \/ round_nearest_even q l = q + 1) /\
  2 * Z.abs (round_nearest_even q l * d - (q * d + r)) <= d.
Proof.
  intros Hd Hr Hl. destruct l as [|[]]; unfold located, round_nearest_even in *.
  - split; [left; reflexivity | lia].
  - destruct (Z.even q); split; auto; lia.
  - split; [left; reflexivity | lia].
  - split; [right; reflexivity | lia].
Qed.

Lemma shr_1_located (q : positive) l r d :
  0 < d -> 0 <= r < d -> located l r d ->
  exists h b, Z.pos q = 2 * h + b /\ (b = 0 \/ b = 1) /\ 0 <= h /\
    shr_m (shr_1 (shr_record_of_loc (Z.pos q) l)) = h /\
    0 <= r + b * d < 2 * d /\
    located (loc_of_shr_record (shr_1 (shr_record_of_loc (Z.pos q) l))) (r + b * d) (2 * d).
Proof.
  intros Hd Hr Hl.
  destruct q as [p|p|].
  - exists (Z.pos p), 1.
    destruct l as [|[]]; unfold located in *; cbn [shr_record_of_loc shr_1 shr_m loc_of_shr_record orb];
      repeat split; lia.
  - exists (Z.pos p), 0.
    destruct l as [|[]]; unfold located in *; cbn [shr_record_of_loc shr_1 shr_m loc_of_shr_record orb];
      repeat split; lia.
  - exists 0, 1.
    destruct l as [|[]]; unfold located in *; cbn [shr_record_of_loc shr_1 shr_m loc_of_shr_record orb];
      repeat split; lia.
Qed.

(** The second shift of [binary_round_aux]: the rounded mantissa has 53
    bits, or is 2^53 and loses its last zero. *)
Lemma shr_fexp_rounded (M1 : Z) e :
  2 ^ 52 <= M1 <= 2 ^ 53 -> -1074 <= e ->
  exists M t,
    shr_fexp prec emax M1 e loc_Exact = (Build_shr_record (Z.pos M) false false, e + t) /\
    (t = 0 \/ t = 1) /\ Z.pos M * 2 ^ t = M1 /\ digits M = 53.
Proof.
  intros HM He. destruct M1 as [|p|p]; try lia.
  destruct (Z.eq_dec (Z.pos p) (2 ^ 53)) as [Heq|Hne].
  - assert (Hd : digits p = 54) by (apply digits_unique; rewrite Heq; simpl; lia).
    exists (Z.to_pos (2 ^ 52)), 1.
    rewrite (shr_fexp_exact p (Z.to_pos (2 ^ 52))) by (rewrite ?Hd, ?Heq; try lia; reflexivity).
    rewrite Hd. repeat split; try lia. f_equal. lia.
  - assert (Hd : digits p = 53) by (apply digits_unique; change (53 - 1) with 52; lia).
    exists p, 0.
    rewrite (shr_fexp_exact p p) by (rewrite ?Hd, ?Z.sub_diag, ?Z.pow_0_r; lia).
    rewrite Hd. repeat split; try lia. f_equal. lia.
Qed.

Lemma binary_round_aux_finish M1 e1 :
  2 ^ 52 <= M1 <= 2 ^ 53 -> -1074 <= e1 <= 960 ->
  exists M t,
    (let '(mrs'', e'') := shr_fexp prec emax M1 e1 loc_Exact in
     match shr_m mrs'' with
     | 0 => S754_zero false
     | Z.pos m => if e'' <=? emax - prec then S754_finite false m e'' else S754_infinity false
     | Z.neg _ => S754_nan
     end) = S754_finite false M (e1 + t) /\
    (t = 0 \/ t = 1) /\ Z.pos M * 2 ^ t = M1 /\ digits M = 53.
Proof.
  intros HM He.
  destruct (shr_fexp_rounded _ e1 HM ltac:(lia)) as (M & t & Hs & Ht & HMt & Hd).
  exists M, t. rewrite Hs. cbn [shr_m]. change (emax - prec) with 971.
  destruct (Z.leb_spec (e1 + t) 971); [| lia].
  repeat split; assumption.
Qed.

Lemma round_located (q : positive) e' l r d :
  2 ^ 52 <= Z.pos q < 2 ^ 54 -> 0 < d -> 0 <= r < d -> located l r d ->
  -1000 <= e' <= 900 ->
  exists M t,
    binary_round_aux prec emax false (Z.pos q) e' l = S754_finite false M (e' + t) /\
    0 <= t <= 2 /\ digits M = 53 /\
    2 ^ 53 * Z.abs (Z.pos M * 2 ^ t * d - (Z.pos q * d + r)) <= Z.pos q * d + r.
Proof.
  intros Hq Hd Hr Hl He.
  unfold binary_round_aux.
  destruct (Z_lt_le_dec (Z.pos q) (2 ^ 53)) as [Hlt|Hge].
  - (* 53 bits: no first shift *)
    assert (Hdig : digits q = 53) by (apply digits_unique; change (53 - 1) with 52; lia).
    assert (H1 : shr_fexp prec emax (Z.pos q) e' l = (shr_record_of_loc (Z.pos q) l, e')).
    { unfold shr_fexp. rewrite fexp_eq. change (Zdigits2 (Z.pos q)) with (digits q).
      rewrite Hdig, Z.max_l by lia. replace (53 + e' - 53 - e') with 0 by lia. reflexivity. }
    rewrite H1, shr_m_record_of_loc, loc_of_shr_record_of_loc.
    pose proof (round_nearest_even_located (Z.pos q) l r d Hd Hr Hl) as [Hrn Hb].
    destruct (binary_round_aux_finish (round_nearest_even (Z.pos q) l) e')
      as (M & t & Hres & Ht & HMt & HdM); [lia | lia |].
    exists M, t. rewrite Hres. repeat split; try lia.
    rewrite HMt. nia.
  - (* 54 bits: one first shift *)
    assert (Hdig : digits q = 54) by (apply digits_unique; change (54 - 1) with 53; lia).
    assert (H1 : shr_fexp prec emax (Z.pos q) e' l
                 = (shr_1 (shr_record_of_loc (Z.pos q) l), e' + 1)).
    { unfold shr_fexp. rewrite fexp_eq. change (Zdigits2 (Z.pos q)) with (digits q).
      rewrite Hdig, Z.max_l by lia. replace (54 + e' - 53 - e') with 1 by lia. reflexivity. }
    rewrite H1.
    destruct (shr_1_located q l r d Hd Hr Hl) as (h & b & Hqh & Hb01 & Hh & Hm & Hr' & Hl').
    rewrite Hm.
    pose proof (round_nearest_even_located h _ (r + b * d) (2 * d) ltac:(lia) Hr' Hl')
      as [Hrn Hb].
    destruct (binary_round_aux_finish
                (round_nearest_even h (loc_of_shr_record (shr_1 (shr_record_of_loc (Z.pos q) l))))
                (e' + 1))
      as (M & t & Hres & Ht & HMt & HdM); [lia | lia |].
    exists M, (1 + t). rewrite Hres. repeat split; try lia.
    + f_equal. lia.
    + rewrite Z.pow_add_r by lia. change (2 ^ 1) with 2.
      replace (Z.pos M * (2 * 2 ^ t)) with (2 * (Z.pos M * 2 ^ t)) by lia.
      rewrite HMt. nia.
Qed.

Lemma div_core_repr (m1 m2 : positive) e1 e2 :
  digits m1 = 53 -> digits m2 = 53 -> -52 <= e1 <= 0 -> -52 <= e2 <= 0 ->
  SFdiv_core_binary prec emax (Z.pos m1) e1 (Z.pos m2) e2
  = (fst (Z.div_eucl (Z.pos m1 * 2 ^ 53) (Z.pos m2)), e1 - e2 - 53,
     new_location (Z.pos m2) (snd (Z.div_eucl (Z.pos m1 * 2 ^ 53) (Z.pos m2)))).
Proof.
  intros Hd1 Hd2 He1 He2. unfold SFdiv_core_binary. cbv zeta.
  change (Zdigits2 (Z.pos m1)) with (digits m1).
  change (Zdigits2 (Z.pos m2)) with (digits m2).
  rewrite Hd1, Hd2, fexp_eq.
  replace (53 + e1 - (53 + e2)) with (e1 - e2) by lia.
  rewrite Z.max_l, Z.min_l by lia.
  replace (e1 - e2 - (e1 - e2 - 53)) with 53 by lia.
  rewrite Z.shiftl_mul_pow2 by lia.
  destruct (Z.div_eucl (Z.pos m1 * 2 ^ 53) (Z.pos m2)) as [q r]. reflexivity.
Qed.

Lemma div_repr x y c S :
  repr x c -> repr y S -> c <= S ->
  exists M K,
    div x y = S754_finite false M (- K) /\ 0 < K /\
    2 ^ 53 * Z.abs (Z.pos M * S - c * 2 ^ K) <= c * 2 ^ K.
Proof.
  intros Hx Hy HcS.
  pose proof (repr_pos _ _ Hx) as Hc. pose proof (repr_pos _ _ Hy) as HS.
  destruct Hx as (m1 & e1 & -> & Hx). destruct Hy as (m2 & e2 & -> & Hy).
  pose proof (repr_exp_ge _ _ _ _ eq_refl (ex_intro _ m1 (ex_intro _ e1 (conj eq_refl Hx)))) as Hge1.
  pose proof (repr_exp_ge _ _ _ _ eq_refl (ex_intro _ m2 (ex_intro _ e2 (conj eq_refl Hy)))) as Hge2.
  destruct Hx as (Hd1 & He1 & Hm1). destruct Hy as (Hd2 & He2 & Hm2).
  pose proof (digits_spec m1) as Hb1. rewrite Hd1 in Hb1. change (53 - 1) with 52 in Hb1.
  pose proof (digits_spec m2) as Hb2. rewrite Hd2 in Hb2. change (53 - 1) with 52 in Hb2.
  unfold div, SFdiv. cbn [xorb].
  rewrite div_core_repr by (try assumption; lia).
  pose proof (Z_div_mod (Z.pos m1 * 2 ^ 53) (Z.pos m2) ltac:(lia)) as Hdm.
  destruct (Z.div_eucl (Z.pos m1 * 2 ^ 53) (Z.pos m2)) as [q r]. cbn [fst snd].
  destruct Hdm as [Hq Hr].
  (* the quotient has 53 or 54 bits *)
  assert (Hp : 2 ^ 53 = 2 * 2 ^ 52 /\ 2 ^ 54 = 4 * 2 ^ 52 /\ 0 < 2 ^ 52) by (repeat split; reflexivity).
  destruct Hp as (Hp53 & Hp54 & Hp52).
  assert (Hqb : 2 ^ 52 <= q < 2 ^ 54).
  { rewrite Hp53 in *. rewrite Hp54. set (B := 2 ^ 52) in *. split.
    - destruct (Z_lt_le_dec q B) as [Hlt|]; [| assumption]. exfalso.
      assert (Z.pos m2 * q + r < Z.pos m2 * B) by nia.
      assert (Z.pos m2 * B < (2 * B) * B) by nia.
      assert ((2 * B) * B <= Z.pos m1 * (2 * B)) by nia. lia.
    - destruct (Z_lt_le_dec q (4 * B)) as [|Hge]; [assumption |]. exfalso.
      assert (Z.pos m2 * (4 * B) <= Z.pos m2 * q) by nia.
      assert (Z.pos m1 * (2 * B) < (2 * B) * (2 * B)) by nia.
      assert ((2 * B) * (2 * B) <= Z.pos m2 * (4 * B)) by nia. lia. }
  destruct q as [|qp|qp]; try lia.
  destruct (round_located qp (e1 - e2 - 53) (new_location (Z.pos m2) r) r (Z.pos m2))
    as (M & t & Hres & Ht & HdM & Hbound); try lia.
  { apply new_location_located; lia. }
  (* the exponent of [c] is at most that of [S] *)
  assert (He12 : e1 <= e2).
  { destruct (Z_le_gt_dec e1 e2) as [|Hgt]; [assumption |]. exfalso.
    assert (0 < 2 ^ (- e1)) by (apply Z.pow_pos_nonneg; lia).
    assert (2 * 2 ^ (- e1) <= 2 ^ (- e2)).
    { replace (- e2) with (Z.succ (- e1) + (- e2 - - e1 - 1)) by lia.
      rewrite Z.pow_add_r, Z.pow_succ_r by lia.
      assert (0 < 2 ^ (- e2 - - e1 - 1)) by (apply Z.pow_pos_nonneg; lia). nia. }
    rewrite Hp53 in *. nia. }
  exists M, (e2 - e1 + 53 - t). rewrite Hres.
  split; [f_equal; lia |]. split; [lia |].
  set (K := e2 - e1 + 53 - t) in *.
  set (P := 2 ^ (t + - e2)).
  assert (HP : 0 < P) by (apply Z.pow_pos_nonneg; lia).
  assert (HKP : 2 ^ K * P = 2 ^ (- e1) * 2 ^ 53).
  { unfold P, K. rewrite <- !Z.pow_add_r by lia. f_equal. lia. }
  assert (Htb : 2 ^ t * 2 ^ (- e2) = P).
  { unfold P. rewrite <- Z.pow_add_r by lia. reflexivity. }
  assert (Hdiff : Z.pos M * 2 ^ t * Z.pos m2 - (Z.pos qp * Z.pos m2 + r)
                  = (Z.pos M * S - c * 2 ^ K) * P).
  { rewrite (Z.mul_comm (Z.pos qp)), <- Hq, Hm1, Hm2.
    transitivity (Z.pos M * S * (2 ^ t * 2 ^ (- e2)) - c * (2 ^ (- e1) * 2 ^ 53)); [ring |].
    rewrite Htb, <- HKP. ring. }
  assert (Htot : Z.pos qp * Z.pos m2 + r = c * 2 ^ K * P).
  { rewrite (Z.mul_comm (Z.pos qp)), <- Hq, Hm1, <- Z.mul_assoc, <- HKP. ring. }
  rewrite Hdiff, Htot, Z.abs_mul, (Z.abs_eq P) in Hbound by lia.
  rewrite Z.mul_assoc in Hbound.
  apply Z.mul_le_mono_pos_r in Hbound; assumption.
Qed.

Lemma to_Q_finite_neg M K :
  0 < K -> to_Q (S754_finite false M (- K)) = (Z.pos M # Z.to_pos (2 ^ K))%Q.
Proof.
  intros HK. unfold to_Q.
  destruct (Z.leb_spec 0 (- K)); [lia |]. rewrite Z.opp_involutive. reflexivity.
Qed.

(** The quotient of two counts, [c] out of [S], is a finite float within a
    relative error of 2^-53 of [c / S]. *)
Lemma div_error c S :
  0 < c -> c <= S -> S < 2 ^ 53 ->
  finite (div (of_int c) (of_int S)) = true /\
  (Qabs (to_Q (div (of_int c) (of_int S)) - inject_Z c / inject_Z S)
   <= inject_Z c / inject_Z S * (1 # 2 ^ 53))%Q.
Proof.
  intros Hc HcS HS.
  destruct (div_repr (of_int c) (of_int S) c S) as (M & K & Hdiv & HK & Hb);
    [apply of_int_repr; lia | apply of_int_repr; lia | exact HcS |].
  rewrite Hdiv. split; [reflexivity |].
  rewrite to_Q_finite_neg by exact HK.
  assert (HD : Z.pos (Z.to_pos (2 ^ K)) = 2 ^ K).
  { apply Z2Pos.id, Z.pow_pos_nonneg; lia. }
  set (D := Z.to_pos (2 ^ K)) in *. rewrite <- HD in Hb.
  destruct S as [|s|s]; try lia.
  rewrite <- (Qmake_Qdiv c s).
  apply Qabs_Qle_condition.
  unfold Qle, Qminus, Qplus, Qopp, Qmult. cbn [Qnum Qden].
  rewrite !Pos2Z.inj_mul. change (Z.pos (2 ^ 53)) with (2 ^ 53).
  set (P := 2 ^ 53) in *. assert (0 < P) by reflexivity.
  set (X := Z.pos M * Z.pos s - c * Z.pos D) in *.
  replace (Z.pos M * Z.pos s + - c * Z.pos D) with X by (unfold X; ring).
  assert (Hs : P * Z.abs X * Z.pos s <= c * Z.pos D * Z.pos s)
    by (apply Z.mul_le_mono_nonneg_r; lia).
  split; nia.
Qed.

Lemma div_zero_l S : 0 < S < 2 ^ 53 -> div (of_int 0) (of_int S) = zero.
Proof.
  intros HS. destruct (of_int_repr S HS) as (m & e & -> & _). reflexivity.
Qed.

(** The float64 sum of counts is exact while it stays below 2^53. *)
Lemma sum_val l :
  Forall (Z.le 0) l -> Table.row_sum l < 2 ^ 53 -> val (sum l) (Table.row_sum l).
Proof.
  intros Hl Hlt. unfold sum.
  assert (Hgen : forall acc a, val acc a -> 0 <= a -> a + Table.row_sum l < 2 ^ 53 ->
            val (foldl add acc (of_int <$> l)) (a + Table.row_sum l)).
  { induction Hl as [|c l Hc Hl IH]; intros acc a Hacc Ha Hsum.
    - simpl. change (Table.row_sum []) with 0. rewrite Z.add_0_r. exact Hacc.
    - rewrite TableFacts.row_sum_cons in *.
      pose proof (TableFacts.row_sum_nonneg l Hl).
      rewrite fmap_cons. cbn [foldl]. rewrite Z.add_assoc.
      apply IH; try lia.
      apply add_val; [exact Hacc | apply of_int_val; lia | lia]. }
  specialize (Hgen zero 0 (or_introl (conj eq_refl eq_refl)) ltac:(lia) ltac:(lia)).
  rewrite Z.add_0_l in Hgen. exact Hgen.
Qed.

Lemma sum_of_int l :
  Forall (Z.le 0) l -> Table.row_sum l < 2 ^ 53 -> sum l = of_int (Table.row_sum l).
Proof.
  intros Hl Hlt. apply (val_unique _ _ (Table.row_sum l)).
  - apply sum_val; assumption.
  - apply of_int_val. pose proof (TableFacts.row_sum_nonneg l Hl). lia.
Qed.
End Float64Facts.

(** ** Row normalisation *)

Module RowNormalization.
Import Float64 Float64Facts.

Lemma nan_to_num1_finite x : finite x = true -> nan_to_num1 x = x.
Proof. destruct x; try discriminate; reflexivity. Qed.

Lemma Qsum_cons q l : Qsum (q :: l) = (q + Qsum l)%Q.
Proof. reflexivity. Qed.

Lemma zero_error (s eps : Q) : (Qabs (0 - inject_Z 0 / s) <= inject_Z 0 / s * eps)%Q.
Proof.
  assert (H : (inject_Z 0 / s == 0)%Q) by (unfold Qdiv; apply Qmult_0_l).
  rewrite H, Qmult_0_l. unfold Qle. simpl. lia.
Qed.

(** A row of counts divided by a positive total [S]: every quotient is
    finite and their exact sum is within 2^-53, relatively, of the sum of
    the counts over [S]. *)
Lemma divided_row_sum S l :
  0 < S < 2 ^ 53 -> Forall (fun c => 0 <= c <= S) l ->
  Forall (fun f => finite f = true)
    ((fun c => nan_to_num1 (div (of_int c) (of_int S))) <$> l) /\
  (Qabs (Qsum (to_Q <$> ((fun c => nan_to_num1 (div (of_int c) (of_int S))) <$> l))
         - inject_Z (Table.row_sum l) / inject_Z S)
   <= inject_Z (Table.row_sum l) / inject_Z S * (1 # 2 ^ 53))%Q.
Proof.
  intros HS Hl.
  assert (HSQ : ~ (inject_Z S == 0)%Q).
  { unfold Qeq. simpl. lia. }
  induction Hl as [|c l Hc Hl [IHf IHs]].
  - split; [constructor |]. exact (zero_error _ _).
  - rewrite !fmap_cons, Qsum_cons, TableFacts.row_sum_cons, inject_Z_plus.
    assert (Hone : finite (nan_to_num1 (div (of_int c) (of_int S))) = true /\
              (Qabs (to_Q (nan_to_num1 (div (of_int c) (of_int S))) - inject_Z c / inject_Z S)
               <= inject_Z c / inject_Z S * (1 # 2 ^ 53))%Q).
    { destruct (Z.eq_dec c 0) as [->|Hne].
      - rewrite div_zero_l by lia. split; [reflexivity |].
        exact (zero_error _ _).
      - destruct (div_error c S) as [Hf Hb]; try lia.
        rewrite (nan_to_num1_finite _ Hf). split; assumption. }
    destruct Hone as [Hf Hb].
    split; [constructor; assumption |].
    set (q := to_Q (nan_to_num1 (div (of_int c) (of_int S)))) in *.
    set (rest := Qsum (to_Q <$> ((fun c => nan_to_num1 (div (of_int c) (of_int S))) <$> l))) in *.
    set (eps := (1 # 2 ^ 53)%Q) in *.
    assert (Heq : (q + rest - (inject_Z c + inject_Z (Table.row_sum l)) / inject_Z S
                   == (q - inject_Z c / inject_Z S)
                      + (rest - inject_Z (Table.row_sum l) / inject_Z S))%Q)
      by (field; exact HSQ).
    rewrite Heq.
    eapply Qle_trans; [apply Qabs_triangle |].
    eapply Qle_trans; [apply Qplus_le_compat; [exact Hb | exact IHs] |].
    apply Qle_lteq. right. field. exact HSQ.
Qed.

Lemma zero_row (r : list Z) :
  Forall (Z.le 0) r -> Table.row_sum r = 0 -> r = replicate (length r) 0.
Proof.
  induction 1 as [|c r Hc Hr IH]; [reflexivity |].
  rewrite TableFacts.row_sum_cons. intros Hsum.
  pose proof (TableFacts.row_sum_nonneg r Hr).
  assert (c = 0) by lia. subst c.
  simpl. f_equal. apply IH. lia.
Qed.

Lemma entries_le_row_sum (r : list Z) :
  Forall (Z.le 0) r -> Forall (fun c => 0 <= c <= Table.row_sum r) r.
Proof.
  intros Hr. apply Forall_lookup. intros i c Hi. split.
  - exact (proj1 (Forall_lookup _ _) Hr i c Hi).
  - exact (TableFacts.row_sum_ge r i c Hr Hi).
Qed.

Lemma result_normalized_true self cm :
  _cm_tensor self = Some cm -> normalize self = Some "true"%string ->
  result self = (Return (DoubleTensor (nan_to_num (div_by_row_sums cm))), self).
Proof.
  intros Hcm Hnorm. unfold result. rewrite bind_run. cbn [get_self].
  rewrite Hcm, Hnorm. reflexivity.
Qed.

(** One normalised row. *)
Lemma normalized_row (r : list Z) :
  Forall (Z.le 0) r -> Table.row_sum r < 2 ^ 53 ->
  Forall (fun f => finite f = true)
    ((fun c => nan_to_num1 (div (of_int c) (sum r))) <$> r) /\
  (Table.row_sum r = 0 ->
   (fun c => nan_to_num1 (div (of_int c) (sum r))) <$> r = replicate (length r) zero) /\
  (0 < Table.row_sum r ->
   (Qabs (Qsum (to_Q <$> ((fun c => nan_to_num1 (div (of_int c) (sum r))) <$> r)) - 1)
    <= 1 # 2 ^ 53)%Q).
Proof.
  intros Hr Hlt. rewrite (sum_of_int r Hr Hlt).
  pose proof (TableFacts.row_sum_nonneg r Hr) as Hnn.
  destruct (Z.eq_dec (Table.row_sum r) 0) as [H0|Hne].
  - assert (Hfr : (fun c => nan_to_num1 (div (of_int c) (of_int (Table.row_sum r)))) <$> r
                  = replicate (length r) zero).
    { rewrite H0. rewrite (zero_row r Hr H0) at 1. rewrite fmap_replicate. reflexivity. }
    rewrite Hfr. repeat split.
    + apply Forall_replicate. reflexivity.
    + lia.
  - destruct (divided_row_sum (Table.row_sum r) r ltac:(lia) (entries_le_row_sum r Hr))
      as [Hf Hb].
    split; [exact Hf |]. split; [lia |]. intros _.
    assert (Hone : (inject_Z (Table.row_sum r) / inject_Z (Table.row_sum r) == 1)%Q).
    { apply Qmult_inv_r. unfold Qeq. simpl. lia. }
    rewrite Hone, Qmult_1_l in Hb. exact Hb.
Qed.
(** The counts of a metric fed fewer than 2^53 samples since it was
    created are non-negative and every row totals less than 2^53. *)
Lemma counted_table_bounds num_classes normalization batches self' :
  Forall (fun b => Tensor.wf (fst b) /\ Tensor.wf (snd b)) batches ->
  samples batches < 2 ^ 53 ->
  updates batches (init num_classes normalization) = (Return tt, self') ->
  Table.nonneg (table_of self') /\
  Forall (fun r => Table.row_sum r < 2 ^ 53) (table_of self').
Proof.
  intros Hwf Hlt Hu.
  destruct (updates_total batches (init num_classes normalization) self'
              I Hwf (List.Forall_nil _)) as [Hnn Htot]; [| exact Hu |].
  { change (Table.total (table_of (init num_classes normalization))) with 0.
    assert (2 ^ 53 < 2 ^ 63) by reflexivity. lia. }
  split; [exact Hnn |].
  apply Forall_lookup. intros i r Hi.
  pose proof (TableFacts.total_ge _ _ _ Hnn Hi).
  change (Table.total (table_of (init num_classes normalization))) with 0 in Htot. lia.
Qed.
End RowNormalization.

(** C9, as the code has it. With normalisation mode ['true'], on a table of
    non-negative counts whose rows each total less than 2^53, [result]
    returns the table with every cell divided, in float64, by the sum of
    its row, not-a-number replaced by zero. Every value is finite. A row
    without observation comes out all zero: its quotients are 0/0. The
    values of a row with observations sum, as exact numbers, to 1 up to
    the rounding of the divisions: the sum is within 2^-53 of 1. *)
Theorem row_normalization_sums_to_one_within_rounding self cm :
  _cm_tensor self = Some cm -> normalize self = Some "true"%string ->
  Table.nonneg cm -> Forall (fun r => Table.row_sum r < 2 ^ 53) cm ->
  exists m,
    result self = (Return (DoubleTensor m), self) /\
    Forall2 (fun r fr =>
       fr = (fun c => Float64.nan_to_num1
                        (Float64.div (Float64.of_int c) (Float64.sum r))) <$> r /\
       Forall (fun f => Float64.finite f = true) fr /\
       (Table.row_sum r = 0 -> fr = replicate (length r) Float64.zero) /\
       (0 < Table.row_sum r ->
        (Qabs (Float64.Qsum (Float64.to_Q <$> fr) - 1) <= 1 # 2 ^ 53)%Q)) cm m.
Proof.
  intros Hcm Hnorm Hnn Hlt.
  exists (nan_to_num (div_by_row_sums cm)).
  split; [exact (RowNormalization.result_normalized_true _ _ Hcm Hnorm) |].
  unfold nan_to_num, div_by_row_sums, map2d.
  rewrite <- list_fmap_compose.
  apply Forall2_fmap_r, Forall_Forall2_diag, Forall_forall. intros r Hin.
  pose proof (proj1 (Forall_forall _ _) Hnn r Hin) as Hr.
  pose proof (proj1 (Forall_forall _ _) Hlt r Hin) as Hs. simpl in Hs.
  unfold compose. rewrite <- list_fmap_compose.
  split; [reflexivity |].
  exact (RowNormalization.normalized_row r Hr Hs).
Qed.

(** C9, as the specification states it, fails on the table [[1, 2], [0, 0]]:
    the first row has observations and its normalised values, the float64
    nearest to 1/3 and to 2/3, sum to 1 - 2^-54. *)
Lemma normalized_row_does_not_sum_to_one :
  exists f1 f2,
    (updates [(Tensor.Labels [0; 0; 0], Tensor.Labels [0; 1; 1])];; result)
      (init None (Some "true"%string))
    = (Return (DoubleTensor [[f1; f2]; [Float64.zero; Float64.zero]]),
       {| _cm_tensor := Some [[1; 2]; [0; 0]]; _num_classes := None;
          normalize := Some "true"%string |}) /\
    (Float64.Qsum (Float64.to_Q <$> [f1; f2]) == 1 - (1 # 2 ^ 54))%Q /\
    ~ (Float64.Qsum (Float64.to_Q <$> [f1; f2]) == 1)%Q.
Proof.
  eexists _, _. split; [vm_compute; reflexivity |].
  split; [reflexivity | discriminate].
Qed.

Lemma row_normalization_sums_to_one_within_rounding_witness :
  exists m,
    result {| _cm_tensor := Some [[1; 2]; [0; 0]]; _num_classes := None;
              normalize := Some "true"%string |}
    = (Return (DoubleTensor m),
       {| _cm_tensor := Some [[1; 2]; [0; 0]]; _num_classes := None;
          normalize := Some "true"%string |}) /\
    Forall2 (fun r fr =>
       fr = (fun c => Float64.nan_to_num1
                        (Float64.div (Float64.of_int c) (Float64.sum r))) <$> r /\
       Forall (fun f => Float64.finite f = true) fr /\
       (Table.row_sum r = 0 -> fr = replicate (length r) Float64.zero) /\
       (0 < Table.row_sum r ->
        (Qabs (Float64.Qsum (Float64.to_Q <$> fr) - 1) <= 1 # 2 ^ 53)%Q))
      [[1; 2]; [0; 0]] m.
Proof.
  apply (row_normalization_sums_to_one_within_rounding
           {| _cm_tensor := Some [[1; 2]; [0; 0]]; _num_classes := None;
              normalize := Some "true"%string |} [[1; 2]; [0; 0]]);
    [reflexivity | reflexivity | |].
  - repeat first [apply List.Forall_cons | apply List.Forall_nil | lia].
  - repeat first [apply List.Forall_cons | apply List.Forall_nil | reflexivity].
Defined.

(** * Further properties of the code *)

(** ** What a successful [update] does *)


Lemma iter_incr_small n c :
  0 <= c -> c + Z.of_nat n < 2 ^ 63 -> Nat.iter n Table.incr c = c + Z.of_nat n.
Proof.
  intros Hc. induction n as [|n IH]; intros Hlt.
  - simpl. lia.
  - rewrite Nat.iter_succ, IH by lia. rewrite TableFacts.incr_small by lia. lia.
Qed.

Lemma hits_le i j ti pi : (hits i j ti pi <= length ti)%nat.
Proof.
  revert pi. induction ti as [|t ti IH]; intros [|p pi]; cbn [hits length]; try lia.
  specialize (IH pi). destruct (bool_decide _); lia.
Qed.

(** Two square tables of the same size with the same cells are the same. *)
Lemma table_ext (cm1 cm2 : list (list Z)) :
  Table.square cm1 -> Table.square cm2 -> length cm1 = length cm2 ->
  (forall a b, Table.cell cm1 a b = Table.cell cm2 a b) -> cm1 = cm2.
Proof.
  intros Hsq1 Hsq2 Hlen Hcell.
  apply list_eq_same_length with (length cm1); [symmetry; exact Hlen | reflexivity |].
  intros i r1 r2 Hi H1 H2.
  pose proof (TableFacts.square_lookup _ _ _ Hsq1 H1) as Hl1.
  pose proof (TableFacts.square_lookup _ _ _ Hsq2 H2) as Hl2.
  apply list_eq_same_length with (length cm1); [lia | exact Hl1 |].
  intros j x y Hj Hx Hy.
  specialize (Hcell i j). unfold Table.cell in Hcell.
  rewrite H1, H2 in Hcell. simpl in Hcell. rewrite Hx, Hy in Hcell. exact Hcell.
Qed.

(** The checks of a batch look at [num_classes] and at nothing else of the
    object. *)
Lemma to_labels_with_cm too_large x max_label self cm :
  to_labels too_large x max_label (with_cm self cm)
  = (fst (to_labels too_large x max_label self), with_cm self cm).
Proof.
  unfold to_labels. rewrite !bind_run. cbn [get_self].
  change (_num_classes (with_cm self cm)) with (_num_classes self).
  destruct x as [[|y ys]|w rows|n extra]; try reflexivity.
  - destruct (Tensor.min_item y ys <? 0); [reflexivity |].
    destruct (_num_classes self) as [n|]; [| reflexivity].
    destruct (Tensor.max_item y ys >=? Z.of_nat n); reflexivity.
  - destruct (max_dim1 w rows); reflexivity.
Qed.

Lemma class_indices_with_cm true_y predicted_y self cm :
  class_indices true_y predicted_y (with_cm self cm)
  = (fst (class_indices true_y predicted_y self), with_cm self cm).
Proof.
  unfold class_indices. rewrite !bind_run. cbn [get_self].
  destruct (negb _); [reflexivity |].
  destruct (2 <? Tensor.ndim true_y)%nat; [reflexivity |].
  destruct (2 <? Tensor.ndim predicted_y)%nat; [reflexivity |].
  cbv zeta.
  change (initial_max_label (with_cm self cm)) with (initial_max_label self).
  change (select_valid (with_cm self cm)) with (select_valid self).
  rewrite !bind_run, to_labels_with_cm.
  destruct (to_labels PredictedLabelTooLarge _ _ self) as [[[ml1 pi1]|e1] s1] eqn:E1;
    [| reflexivity].
  pose proof (read_only_to_labels _ _ _ _ _ _ E1) as ->.
  cbn [fst]. rewrite !bind_run, to_labels_with_cm.
  destruct (to_labels TargetLabelTooLarge _ _ self) as [[[ml2 ti2]|e2] s2] eqn:E2;
    [| reflexivity].
  pose proof (read_only_to_labels _ _ _ _ _ _ E2) as ->.
  cbn [fst]. destruct (ml2 <? 0); reflexivity.
Qed.

(** What a successful [update] does to the object: the table becomes square
    of the size the batch asks for, and each cell is incremented once per
    sample that points at it. *)
Lemma update_effect true_y predicted_y self self' :
  state_wf self -> Tensor.wf true_y -> Tensor.wf predicted_y ->
  update true_y predicted_y self = (Return tt, self') ->
  exists max_label ti pi cm',
    class_indices true_y predicted_y self = (Return (max_label, ti, pi), self) /\
    self' = with_cm self (Some cm') /\ Table.square cm' /\
    Z.of_nat (length cm') = Z.max (Z.of_nat (length (table_of self))) (max_label + 1) /\
    length ti = Tensor.len true_y /\
    forall a b,
      Table.cell cm' a b
      = Nat.iter (hits (Z.of_nat a) (Z.of_nat b) ti pi) Table.incr
          (Table.cell (table_of self) a b).
Proof.
  intros Hwf Ht Hp Hu.
  destruct (update_run _ _ _ Hwf Ht Hp)
    as [(e & _ & Hu')|(ml & ti & pi & cm1 & cm' & Hci & Hal & Hcp & Hu' & Hml & Hlt & Hlp
                       & Hti & Hpi & Hsq1 & Hsq' & Hlen' & Hrel & Hcell)];
    rewrite Hu' in Hu; [discriminate |]. injection Hu as <-.
  exists ml, ti, pi, cm'.
  assert (Hsize : Z.of_nat (length cm1) = Z.max (Z.of_nat (length (table_of self))) (ml + 1) /\
                  forall a b, Table.cell cm1 a b = Table.cell (table_of self) a b).
  { unfold allocate_or_enlarge in Hal. rewrite bind_run in Hal. cbn [get_self] in Hal.
    unfold table_of, state_wf in *. destruct (_cm_tensor self) as [old|];
      cbn [default from_option id].
    - destruct Hrel as [Hle Hrel].
      unfold Table.shape0 in Hal.
      destruct (Z.geb_spec ml (Z.of_nat (length old))) as [Hge|Hlt'].
      + injection Hal as Hal. split.
        * rewrite <- Hal, TableFacts.length_pad. lia.
        * intros a b. rewrite Hrel.
          destruct (decide (a < length old)%nat) as [Ha|Ha].
          -- apply TableFacts.cell_pad_old, Ha.
          -- rewrite TableFacts.cell_pad_new by lia. symmetry.
             apply TableFacts.cell_outside; [assumption | lia].
      + subst cm1. split; [lia | reflexivity].
    - subst cm1. split.
      + unfold Table.zeros. rewrite length_replicate. simpl. lia.
      + intros a b. rewrite TableFacts.cell_zeros. reflexivity. }
  destruct Hsize as [Hsize Hold].
  repeat split; try assumption.
  - rewrite Hlen'. exact Hsize.
  - intros a b. rewrite Hcell, Hold. reflexivity.
Qed.

(** On an object with a square table, a batch that passes the checks is
    counted. *)
Lemma update_returns true_y predicted_y self r :
  state_wf self -> Tensor.wf true_y -> Tensor.wf predicted_y ->
  class_indices true_y predicted_y self = (Return r, self) ->
  exists self', update true_y predicted_y self = (Return tt, self').
Proof.
  intros Hwf Ht Hp Hci.
  destruct (update_run _ _ _ Hwf Ht Hp)
    as [(e & Hci' & _)|(ml & ti & pi & cm1 & cm' & _ & _ & _ & Hu & _)].
  - rewrite Hci' in Hci. discriminate.
  - eauto.
Qed.

Lemma class_indices_labels_Return ys ps self max_label ti pi self' :
  class_indices (Tensor.Labels ys) (Tensor.Labels ps) self = (Return (max_label, ti, pi), self') ->
  ti = ys /\ pi = ps.
Proof.
  rewrite class_indices_labels.
  destruct (negb _); [discriminate |].
  destruct ps as [|p ps']; [discriminate |]. destruct ys as [|y ys']; [discriminate |].
  cbv zeta.
  repeat (match goal with |- context [if ?b then _ else _] => destruct b end; try discriminate).
  intros H. inversion H. split; reflexivity.
Qed.

Lemma hits_all_cons i j b bs :
  hits_all i j (b :: bs) = (hits i j (fst b) (snd b) + hits_all i j bs)%nat.
Proof. reflexivity. Qed.

Lemma updates_cells batches : forall self self' (k : nat -> nat -> nat) N,
  state_wf self ->
  (forall a b, Table.cell (table_of self) a b = Z.of_nat (k a b)) ->
  (forall a b, (k a b <= N)%nat) ->
  Z.of_nat N + samples (label_batches batches) < 2 ^ 63 ->
  updates (label_batches batches) self = (Return tt, self') ->
  forall a b,
    Table.cell (table_of self') a b
    = Z.of_nat (k a b + hits_all (Z.of_nat a) (Z.of_nat b) batches).
Proof.
  induction batches as [|[ys ps] bs IH]; intros self self' k N Hwf Hk HN Hlt Hu a b.
  - injection Hu as <-. rewrite Hk. simpl. f_equal. lia.
  - unfold label_batches in Hu. rewrite fmap_cons in Hu. cbn [updates fst snd] in Hu.
    apply bind_Return in Hu as ([] & self1 & H1 & Hu).
    unfold label_batches in Hlt. rewrite fmap_cons, samples_cons in Hlt.
    cbn [fst Tensor.len] in Hlt. fold (label_batches bs) in Hlt, Hu.
    pose proof (samples_nonneg (label_batches bs)) as Hs.
    destruct (update_effect (Tensor.Labels ys) (Tensor.Labels ps) self self1 Hwf I I H1)
      as (ml & ti & pi & cm' & Hci & -> & Hsq' & _ & Hlen & Hcell).
    apply class_indices_labels_Return in Hci as [-> ->].
    rewrite (IH (with_cm self (Some cm')) self'
               (fun a b => (k a b + hits (Z.of_nat a) (Z.of_nat b) ys ps)%nat)
               (N + length ys)%nat Hsq'); try assumption.
    + rewrite hits_all_cons. cbn [fst snd]. f_equal. lia.
    + intros a' b'. change (table_of (with_cm self (Some cm'))) with cm'.
      rewrite Hcell, Hk.
      pose proof (hits_le (Z.of_nat a') (Z.of_nat b') ys ps). pose proof (HN a' b').
      rewrite iter_incr_small by lia. lia.
    + intros a' b'. pose proof (hits_le (Z.of_nat a') (Z.of_nat b') ys ps).
      pose proof (HN a' b'). lia.
    + lia.
Qed.

(** After a sequence of successful [update] calls on direct labels, started
    on a fresh metric, the cell in row [i] and column [j] holds the number
    of samples supplied with true class [i] and predicted class [j] (a
    number of samples an int64 cell can hold). Cells outside the table read
    as zero: no sample points there. *)
Theorem cell_counts_true_predicted_pairs num_classes normalization batches self' :
  updates (label_batches batches) (init num_classes normalization) = (Return tt, self') ->
  samples (label_batches batches) < 2 ^ 63 ->
  forall i j,
    Table.cell (table_of self') i j = Z.of_nat (hits_all (Z.of_nat i) (Z.of_nat j) batches).
Proof.
  intros Hu Hlt i j.
  rewrite (updates_cells batches (init num_classes normalization) self' (fun _ _ => 0%nat) 0%nat
             I); try assumption.
  - reflexivity.
  - intros a b. reflexivity.
  - intros a b. lia.
Qed.

Lemma cell_counts_true_predicted_pairs_witness :
  Table.cell
    (table_of {| _cm_tensor := Some [[1; 0; 0]; [1; 1; 0]; [1; 0; 0]];
                 _num_classes := None; normalize := None |}) 1 0
  = Z.of_nat (hits_all (Z.of_nat 1) (Z.of_nat 0) [([0; 1; 1], [0; 1; 0]); ([2], [0])]).
Proof.
  apply (cell_counts_true_predicted_pairs None None [([0; 1; 1], [0; 1; 0]); ([2], [0])]);
    [reflexivity | reflexivity].
Defined.

(** Whatever the batches are made of, direct labels or score vectors, after
    a sequence of successful [update] calls started on a fresh metric no
    cell is negative and the cells sum to the number of samples supplied (a
    number an int64 cell can hold): each sample is counted once. *)
Theorem cells_sum_to_samples_for_any_input num_classes normalization batches self' :
  Forall (fun b => Tensor.wf (fst b) /\ Tensor.wf (snd b)) batches ->
  updates batches (init num_classes normalization) = (Return tt, self') ->
  samples batches < 2 ^ 63 ->
  Table.nonneg (table_of self') /\ Table.total (table_of self') = samples batches.
Proof.
  intros Hwf Hu Hlt.
  exact (updates_total batches (init num_classes normalization) self'
           I Hwf (List.Forall_nil _) Hlt Hu).
Qed.

Lemma cells_sum_to_samples_for_any_input_witness :
  Table.nonneg
    (table_of {| _cm_tensor := Some [[0; 1; 0]; [0; 1; 0]; [1; 0; 0]];
                 _num_classes := None; normalize := None |}) /\
  Table.total
    (table_of {| _cm_tensor := Some [[0; 1; 0]; [0; 1; 0]; [1; 0; 0]];
                 _num_classes := None; normalize := None |})
  = samples [(Tensor.Scores 2 [[1 # 2; 1 # 3]; [0; 1]]%Q, Tensor.Labels [1; 1]);
             (Tensor.Labels [2], Tensor.Labels [0])].
Proof.
  apply (cells_sum_to_samples_for_any_input None None
           [(Tensor.Scores 2 [[1 # 2; 1 # 3]; [0; 1]]%Q, Tensor.Labels [1; 1]);
            (Tensor.Labels [2], Tensor.Labels [0])]).
  - repeat first [apply List.Forall_cons | apply List.Forall_nil | split | exact I
                 | reflexivity].
  - reflexivity.
  - reflexivity.
Defined.

(** ** The size of the table *)

Lemma to_labels_max_label too_large x max_label0 self max_label idx self' :
  to_labels too_large x max_label0 self = (Return (max_label, idx), self') ->
  max_label = match _num_classes self with
              | Some _ => max_label0
              | None => Z.max max_label0 (extent x - 1)
              end.
Proof.
  unfold to_labels. rewrite bind_run. cbn [get_self].
  destruct x as [[|y ys]|w rows|n extra]; try discriminate.
  - destruct (Tensor.min_item y ys <? 0); [discriminate |].
    destruct (_num_classes self) as [n|].
    + destruct (Tensor.max_item y ys >=? Z.of_nat n); [discriminate |].
      intros [= <- _ _]. reflexivity.
    + intros [= <- _ _]. cbn [extent]. f_equal. lia.
  - destruct (max_dim1 w rows); [| discriminate].
    intros [= <- _ _]. destruct (_num_classes self); reflexivity.
Qed.

Lemma class_indices_max_label true_y predicted_y self max_label ti pi self' :
  class_indices true_y predicted_y self = (Return (max_label, ti, pi), self') ->
  0 <= max_label /\
  max_label + 1 = match _num_classes self with
                  | Some n => Z.of_nat n
                  | None => Z.max (extent true_y) (extent predicted_y)
                  end.
Proof.
  unfold class_indices. rewrite bind_run. cbn [get_self].
  destruct (negb _); [discriminate |].
  destruct (2 <? Tensor.ndim true_y)%nat; [discriminate |].
  destruct (2 <? Tensor.ndim predicted_y)%nat; [discriminate |].
  cbv zeta. intros H.
  apply bind_Return in H as ([ml1 pi1] & s1 & H1 & H).
  pose proof (read_only_to_labels _ _ _ _ _ _ H1) as ->.
  apply bind_Return in H as ([ml2 ti2] & s2 & H2 & H).
  pose proof (read_only_to_labels _ _ _ _ _ _ H2) as ->.
  destruct (Z.ltb_spec ml2 0) as [|Hml]; [discriminate |].
  injection H as <- _ _.
  apply to_labels_max_label in H1, H2.
  unfold initial_max_label, select_valid in *.
  destruct (_num_classes self) as [n|].
  - subst. split; [exact Hml | lia].
  - replace (match true_y with Tensor.Scores w rows => true_y | _ => true_y end)
      with true_y in H2 by (destruct true_y; reflexivity).
    replace (match predicted_y with Tensor.Scores w rows => predicted_y | _ => predicted_y end)
      with predicted_y in H1 by (destruct predicted_y; reflexivity).
    subst. split; [exact Hml | lia].
Qed.

(** Without a fixed [num_classes], a successful [update] leaves a square
    table whose side is the larger of the side it had (zero without a
    table) and the number of classes the batch shows: one more than its
    largest direct label, or the width of its score vectors, whether or not
    a sample is counted for the last of them. *)
Theorem table_size_follows_largest_class self true_y predicted_y self' :
  state_wf self -> Tensor.wf true_y -> Tensor.wf predicted_y ->
  _num_classes self = None ->
  update true_y predicted_y self = (Return tt, self') ->
  Table.square (table_of self') /\
  Z.of_nat (length (table_of self'))
  = Z.max (Z.of_nat (length (table_of self))) (Z.max (extent true_y) (extent predicted_y)).
Proof.
  intros Hwf Ht Hp Hnc Hu.
  destruct (update_effect _ _ _ _ Hwf Ht Hp Hu)
    as (ml & ti & pi & cm' & Hci & -> & Hsq' & Hsize & _).
  apply class_indices_max_label in Hci as [_ Hml]. rewrite Hnc in Hml.
  change (table_of (with_cm self (Some cm'))) with cm'.
  split; [exact Hsq' |]. rewrite Hsize, Hml. reflexivity.
Qed.

Lemma table_size_follows_largest_class_witness :
  Table.square
    (table_of {| _cm_tensor := Some [[0; 0; 0; 0]; [0; 0; 0; 1]; [0; 1; 0; 0]; [0; 0; 0; 0]];
                 _num_classes := None; normalize := None |}) /\
  Z.of_nat (length
    (table_of {| _cm_tensor := Some [[0; 0; 0; 0]; [0; 0; 0; 1]; [0; 1; 0; 0]; [0; 0; 0; 0]];
                 _num_classes := None; normalize := None |}))
  = Z.max (Z.of_nat (length (table_of (init None None))))
      (Z.max (extent (Tensor.Labels [1; 2])) (extent (Tensor.Labels [3; 1]))).
Proof.
  apply (table_size_follows_largest_class (init None None)
           (Tensor.Labels [1; 2]) (Tensor.Labels [3; 1]));
    [exact I | exact I | exact I | reflexivity | reflexivity].
Defined.

Lemma fixed_size_invariant self :
  reachable self ->
  forall n cm, _num_classes self = Some n -> _cm_tensor self = Some cm ->
  (0 < n)%nat /\ length cm = n.
Proof.
  induction 1 as [nc norm | self t p o self' Hr IH Ht Hp Hu
                 | self o self' _ IH Hr | self o self' _ IH Hr]; intros n cm Hn Hcm.
  - discriminate.
  - pose proof (reachable_state_wf _ Hr) as Hwf.
    destruct (update_run _ _ _ Hwf Ht Hp)
      as [(e & _ & Hu')|(ml & ti & pi & cm1 & cm' & _ & _ & _ & Hu' & _)].
    + rewrite Hu' in Hu. injection Hu as <- <-. exact (IH n cm Hn Hcm).
    + rewrite Hu' in Hu. injection Hu as <- <-.
      destruct (update_effect _ _ _ _ Hwf Ht Hp Hu')
        as (ml' & ti' & pi' & cm'' & Hci & Heq & _ & Hsize & _).
      injection Heq as <-. injection Hcm as <-.
      change (_num_classes (with_cm self (Some cm'))) with (_num_classes self) in Hn.
      apply class_indices_max_label in Hci as [Hml0 Hml]. rewrite Hn in Hml.
      unfold table_of in Hsize.
      destruct (_cm_tensor self) as [old|] eqn:Eold; cbn [default from_option id] in Hsize.
      * destruct (IH n old Hn eq_refl). lia.
      * simpl in Hsize. lia.
  - pose proof (read_only_result _ _ _ Hr) as ->. exact (IH n cm Hn Hcm).
  - injection Hr as <- <-. discriminate.
Qed.

(** With [num_classes] fixed to [n], the table of a metric, whenever it
    has one, is [n] x [n], whatever calls of [update], [result] and [reset]
    were made on the metric, failed or not; and [n] is not zero, for no
    [update] succeeds with [num_classes = 0]. *)
Theorem fixed_num_classes_fixes_table_size self n cm :
  reachable self -> _num_classes self = Some n -> _cm_tensor self = Some cm ->
  (0 < n)%nat /\ length cm = n /\ Forall (fun row => length row = n) cm.
Proof.
  intros Hr Hn Hcm.
  destruct (fixed_size_invariant self Hr n cm Hn Hcm) as [Hpos Hlen].
  pose proof (reachable_state_wf self Hr) as Hwf.
  unfold state_wf in Hwf. rewrite Hcm in Hwf. unfold Table.square in Hwf.
  rewrite Hlen in Hwf. split; [exact Hpos |]. split; [exact Hlen | exact Hwf].
Qed.

Lemma reachable_with_three_classes :
  reachable {| _cm_tensor := Some [[0; 1; 0]; [0; 0; 0]; [0; 1; 0]];
               _num_classes := Some 3%nat; normalize := None |}.
Proof.
  apply (reachable_update (init (Some 3%nat) None)
           (Tensor.Labels [0; 2]) (Tensor.Labels [1; 1]) (Return tt));
    [constructor | exact I | exact I | reflexivity].
Qed.

Lemma fixed_num_classes_fixes_table_size_witness :
  (0 < 3)%nat /\ length [[0; 1; 0]; [0; 0; 0]; [0; 1; 0]] = 3%nat /\
  Forall (fun row : list Z => length row = 3%nat) [[0; 1; 0]; [0; 0; 0]; [0; 1; 0]].
Proof.
  apply (fixed_num_classes_fixes_table_size
           {| _cm_tensor := Some [[0; 1; 0]; [0; 0; 0]; [0; 1; 0]];
              _num_classes := Some 3%nat; normalize := None |} 3
           [[0; 1; 0]; [0; 0; 0]; [0; 1; 0]]);
    [exact reachable_with_three_classes | reflexivity | reflexivity].
Defined.

(** ** How updates compose *)

Lemma state_ext self (cm1 cm2 : list (list Z)) :
  Table.square cm1 -> Table.square cm2 ->
  Z.of_nat (length cm1) = Z.of_nat (length cm2) ->
  (forall a b, Table.cell cm1 a b = Table.cell cm2 a b) ->
  with_cm self (Some cm1) = with_cm self (Some cm2).
Proof.
  intros Hsq1 Hsq2 Hlen Hcell. f_equal. f_equal.
  apply table_ext; [assumption | assumption | lia | assumption].
Qed.

Lemma class_indices_transfer true_y predicted_y self cm r :
  class_indices true_y predicted_y (with_cm self cm) = (Return r, with_cm self cm) ->
  class_indices true_y predicted_y self = (Return r, self).
Proof.
  rewrite class_indices_with_cm. intros [= H].
  destruct (class_indices true_y predicted_y self) as [o s] eqn:E.
  pose proof (read_only_class_indices _ _ _ _ _ E) as ->.
  simpl in H. rewrite H. reflexivity.
Qed.

Lemma class_indices_transfer_to true_y predicted_y self cm r :
  class_indices true_y predicted_y self = (Return r, self) ->
  class_indices true_y predicted_y (with_cm self cm) = (Return r, with_cm self cm).
Proof. intros H. rewrite class_indices_with_cm, H. reflexivity. Qed.

(** Two successful updates in a row can be swapped. *)
Lemma update_commute t1 p1 t2 p2 self self' :
  state_wf self -> Tensor.wf t1 -> Tensor.wf p1 -> Tensor.wf t2 -> Tensor.wf p2 ->
  (update t1 p1;; update t2 p2) self = (Return tt, self') ->
  (update t2 p2;; update t1 p1) self = (Return tt, self').
Proof.
  intros Hwf Ht1 Hp1 Ht2 Hp2 H.
  apply bind_Return in H as ([] & s1 & H1 & H2).
  destruct (update_effect _ _ _ _ Hwf Ht1 Hp1 H1)
    as (ml1 & ti1 & pi1 & cm1 & Hci1 & -> & Hsq1 & Hsize1 & _ & Hcell1).
  destruct (update_effect t2 p2 (with_cm self (Some cm1)) self' Hsq1 Ht2 Hp2 H2)
    as (ml2 & ti2 & pi2 & cm12 & Hci2 & -> & Hsq12 & Hsize12 & _ & Hcell12).
  change (table_of (with_cm self (Some cm1))) with cm1 in *.
  rewrite with_cm_with_cm.
  apply class_indices_transfer in Hci2.
  destruct (update_returns _ _ _ _ Hwf Ht2 Hp2 Hci2) as (s2 & H2').
  destruct (update_effect _ _ _ _ Hwf Ht2 Hp2 H2')
    as (ml2' & ti2' & pi2' & cm2 & Hci2' & -> & Hsq2 & Hsize2 & _ & Hcell2).
  rewrite Hci2 in Hci2'. injection Hci2' as <- <- <-.
  pose proof (class_indices_transfer_to _ _ _ (Some cm2) _ Hci1) as Hci1'.
  destruct (update_returns t1 p1 (with_cm self (Some cm2)) _ Hsq2 Ht1 Hp1 Hci1') as (s21 & H1').
  destruct (update_effect t1 p1 (with_cm self (Some cm2)) s21 Hsq2 Ht1 Hp1 H1')
    as (ml1' & ti1' & pi1' & cm21 & Hci1'' & -> & Hsq21 & Hsize21 & _ & Hcell21).
  rewrite Hci1' in Hci1''. injection Hci1'' as <- <- <-.
  change (table_of (with_cm self (Some cm2))) with cm2 in *.
  rewrite with_cm_with_cm in H1'.
  rewrite bind_run, H2', H1'. f_equal.
  apply state_ext; [assumption | assumption | lia |].
  intros a b. rewrite Hcell21, Hcell2, Hcell12, Hcell1.
  rewrite <- !Nat.iter_add. f_equal. lia.
Qed.

(** The order in which batches are fed does not matter: when a sequence of
    [update] calls goes through, so does any rearrangement of it, and it
    leaves the very same object. *)
Theorem updates_order_irrelevant batches1 batches2 self self' :
  state_wf self ->
  Forall (fun b => Tensor.wf (fst b) /\ Tensor.wf (snd b)) batches1 ->
  batches1 ≡ₚ batches2 ->
  updates batches1 self = (Return tt, self') ->
  updates batches2 self = (Return tt, self').
Proof.
  intros Hwf Hb Hperm. revert self self' Hwf Hb.
  induction Hperm as [| [t p] l l' Hperm IH | [t1 p1] [t2 p2] l | l l' l'' H1 IH1 H2 IH2];
    intros self self' Hwf Hb Hu.
  - exact Hu.
  - apply Forall_cons in Hb as [[Ht Hp] Hb]. cbn [fst snd] in *.
    cbn [updates] in *. apply bind_Return in Hu as ([] & s1 & Hu1 & Hu).
    rewrite bind_run, Hu1.
    exact (IH s1 self' (update_state_wf _ _ _ _ _ Hwf Ht Hp Hu1) Hb Hu).
  - apply Forall_cons in Hb as [[Ht2 Hp2] Hb]. apply Forall_cons in Hb as [[Ht1 Hp1] Hb].
    cbn [fst snd] in *. cbn [updates] in *.
    apply bind_Return in Hu as ([] & s1 & Hu1 & Hu).
    apply bind_Return in Hu as ([] & s2 & Hu2 & Hu).
    assert (H12 : (update t2 p2;; update t1 p1) self = (Return tt, s2))
      by (rewrite bind_run, Hu1; exact Hu2).
    apply update_commute in H12; try assumption.
    apply bind_Return in H12 as ([] & s1' & Hv1 & Hv2).
    rewrite bind_run, Hv1, bind_run, Hv2. exact Hu.
  - apply (IH2 self self' Hwf); [| apply (IH1 self self' Hwf Hb Hu)].
    eapply Permutation_Forall; [exact H1 | exact Hb].
Qed.

Lemma updates_order_irrelevant_witness :
  updates [(Tensor.Labels [2], Tensor.Labels [0]);
           (Tensor.Scores 2 [[1 # 2; 1 # 3]; [0; 1]]%Q, Tensor.Labels [1; 1])]
    (init None None)
  = (Return tt, {| _cm_tensor := Some [[0; 1; 0]; [0; 1; 0]; [1; 0; 0]];
                   _num_classes := None; normalize := None |}).
Proof.
  apply (updates_order_irrelevant
           [(Tensor.Scores 2 [[1 # 2; 1 # 3]; [0; 1]]%Q, Tensor.Labels [1; 1]);
            (Tensor.Labels [2], Tensor.Labels [0])]
           [(Tensor.Labels [2], Tensor.Labels [0]);
            (Tensor.Scores 2 [[1 # 2; 1 # 3]; [0; 1]]%Q, Tensor.Labels [1; 1])]
           (init None None)).
  - exact I.
  - repeat first [apply List.Forall_cons | apply List.Forall_nil | split | exact I
                 | reflexivity].
  - apply perm_swap.
  - reflexivity.
Defined.

Lemma max_swap a b (l : list Z) : Z.max a (foldr Z.max b l) = Z.max b (foldr Z.max a l).
Proof. induction l as [|x l IH]; simpl; lia. Qed.

Lemma max_item_app y ys z zs :
  Tensor.max_item y (ys ++ z :: zs) = Z.max (Tensor.max_item y ys) (Tensor.max_item z zs).
Proof.
  unfold Tensor.max_item. induction ys as [|x ys IH].
  - simpl. apply max_swap.
  - simpl. rewrite IH. lia.
Qed.

Lemma hits_app i j t1 p1 t2 p2 :
  length t1 = length p1 ->
  hits i j (t1 ++ t2) (p1 ++ p2) = (hits i j t1 p1 + hits i j t2 p2)%nat.
Proof.
  revert p1. induction t1 as [|t t1 IH]; intros [|p p1] Hlen; try discriminate.
  - reflexivity.
  - simpl in Hlen. cbn [app hits]. rewrite IH by lia. lia.
Qed.

(** Which batches of direct labels pass the checks. *)
Lemma class_indices_labels_accepts ys ps self :
  ys <> [] -> length ys = length ps ->
  Forall (fun y => 0 <= y) (ys ++ ps) ->
  (forall n, _num_classes self = Some n -> Forall (fun y => y < Z.of_nat n) (ys ++ ps)) ->
  exists max_label,
    class_indices (Tensor.Labels ys) (Tensor.Labels ps) self = (Return (max_label, ys, ps), self).
Proof.
  intros Hne Hlen Hpos Hsmall.
  rewrite class_indices_labels.
  rewrite Hlen, Nat.eqb_refl. cbn [negb].
  destruct ps as [|p ps']; [destruct ys; [congruence | discriminate] |].
  destruct ys as [|y ys']; [congruence |].
  apply Forall_app in Hpos as [Hpy Hpp].
  apply min_item_nonneg in Hpy. apply min_item_nonneg in Hpp.
  destruct (Z.ltb_spec (Tensor.min_item p ps') 0); [lia |].
  destruct (Z.ltb_spec (Tensor.min_item y ys') 0); [lia |].
  pose proof (TensorFacts.min_item_le y ys') as Hmin. apply Forall_cons in Hmin as [Hmin _].
  pose proof (TensorFacts.max_item_ge y ys') as Hmax. apply Forall_cons in Hmax as [Hmax _].
  destruct (_num_classes self) as [n|].
  - specialize (Hsmall n eq_refl). apply Forall_app in Hsmall as [Hsy Hsp].
    apply max_item_small in Hsy. apply max_item_small in Hsp.
    destruct (Z.geb_spec (Tensor.max_item p ps') (Z.of_nat n)); [lia |].
    destruct (Z.geb_spec (Tensor.max_item y ys') (Z.of_nat n)); [lia |].
    cbv zeta. destruct (Z.ltb_spec (Z.of_nat n - 1) 0); [lia | eauto].
  - cbv zeta.
    destruct (Z.ltb_spec (Z.max (Z.max (-1) (Tensor.max_item p ps')) (Tensor.max_item y ys')) 0);
      [lia | eauto].
Qed.

Lemma min_item_nonneg_inv y ys :
  0 <= Tensor.min_item y ys -> Forall (fun z => 0 <= z) (y :: ys).
Proof.
  intros H. eapply Forall_impl; [apply TensorFacts.min_item_le |].
  simpl. intros z Hz. lia.
Qed.

Lemma max_item_small_inv n y ys :
  Tensor.max_item y ys < n -> Forall (fun z => z < n) (y :: ys).
Proof.
  intros H. eapply Forall_impl; [apply TensorFacts.max_item_ge |].
  simpl. intros z Hz. lia.
Qed.

Lemma class_indices_labels_accepted ys ps self r :
  class_indices (Tensor.Labels ys) (Tensor.Labels ps) self = (Return r, self) ->
  ys <> [] /\ length ys = length ps /\
  Forall (fun y => 0 <= y) (ys ++ ps) /\
  (forall n, _num_classes self = Some n -> Forall (fun y => y < Z.of_nat n) (ys ++ ps)).
Proof.
  rewrite class_indices_labels.
  destruct (Nat.eqb_spec (length ys) (length ps)) as [Hlen|]; [| discriminate]. cbn [negb].
  destruct ps as [|p ps']; [discriminate |]. destruct ys as [|y ys']; [discriminate |].
  destruct (Z.ltb_spec (Tensor.min_item p ps') 0) as [|Hp0]; [discriminate |].
  destruct (_num_classes self) as [n|].
  - destruct (Z.geb_spec (Tensor.max_item p ps') (Z.of_nat n)) as [|Hp1]; [discriminate |].
    destruct (Z.ltb_spec (Tensor.min_item y ys') 0) as [|Hy0]; [discriminate |].
    destruct (Z.geb_spec (Tensor.max_item y ys') (Z.of_nat n)) as [|Hy1]; [discriminate |].
    intros _. split; [discriminate |]. split; [exact Hlen |]. split.
    + apply Forall_app. split; apply min_item_nonneg_inv; assumption.
    + intros n' [= <-]. apply Forall_app. split; apply max_item_small_inv; assumption.
  - destruct (Z.ltb_spec (Tensor.min_item y ys') 0) as [|Hy0]; [discriminate |].
    intros _. split; [discriminate |]. split; [exact Hlen |]. split.
    + apply Forall_app. split; apply min_item_nonneg_inv; assumption.
    + intros n' [=].
Qed.

Lemma extent_labels_app ys1 ys2 :
  ys1 <> [] -> ys2 <> [] ->
  extent (Tensor.Labels (ys1 ++ ys2))
  = Z.max (extent (Tensor.Labels ys1)) (extent (Tensor.Labels ys2)).
Proof.
  destruct ys1 as [|y ys1]; [congruence |]. destruct ys2 as [|z ys2]; [congruence |].
  intros _ _. cbn [app extent]. rewrite max_item_app. lia.
Qed.

(** A batch of direct labels can be fed in two pieces or in one go: when
    the two [update] calls go through, the single call on the concatenated
    tensors goes through as well and leaves the very same object. *)
Theorem update_in_two_pieces self ys1 ps1 ys2 ps2 self' :
  state_wf self ->
  (update (Tensor.Labels ys1) (Tensor.Labels ps1);;
   update (Tensor.Labels ys2) (Tensor.Labels ps2)) self = (Return tt, self') ->
  update (Tensor.Labels (ys1 ++ ys2)) (Tensor.Labels (ps1 ++ ps2)) self = (Return tt, self').
Proof.
  intros Hwf H.
  apply bind_Return in H as ([] & s1 & H1 & H2).
  destruct (update_effect (Tensor.Labels ys1) (Tensor.Labels ps1) self s1 Hwf I I H1)
    as (ml1 & ti1 & pi1 & cm1 & Hci1 & -> & Hsq1 & Hsize1 & _ & Hcell1).
  destruct (update_effect (Tensor.Labels ys2) (Tensor.Labels ps2) (with_cm self (Some cm1)) self'
              Hsq1 I I H2)
    as (ml2 & ti2 & pi2 & cm12 & Hci2 & -> & Hsq12 & Hsize12 & _ & Hcell12).
  change (table_of (with_cm self (Some cm1))) with cm1 in *.
  rewrite with_cm_with_cm.
  apply class_indices_transfer in Hci2.
  destruct (class_indices_labels_Return _ _ _ _ _ _ _ Hci1) as [-> ->].
  destruct (class_indices_labels_Return _ _ _ _ _ _ _ Hci2) as [-> ->].
  destruct (class_indices_labels_accepted _ _ _ _ Hci1) as (Hne1 & Hlen1 & Hpos1 & Hsmall1).
  destruct (class_indices_labels_accepted _ _ _ _ Hci2) as (Hne2 & Hlen2 & Hpos2 & Hsmall2).
  assert (Hne2' : ps2 <> []) by (intros ->; destruct ys2; [congruence | discriminate]).
  assert (Hne1' : ps1 <> []) by (intros ->; destruct ys1; [congruence | discriminate]).
  destruct (class_indices_labels_accepts (ys1 ++ ys2) (ps1 ++ ps2) self) as (ml & Hci).
  { destruct ys1; [congruence | discriminate]. }
  { rewrite !List.length_app. lia. }
  { apply Forall_app in Hpos1 as [? ?]. apply Forall_app in Hpos2 as [? ?].
    repeat (apply Forall_app; split); assumption. }
  { intros n Hn. specialize (Hsmall1 n Hn). specialize (Hsmall2 n Hn).
    apply Forall_app in Hsmall1 as [? ?]. apply Forall_app in Hsmall2 as [? ?].
    repeat (apply Forall_app; split); assumption. }
  destruct (update_returns (Tensor.Labels (ys1 ++ ys2)) (Tensor.Labels (ps1 ++ ps2)) self _
              Hwf I I Hci) as (s & Hu).
  destruct (update_effect (Tensor.Labels (ys1 ++ ys2)) (Tensor.Labels (ps1 ++ ps2)) self s
              Hwf I I Hu)
    as (ml' & ti' & pi' & cm & Hci' & -> & Hsq & Hsize & _ & Hcell).
  rewrite Hci in Hci'. injection Hci' as <- <- <-.
  rewrite Hu. f_equal.
  apply class_indices_max_label in Hci as [_ Hml], Hci1 as [_ Hml1], Hci2 as [_ Hml2].
  apply state_ext; [assumption | assumption | |].
  - rewrite Hsize, Hsize12, Hsize1, Hml, Hml1, Hml2.
    destruct (_num_classes self); [lia |].
    rewrite !extent_labels_app by assumption. lia.
  - intros a b. rewrite Hcell, Hcell12, Hcell1, hits_app by exact Hlen1.
    rewrite <- Nat.iter_add. f_equal. lia.
Qed.

Lemma update_in_two_pieces_witness :
  update (Tensor.Labels ([0; 1] ++ [1; 2])) (Tensor.Labels ([0; 1] ++ [0; 0])) (init None None)
  = (Return tt, {| _cm_tensor := Some [[1; 0; 0]; [1; 1; 0]; [1; 0; 0]];
                   _num_classes := None; normalize := None |}).
Proof.
  apply (update_in_two_pieces (init None None) [0; 1] [0; 1] [1; 2] [0; 0]);
    [exact I | reflexivity].
Defined.

(** ** Edge cases and what the methods never do *)


(** An empty one-dimensional tensor, as the targets or as the predictions,
    makes [update] raise and leaves the object as it was. When nothing else
    is wrong with the batch (equal lengths, at most two dimensions) the
    exception is that of the tensor library reducing over no element,
    which is not one of the [ValueError]s of the metric. *)
Theorem update_refuses_empty_label_tensor self true_y predicted_y :
  true_y = Tensor.Labels [] \/ predicted_y = Tensor.Labels [] ->
  exists e,
    update true_y predicted_y self = (Raise e, self) /\
    (Tensor.len true_y = Tensor.len predicted_y ->
     (Tensor.ndim true_y <= 2)%nat -> (Tensor.ndim predicted_y <= 2)%nat ->
     e = EmptyReduction).
Proof.
  intros Hempty.
  assert (Hgoal : exists e,
    class_indices true_y predicted_y self = (Raise e, self) /\
    (Tensor.len true_y = Tensor.len predicted_y ->
     (Tensor.ndim true_y <= 2)%nat -> (Tensor.ndim predicted_y <= 2)%nat ->
     e = EmptyReduction)).
  2:{ destruct Hgoal as (e & Hci & He). exists e. split; [| exact He].
      apply update_Raise_of_checks, Hci. }
  unfold class_indices. rewrite bind_run. cbn [get_self].
  destruct (Nat.eqb_spec (Tensor.len true_y) (Tensor.len predicted_y)) as [Hlen|Hlen];
    cbn [negb]; [| eexists; split; [reflexivity | contradiction]].
  destruct (Nat.ltb_spec 2 (Tensor.ndim true_y));
    [eexists; split; [reflexivity | lia] |].
  destruct (Nat.ltb_spec 2 (Tensor.ndim predicted_y));
    [eexists; split; [reflexivity | lia] |].
  cbv zeta. rewrite bind_run.
  destruct (to_labels PredictedLabelTooLarge _ _ self) as [[[ml1 pi1]|e1] s1] eqn:E1.
  - pose proof (read_only_to_labels _ _ _ _ _ _ E1) as ->.
    rewrite bind_run.
    destruct (to_labels TargetLabelTooLarge _ _ self) as [[[ml2 ti2]|e2] s2] eqn:E2.
    + exfalso. destruct Hempty as [-> | ->].
      * unfold select_valid in E2. destruct (_num_classes self); discriminate.
      * unfold select_valid in E1. destruct (_num_classes self); discriminate.
    + pose proof (read_only_to_labels _ _ _ _ _ _ E2) as ->.
      exists e2. split; [reflexivity |]. intros _ _ _.
      destruct Hempty as [-> | ->].
      * unfold select_valid in E2. destruct (_num_classes self); injection E2 as <-; reflexivity.
      * unfold select_valid in E1. destruct (_num_classes self); discriminate.
  - pose proof (read_only_to_labels _ _ _ _ _ _ E1) as ->.
    exists e1. split; [reflexivity |]. intros _ _ _.
    destruct Hempty as [-> | ->].
    + destruct predicted_y as [[|p ps]|w rows|n extra]; simpl in *; try discriminate; try lia.
      * unfold select_valid in E1. destruct (_num_classes self); injection E1 as <-; reflexivity.
      * destruct rows; [| discriminate].
        unfold select_valid, to_labels in E1. rewrite bind_run in E1. cbn [get_self] in E1.
        destruct (_num_classes self); unfold Tensor.slice_columns in E1;
          destruct (max_dim1 _ _); try discriminate; injection E1 as <-; reflexivity.
    + unfold select_valid in E1. destruct (_num_classes self); injection E1 as <-; reflexivity.
Qed.

Lemma update_refuses_empty_label_tensor_witness :
  exists e,
    update (Tensor.Labels []) (Tensor.Labels []) (init None None)
    = (Raise e, init None None) /\
    (Tensor.len (Tensor.Labels []) = Tensor.len (Tensor.Labels []) ->
     (Tensor.ndim (Tensor.Labels []) <= 2)%nat -> (Tensor.ndim (Tensor.Labels []) <= 2)%nat ->
     e = EmptyReduction).
Proof.
  apply (update_refuses_empty_label_tensor (init None None) (Tensor.Labels []) (Tensor.Labels [])).
  left. reflexivity.
Defined.

(** No method touches the configuration: [update], however it ends, leaves
    [num_classes] and [normalize] as they are, [result] leaves the whole
    object as it is, and [reset] leaves the object as [__init__] built it. *)
Theorem methods_keep_configuration self :
  (forall true_y predicted_y,
     _num_classes (snd (update true_y predicted_y self)) = _num_classes self /\
     normalize (snd (update true_y predicted_y self)) = normalize self) /\
  snd (result self) = self /\
  snd (reset self) = init (_num_classes self) (normalize self).
Proof.
  split; [| split].
  - intros true_y predicted_y.
    destruct (update true_y predicted_y self) as [o self'] eqn:E.
    apply writes_table_only_update in E. rewrite E. split; reflexivity.
  - destruct (result self) as [o self'] eqn:E.
    exact (read_only_result _ _ _ E).
  - reflexivity.
Qed.

Lemma hits_outside i j ti pi :
  Forall (fun p => p <> j) pi -> hits i j ti pi = 0%nat.
Proof.
  intros Hpi. revert ti. induction Hpi as [|p pi Hp _ IH]; intros [|t ti]; try reflexivity.
  cbn [hits]. rewrite IH. case_bool_decide as H; [| reflexivity].
  destruct H as [_ H]. contradiction.
Qed.

Lemma class_indices_scores_fixed true_y w rows self n max_label ti pi self' :
  _num_classes self = Some n -> Tensor.wf (Tensor.Scores w rows) ->
  class_indices true_y (Tensor.Scores w rows) self = (Return (max_label, ti, pi), self') ->
  (0 < n)%nat /\ Forall (fun i => 0 <= i < Z.of_nat n - 1) pi.
Proof.
  intros Hn Hwf H.
  assert (Hpos : (0 < n)%nat).
  { apply class_indices_max_label in H as [H0 H1]. rewrite Hn in H1. lia. }
  split; [exact Hpos |].
  unfold class_indices in H. rewrite bind_run in H. cbn [get_self] in H.
  destruct (negb _); [discriminate |].
  destruct (2 <? Tensor.ndim true_y)%nat; [discriminate |].
  destruct (2 <? Tensor.ndim (Tensor.Scores w rows))%nat; [discriminate |].
  cbv zeta in H.
  apply bind_Return in H as ([ml1 pi1] & s1 & H1 & H).
  pose proof (read_only_to_labels _ _ _ _ _ _ H1) as ->.
  apply bind_Return in H as ([ml2 ti2] & s2 & H2 & H).
  destruct (ml2 <? 0); [discriminate |]. injection H as _ _ <-.
  exact (scores_never_reach_last_class _ _ _ _ _ _ _ _ _ Hn Hpos Hwf H1).
Qed.

(** With [num_classes] fixed to [n], a successful [update] whose
    predictions are score vectors changes no cell of column [n - 1]: the
    arg-max runs over the first [n - 1] scores, so no sample is ever
    counted as predicted in the last class. *)
Theorem scores_never_count_last_class self n true_y w rows self' i :
  state_wf self -> _num_classes self = Some n ->
  Tensor.wf true_y -> Tensor.wf (Tensor.Scores w rows) ->
  update true_y (Tensor.Scores w rows) self = (Return tt, self') ->
  Table.cell (table_of self') i (n - 1)%nat = Table.cell (table_of self) i (n - 1)%nat.
Proof.
  intros Hwf Hn Ht Hp Hu.
  destruct (update_effect _ _ _ _ Hwf Ht Hp Hu)
    as (ml & ti & pi & cm' & Hci & -> & _ & _ & _ & Hcell).
  change (table_of (with_cm self (Some cm'))) with cm'.
  apply (class_indices_scores_fixed _ _ _ _ _ _ _ _ _ Hn Hp) in Hci as [Hpos Hpi].
  rewrite Hcell, hits_outside; [reflexivity |].
  eapply Forall_impl; [exact Hpi |]. simpl. intros p Hlt. lia.
Qed.

Lemma scores_never_count_last_class_witness :
  Table.cell
    (table_of {| _cm_tensor := Some [[0; 1; 0]; [0; 0; 0]; [0; 0; 0]];
                 _num_classes := Some 3%nat; normalize := None |}) 0 (3 - 1)%nat
  = Table.cell (table_of (init (Some 3%nat) None)) 0 (3 - 1)%nat.
Proof.
  apply (scores_never_count_last_class (init (Some 3%nat) None) 3 (Tensor.Labels [0]) 3
           [[1 # 10; 2 # 10; 9 # 10]%Q]).
  - exact I.
  - reflexivity.
  - exact I.
  - repeat constructor.
  - reflexivity.
Defined.

(** ** Normalisation over columns and over the whole table *)

Module OtherNormalizations.
Import Float64 Float64Facts RowNormalization.

Lemma result_normalized self cm normalization m :
  _cm_tensor self = Some cm -> normalize self = Some normalization ->
  _normalize_cm cm normalization = Return m ->
  result self = (Return (DoubleTensor m), self).
Proof.
  intros Hcm Hnorm Hm. unfold result. rewrite bind_run. cbn [get_self].
  rewrite Hcm, Hnorm, bind_run. unfold lift. rewrite Hm. reflexivity.
Qed.

Lemma concat_map2d {A B} (f : A -> B) (m : list (list A)) :
  concat (map2d f m) = f <$> concat m.
Proof.
  unfold map2d. induction m as [|r m IH]; [reflexivity |].
  rewrite fmap_cons. cbn [concat]. rewrite fmap_app, IH. reflexivity.
Qed.

Lemma row_sum_concat (cm : list (list Z)) : Table.row_sum (concat cm) = Table.total cm.
Proof.
  induction cm as [|r cm IH]; [reflexivity |].
  cbn [concat]. rewrite TableFacts.row_sum_app, TableFacts.total_cons, IH. reflexivity.
Qed.

Lemma nonneg_concat (cm : list (list Z)) : Table.nonneg cm -> Forall (Z.le 0) (concat cm).
Proof. intros H. apply Forall_concat. exact H. Qed.

Lemma map2d_compose {A B C} (f : A -> B) (g : B -> C) (m : list (list A)) :
  map2d g (map2d f m) = map2d (fun x => g (f x)) m.
Proof.
  unfold map2d. rewrite <- list_fmap_compose. apply list_fmap_ext.
  intros i r _. simpl. rewrite <- list_fmap_compose. reflexivity.
Qed.

End OtherNormalizations.

(** With normalisation mode ['all'], on a table of non-negative counts that
    total less than 2^53, [result] returns every cell divided, in float64,
    by the sum of all cells, not-a-number replaced by zero. Every value is
    finite. A table without observation comes out all zero; otherwise the
    values sum, as exact numbers, to 1 within 2^-53. The object is not
    changed. *)
Theorem all_normalization_sums_to_one_within_rounding self cm :
  _cm_tensor self = Some cm -> normalize self = Some "all"%string ->
  Table.nonneg cm -> Table.total cm < 2 ^ 53 ->
  exists m,
    result self = (Return (DoubleTensor m), self) /\
    m = map2d (fun c => Float64.nan_to_num1
                          (Float64.div (Float64.of_int c) (Float64.sum (concat cm)))) cm /\
    Forall (fun f => Float64.finite f = true) (concat m) /\
    (Table.total cm = 0 -> concat m = replicate (length (concat cm)) Float64.zero) /\
    (0 < Table.total cm ->
     (Qabs (Float64.Qsum (Float64.to_Q <$> concat m) - 1) <= 1 # 2 ^ 53)%Q).
Proof.
  intros Hcm Hnorm Hnn Hlt.
  exists (nan_to_num (div_by_total cm)).
  split; [apply (OtherNormalizations.result_normalized _ _ _ _ Hcm Hnorm); reflexivity |].
  unfold nan_to_num, div_by_total. cbv zeta.
  rewrite OtherNormalizations.map2d_compose. split; [reflexivity |].
  rewrite OtherNormalizations.concat_map2d.
  rewrite <- (OtherNormalizations.row_sum_concat cm) in *.
  exact (RowNormalization.normalized_row (concat cm)
           (OtherNormalizations.nonneg_concat cm Hnn) Hlt).
Qed.

Lemma all_normalization_sums_to_one_within_rounding_witness :
  exists m,
    result {| _cm_tensor := Some [[1; 2]; [0; 0]]; _num_classes := None;
              normalize := Some "all"%string |}
    = (Return (DoubleTensor m),
       {| _cm_tensor := Some [[1; 2]; [0; 0]]; _num_classes := None;
          normalize := Some "all"%string |}) /\
    m = map2d (fun c => Float64.nan_to_num1
                          (Float64.div (Float64.of_int c)
                             (Float64.sum (concat [[1; 2]; [0; 0]])))) [[1; 2]; [0; 0]] /\
    Forall (fun f => Float64.finite f = true) (concat m) /\
    (Table.total [[1; 2]; [0; 0]] = 0 ->
     concat m = replicate (length (concat [[1; 2]; [0; 0]])) Float64.zero) /\
    (0 < Table.total [[1; 2]; [0; 0]] ->
     (Qabs (Float64.Qsum (Float64.to_Q <$> concat m) - 1) <= 1 # 2 ^ 53)%Q).
Proof.
  apply (all_normalization_sums_to_one_within_rounding
           {| _cm_tensor := Some [[1; 2]; [0; 0]]; _num_classes := None;
              normalize := Some "all"%string |} [[1; 2]; [0; 0]]).
  - reflexivity.
  - reflexivity.
  - repeat first [apply List.Forall_cons | apply List.Forall_nil | lia].
  - reflexivity.
Defined.

Lemma nonneg_column j (cm : list (list Z)) : Table.nonneg cm -> Forall (Z.le 0) (column j cm).
Proof.
  intros Hnn. unfold column. apply Forall_fmap. eapply Forall_impl; [exact Hnn |].
  intros r Hr. simpl. destruct (r !! j) as [c|] eqn:E; simpl; [| lia].
  exact (proj1 (Forall_lookup _ _) Hr j c E).
Qed.

(** Column [j] of the table divided by its column sums is column [j] of the
    table, divided by its sum. *)
Lemma float_column_div_by_column_sums (cm : list (list Z)) j :
  Table.square cm -> (j < length cm)%nat ->
  float_column j (nan_to_num (div_by_column_sums cm))
  = (fun c => Float64.nan_to_num1
                (Float64.div (Float64.of_int c) (Float64.sum (column j cm)))) <$> column j cm.
Proof.
  intros Hsq Hj. unfold float_column, nan_to_num, div_by_column_sums, map2d, column.
  cbv zeta. rewrite <- !list_fmap_compose.
  apply list_fmap_ext. intros i r Hi. unfold compose.
  pose proof (TableFacts.square_lookup _ _ _ Hsq Hi) as Hlen.
  destruct (lookup_lt_is_Some_2 r j ltac:(lia)) as [c Hc].
  rewrite list_lookup_fmap, lookup_zip_with, Hc. cbn [mbind option_bind].
  rewrite list_lookup_fmap, lookup_seq_lt by (rewrite (TableFacts.square_shape1 _ Hsq); exact Hj).
  reflexivity.
Qed.

(** With normalisation mode ['pred'], on a square table of non-negative
    counts whose columns each total less than 2^53, [result] returns every
    cell divided, in float64, by the sum of its column, not-a-number
    replaced by zero. Every value is finite. A column without observation
    comes out all zero; the values of any other column sum, as exact
    numbers, to 1 within 2^-53. The object is not changed. *)
Theorem column_normalization_sums_to_one_within_rounding self cm :
  _cm_tensor self = Some cm -> normalize self = Some "pred"%string ->
  Table.square cm -> Table.nonneg cm ->
  (forall j, Table.row_sum (column j cm) < 2 ^ 53) ->
  exists m,
    result self = (Return (DoubleTensor m), self) /\
    forall j, (j < length cm)%nat ->
      float_column j m
      = (fun c => Float64.nan_to_num1
                    (Float64.div (Float64.of_int c) (Float64.sum (column j cm)))) <$> column j cm /\
      Forall (fun f => Float64.finite f = true) (float_column j m) /\
      (Table.row_sum (column j cm) = 0 ->
       float_column j m = replicate (length cm) Float64.zero) /\
      (0 < Table.row_sum (column j cm) ->
       (Qabs (Float64.Qsum (Float64.to_Q <$> float_column j m) - 1) <= 1 # 2 ^ 53)%Q).
Proof.
  intros Hcm Hnorm Hsq Hnn Hlt.
  exists (nan_to_num (div_by_column_sums cm)).
  split; [apply (OtherNormalizations.result_normalized _ _ _ _ Hcm Hnorm); reflexivity |].
  intros j Hj. rewrite (float_column_div_by_column_sums cm j Hsq Hj).
  split; [reflexivity |].
  replace (length cm) with (length (column j cm)) by (unfold column; apply length_fmap).
  exact (RowNormalization.normalized_row (column j cm) (nonneg_column j cm Hnn) (Hlt j)).
Qed.

Lemma column_normalization_sums_to_one_within_rounding_witness :
  exists m,
    result {| _cm_tensor := Some [[1; 0]; [2; 0]]; _num_classes := None;
              normalize := Some "pred"%string |}
    = (Return (DoubleTensor m),
       {| _cm_tensor := Some [[1; 0]; [2; 0]]; _num_classes := None;
          normalize := Some "pred"%string |}) /\
    forall j, (j < length [[1; 0]; [2; 0]])%nat ->
      float_column j m
      = (fun c => Float64.nan_to_num1
                    (Float64.div (Float64.of_int c)
                       (Float64.sum (column j [[1; 0]; [2; 0]])))) <$> column j [[1; 0]; [2; 0]] /\
      Forall (fun f => Float64.finite f = true) (float_column j m) /\
      (Table.row_sum (column j [[1; 0]; [2; 0]]) = 0 ->
       float_column j m = replicate (length [[1; 0]; [2; 0]]) Float64.zero) /\
      (0 < Table.row_sum (column j [[1; 0]; [2; 0]]) ->
       (Qabs (Float64.Qsum (Float64.to_Q <$> float_column j m) - 1) <= 1 # 2 ^ 53)%Q).
Proof.
  apply (column_normalization_sums_to_one_within_rounding
           {| _cm_tensor := Some [[1; 0]; [2; 0]]; _num_classes := None;
              normalize := Some "pred"%string |} [[1; 0]; [2; 0]]).
  - reflexivity.
  - reflexivity.
  - repeat first [apply List.Forall_cons | apply List.Forall_nil | reflexivity].
  - repeat first [apply List.Forall_cons | apply List.Forall_nil | lia].
  - intros [|[|j]]; reflexivity.
Defined.

(** ** The plugin *)

Section stream_facts.
Context `{Stream.Framework}.

Lemma stream_bind_run {A B} (m : Stream.SM A) (f : A -> Stream.SM B) self :
  (m ≫= f) self = match m self with
                  | (Return a, self') => f a self'
                  | (Raise e, self') => (Raise e, self')
                  end.
Proof. reflexivity. Qed.

Lemma eval_iterations_matrix iterations : forall self,
  updates (Stream.minibatches iterations) (Stream._matrix self)
  = (fst (Stream.eval_iterations iterations self),
     Stream._matrix (snd (Stream.eval_iterations iterations self))) /\
  Stream.num_classes (snd (Stream.eval_iterations iterations self)) = Stream.num_classes self /\
  Stream.normalize (snd (Stream.eval_iterations iterations self)) = Stream.normalize self /\
  Stream._save_image (snd (Stream.eval_iterations iterations self)) = Stream._save_image self /\
  Stream._image_creator (snd (Stream.eval_iterations iterations self))
  = Stream._image_creator self.
Proof.
  induction iterations as [|strategy rest IH]; intros self.
  - repeat split.
  - unfold Stream.minibatches. rewrite fmap_cons. fold (Stream.minibatches rest).
    cbn [updates Stream.eval_iterations]. rewrite bind_run, stream_bind_run.
    unfold Stream.after_eval_iteration, Stream.update, Stream.on_matrix.
    cbn [Stream._matrix Stream.with_super].
    destruct (update (Stream.mb_y strategy) (Stream.mb_pred strategy) (Stream._matrix self))
      as [[[]|e] matrix] eqn:E.
    + specialize (IH (Stream.with_matrix
                        (Stream.with_super self
                           (Stream.super_after_eval_iteration strategy (Stream.super self)))
                        matrix)).
      exact IH.
    + repeat split.
Qed.

(** An evaluation pass, the [before_eval] callback followed by the
    [after_eval_iteration] callbacks of its minibatches, ends as feeding
    the minibatches [mb_y], [mb_pred] in order to a fresh
    [ConfusionMatrix(num_classes, normalize)] ends: with the same exception
    if one is raised, and with that metric in [_matrix]. What the plugin
    had counted before the pass plays no part. *)
Theorem evaluation_pass_counts_its_minibatches self strategy iterations :
  updates (Stream.minibatches iterations)
    (init (Stream.num_classes self) (Stream.normalize self))
  = (fst ((Stream.before_eval strategy;; Stream.eval_iterations iterations) self),
     Stream._matrix
       (snd ((Stream.before_eval strategy;; Stream.eval_iterations iterations) self))).
Proof.
  rewrite stream_bind_run. unfold Stream.before_eval, Stream.reset.
  destruct (eval_iterations_matrix iterations
              (Stream.with_matrix self
                 (init (Stream.num_classes self) (Stream.normalize self)))) as [Hm _].
  exact Hm.
Qed.

(** [after_eval] leaves the plugin as it is. It raises what [result] of the
    metric raises; otherwise it returns exactly one value, named
    ["ConfusionMatrix_Stream/<phase>_phase/<stream>_stream"], plotted at the
    global counter, which carries the result of the metric, together with
    the image made of it when [save_image] is set. *)
Theorem after_eval_reports_result self strategy :
  Stream.after_eval strategy self
  = (match fst (result (Stream._matrix self)) with
     | Return exp_cm =>
         Return
           [{| Stream.origin := self;
               Stream.name :=
                 ("ConfusionMatrix_Stream/" ++ fst (Stream.phase_and_task strategy)
                    ++ "_phase/" ++ Stream.stream_type (Stream.experience strategy)
                    ++ "_stream")%string;
               Stream.value :=
                 if Stream._save_image self
                 then Stream.AlternativeValues (Stream._image_creator self exp_cm) exp_cm
                 else Stream.TensorValue exp_cm;
               Stream.x_plot := Stream.get_global_counter (Stream.super self) |}]
     | Raise e => Raise e
     end, self).
Proof.
  unfold Stream.after_eval, Stream._package_result. rewrite stream_bind_run.
  unfold Stream.result, Stream.on_matrix.
  destruct (result (Stream._matrix self)) as [o matrix] eqn:E.
  pose proof (read_only_result _ _ _ E) as ->.
  assert (Hself : Stream.with_matrix self (Stream._matrix self) = self)
    by (destruct self; reflexivity).
  rewrite Hself. cbn [fst].
  destruct o as [exp_cm|e]; [| reflexivity].
  rewrite stream_bind_run. unfold Stream.get_self.
  destruct (Stream.phase_and_task strategy) as [phase_name task].
  cbn [fst]. destruct (Stream._save_image self); reflexivity.
Qed.

End stream_facts.

(** An evaluation of two minibatches on the bare framework, images on:
    whatever the plugin counted before is forgotten, and one value comes
    out, the matrix with its image. *)
Example scenario_stream_evaluation :
  let stale :=
    Stream.with_matrix (@Stream.init bare_framework None None true None)
      {| _cm_tensor := Some [[7]]; _num_classes := None; normalize := None |} in
  let counted :=
    Stream.with_matrix stale
      {| _cm_tensor := Some [[1; 0; 0]; [1; 1; 0]; [1; 0; 0]];
         _num_classes := None; normalize := None |} in
  let strategy (true_y predicted_y : list Z) : @Stream.Strategy bare_framework :=
    (Tensor.Labels true_y, Tensor.Labels predicted_y) in
  (Stream.before_eval (strategy [] []);;
   Stream.eval_iterations [strategy [0; 1; 1] [0; 1; 0]; strategy [2] [0]];;
   Stream.after_eval (strategy [] [])) stale
  = (Return
       [{| Stream.origin := counted;
           Stream.name := "ConfusionMatrix_Stream/eval_phase/test_stream";
           Stream.value :=
             @Stream.AlternativeValues bare_framework
               (LongTensor [[1; 0; 0]; [1; 1; 0]; [1; 0; 0]])
               (LongTensor [[1; 0; 0]; [1; 1; 0]; [1; 0; 0]]);
           Stream.x_plot := 0 |}],
     counted).
Proof. reflexivity. Qed.

